(** * Ring fitting for protoplanetary discs: a shallow embedding

    The Python sources ([functions.py], [testplot.py]) are embedded as Rocq
    functions.  Conventions of the embedding:

    - in the first embedding numpy/Python floats are idealised as the
      real numbers [R], with the trigonometric functions of the Standard
      Library.  Its theorems are stated where this changes nothing that is
      decided: at inputs the program computes without rounding, between
      functions of the program that compute alike, and on results that
      vary continuously;
    - the functions whose outcome hangs on a comparison or a truncation of
      a rounded number ([deproject], [cut], the ellipse and band scorers,
      [a_surf_map]) are embedded once more in the module [Float64], over an
      arithmetic that is a parameter: their theorems hold for every
      rounding, that of binary64 included;
    - a Python number that sets the type of an array ([np.full(shape,
      back)]) is a [scalar], an [int] or a [float]; an integer array
      truncates what is stored in it;
    - a two-dimensional numpy array is a list of rows ([list (list A)]);
      indexing follows numpy: a negative index counts from the end, an
      index outside [-n, n) raises [IndexError];
    - code that can raise returns a [result], threaded with a small error
      monad;
    - the module-level array [qphi] of [testplot.py] is an explicit
      component of the [globals] record passed to the functions that read it.
*)

From Stdlib Require Import Reals Zfloor List ZArith Lia Lra Bool Arith.
Import ListNotations.

Set Implicit Arguments.

Open Scope R_scope.

(* ===================================================================== *)
(** ** Exceptions and the error monad                                      *)
(* ===================================================================== *)

Inductive exn : Set :=
| IndexError
| ZeroDivisionError
| ValueError.

Inductive result (A : Type) : Type :=
| Ok (a : A)
| Raise (e : exn).

Arguments Ok {A} a.
Arguments Raise {A} e.

Definition bind {A B : Type} (m : result A) (k : A -> result B) : result B :=
  match m with
  | Ok a => k a
  | Raise e => Raise e
  end.

Notation "x <- m ;; k" := (bind m (fun x => k))
  (at level 61, m at next level, right associativity).
Notation "' pat <- m ;; k" := (bind m (fun x => match x with pat => k end))
  (at level 61, pat pattern, m at next level, right associativity).

(** [for x in xs: body] over a state that the body may update or abort. *)
Fixpoint for_each {X S : Type} (xs : list X) (body : X -> S -> result S)
  (s : S) : result S :=
  match xs with
  | [] => Ok s
  | x :: rest => s' <- body x s ;; for_each rest body s'
  end.

(* ===================================================================== *)
(** ** numpy and Python primitives                                         *)
(* ===================================================================== *)

(** [np.radians]. *)
Definition radians (deg : R) : R := deg * (PI / 180).

(** [np.int] on a float: truncation towards zero. *)
Definition np_int (x : R) : Z :=
  if Rle_dec 0 x then Zfloor x else (- Zfloor (- x))%Z.

(** [range(a, b)] on integers. *)
Definition py_range (a b : Z) : list Z :=
  map (fun k => (a + Z.of_nat k)%Z) (seq 0 (Z.to_nat (b - a))).

(** [range(n)] on a non-negative literal. *)
Definition range (n : nat) : list nat := seq 0 n.

(** Normalisation of one numpy index against an axis of length [n]. *)
Definition np_index (n : nat) (k : Z) : result nat :=
  if (0 <=? k)%Z then
    if (k <? Z.of_nat n)%Z then Ok (Z.to_nat k) else Raise IndexError
  else
    if (- Z.of_nat n <=? k)%Z then Ok (Z.to_nat (Z.of_nat n + k))
    else Raise IndexError.

(** [a[k]] on a one-dimensional sequence. *)
Definition get1 {A : Type} (a : list A) (k : Z) : result A :=
  p <- np_index (length a) k ;;
  match nth_error a p with
  | Some v => Ok v
  | None => Raise IndexError
  end.

(** [a[i, j]] on a two-dimensional array. *)
Definition get2 {A : Type} (a : list (list A)) (i j : Z) : result A :=
  row <- get1 a i ;; get1 row j.

(** Functional update of position [p] of a list (no change out of range). *)
Fixpoint list_set {A : Type} (l : list A) (p : nat) (v : A) : list A :=
  match l, p with
  | [], _ => []
  | _ :: t, O => v :: t
  | h :: t, S p' => h :: list_set t p' v
  end.

(** [a[i, j] = v] on a two-dimensional array. *)
Definition set2 {A : Type} (a : list (list A)) (i j : Z) (v : A)
  : result (list (list A)) :=
  p <- np_index (length a) i ;;
  match nth_error a p with
  | Some row =>
      q <- np_index (length row) j ;;
      Ok (list_set a p (list_set row q v))
  | None => Raise IndexError
  end.

(** [np.full((h, w), v)] and [np.zeros((h, w))]. *)
Definition np_full {A : Type} (h w : nat) (v : A) : list (list A) :=
  repeat (repeat v w) h.

(** An image: rows of intensities. *)
Definition image : Type := list (list R).

(** A Python number passed as an argument: an [int] or a [float].  The
    difference matters where an array is allocated from it:
    [np.full(shape, v)] without [dtype] takes the type of [v]. *)
Inductive scalar : Type :=
| PyInt (z : Z)
| PyFloat (x : R).

Definition scalar_val (s : scalar) : R :=
  match s with
  | PyInt z => IZR z
  | PyFloat x => x
  end.

(** What an assignment [a[i, j] = v] of a float [v] leaves in an array
    allocated from [fill]: an integer array keeps [v] truncated towards
    zero. *)
Definition store_as (fill : scalar) (v : R) : R :=
  match fill with
  | PyInt _ => IZR (np_int v)
  | PyFloat _ => v
  end.

(** [len(data[0])]: the width read from the first row. *)
Definition width {A : Type} (data : list (list A)) : result nat :=
  row <- get1 data 0%Z ;; Ok (length row).

(** Python's [a / b] on numbers.  [Raise ZeroDivisionError] stands for
    the division by a zero divisor: Python raises [ZeroDivisionError] when
    the divisor is a Python number, and reports the same event as a
    divide-by-zero [RuntimeWarning] with an infinite result when the
    divisor is a numpy scalar.  The embedding does not tell the two
    apart. *)
Definition py_div (a b : R) : result R :=
  if Req_dec_T b 0 then Raise ZeroDivisionError else Ok (a / b).

(** [np.linspace(start, stop, num)]: [num] evenly spaced samples, both end
    points included. *)
Definition linspace (start stop : R) (num : nat) : list R :=
  map (fun k => start + INR k * ((stop - start) / INR (num - 1))) (seq 0 num).

(* ===================================================================== *)
(** ** General functions ([functions.py])                                  *)
(* ===================================================================== *)

(** [rotate(i, j, x_m, y_m, rot)]. *)
Definition rotate (i j x_m y_m rot : R) : R * R :=
  let x := i * cos (radians rot) - j * sin (radians rot)
           - x_m * cos (radians rot) + y_m * sin (radians rot) in
  let y := j * cos (radians rot) + i * sin (radians rot)
           - y_m * cos (radians rot) - x_m * sin (radians rot) in
  (x, y).

(** [deproject(data, inc)] of [functions.py].  [np.zeros] refuses a negative
    dimension with [ValueError]; the progress [print] is not modelled. *)
Definition deproject (data : image) (inc : R) : result image :=
  w <- width data ;;
  let h := length data in
  let inc := radians inc in
  let new_w := np_int (INR w / cos inc) in
  if (new_w <? 0)%Z then Raise ValueError else
  let new_data := np_full h (Z.to_nat new_w) 0 in
  for_each (range h) (fun i new_data =>
    for_each (range (Z.to_nat new_w)) (fun j new_data =>
      v <- get2 data (Z.of_nat i) (np_int (INR j * cos inc)) ;;
      set2 new_data (Z.of_nat i) (Z.of_nat j) v)
    new_data)
  new_data.

(** The radial Gaussian profile as the specification words it: a kernel of
    the deprojected radius [R_] (the source's [R]), centred on [r] with scale [th / 2]. *)
Definition gauss_kernel (R_ r th : R) : R :=
  exp (- (R_ - r) ^ 2 / (2 * (th / 2) ^ 2)).

(** The local variable [R] of [test_map] and [test_map_mie]. *)
Definition test_map_R (inc rot x_m y_m : R) (i j : nat) : R :=
  let '(x, y) := rotate (INR i) (INR j) x_m y_m rot in
  sqrt ((x / cos (radians inc)) ^ 2 + y ^ 2).

(** The right-hand side of the assignment [test_map[i,j] = ...] of
    [test_map]. *)
Definition test_map_px (r th inc rot x_m y_m surf back : R) (i j : nat) : R :=
  let '(x, y) := rotate (INR i) (INR j) x_m y_m rot in
  let R_ := sqrt ((x / cos (radians inc)) ^ 2 + y ^ 2) in
  back + surf * exp ((- (R_ - r) ^ 2) / (2 * (th / 2) ^ 2)).

(** [test_map(r, th, inc, rot, x_m, y_m, surf, back, size)].  The array is
    [np.full((size, size), back)]: it has the type of [back], and the
    assignments to an integer array truncate. *)
Definition test_map (r th inc rot x_m y_m surf : R) (back : scalar) (size : nat)
  : result image :=
  let test_map := np_full size size (scalar_val back) in
  for_each (range size) (fun i =>
  for_each (range size) (fun j test_map =>
    set2 test_map (Z.of_nat i) (Z.of_nat j)
      (store_as back
         (test_map_px r th inc rot x_m y_m surf (scalar_val back) i j))))
  test_map.

(** [np.arctan2(y, x)]. *)
Definition arctan2 (y x : R) : R :=
  if Rlt_dec 0 x then atan (y / x)
  else if Rlt_dec x 0 then
         if Rle_dec 0 y then atan (y / x) + PI else atan (y / x) - PI
  else if Rlt_dec 0 y then PI / 2
  else if Rlt_dec y 0 then - (PI / 2)
  else 0.

(** The per-pixel [surf] of [test_map_mie]. *)
Definition mie_surf (x_m y_m surf_0 surf_theta theta_max : R) (i j : nat) : R :=
  let theta := arctan2 (INR i - x_m) (INR j - y_m) in
  surf_0 + surf_theta * cos (0.5 * (radians theta_max - theta + PI)) ^ 2.

(** The right-hand side of the assignment of [test_map_mie]. *)
Definition test_map_mie_px
  (r th inc rot x_m y_m surf_0 surf_theta theta_max back : R) (i j : nat) : R :=
  let '(x, y) := rotate (INR i) (INR j) x_m y_m rot in
  let R_ := sqrt ((x / cos (radians inc)) ^ 2 + y ^ 2) in
  let theta := arctan2 (INR i - x_m) (INR j - y_m) in
  let surf :=
    surf_0 + surf_theta * cos (0.5 * (radians theta_max - theta + PI)) ^ 2 in
  back + surf * exp ((- (R_ - r) ^ 2) / (2 * (th / 2) ^ 2)).

(** [test_map_mie]: allocated as [test_map] is, from [back] without
    [dtype]. *)
Definition test_map_mie
  (r th inc rot x_m y_m surf_0 surf_theta theta_max : R) (back : scalar)
  (size : nat) : result image :=
  let test_map := np_full size size (scalar_val back) in
  for_each (range size) (fun i =>
  for_each (range size) (fun j test_map =>
    set2 test_map (Z.of_nat i) (Z.of_nat j)
      (store_as back
         (test_map_mie_px r th inc rot x_m y_m surf_0 surf_theta theta_max
                          (scalar_val back) i j))))
  test_map.

(** The local variable [R] of [hg_map]; [inc] is already in radians there. *)
Definition hg_map_R (inc rot x_m y_m : R) (i j : nat) : R :=
  let inc := radians inc in
  let '(x, y) := rotate (INR i) (INR j) x_m y_m rot in
  sqrt (x ^ 2 + (y / cos inc) ^ 2).

(** The Henyey-Greenstein factor [p] of [hg_map] at one pixel; [pow(b, 1.5)]
    is the real power [Rpower b 1.5], which agrees with it for [b > 0]. *)
Definition hg_p (inc rot x_m y_m g : R) (i j : nat) : R :=
  let inc := radians inc in
  let '(x, y) := rotate (INR i) (INR j) x_m y_m rot in
  let z := - y * tan inc in
  let mod_ := sqrt (x ^ 2 + y ^ 2 + z ^ 2) in
  let op_vec := if Req_dec_T mod_ 0 then 0 else - z / mod_ in
  (1 - g ^ 2) / (4 * PI * Rpower (1 + g ^ 2 + 2 * g * op_vec) 1.5).

(** The right-hand side of the assignment of [hg_map]. *)
Definition hg_map_px (r th inc rot x_m y_m g surf back : R) (i j : nat) : R :=
  let inc := radians inc in
  let '(x, y) := rotate (INR i) (INR j) x_m y_m rot in
  let R_ := sqrt (x ^ 2 + (y / cos inc) ^ 2) in
  let z := - y * tan inc in
  let mod_ := sqrt (x ^ 2 + y ^ 2 + z ^ 2) in
  let op_vec := if Req_dec_T mod_ 0 then 0 else - z / mod_ in
  let p := (1 - g ^ 2) / (4 * PI * Rpower (1 + g ^ 2 + 2 * g * op_vec) 1.5) in
  back + surf * p * exp ((- (R_ - r) ^ 2) / (2 * (th / 2) ^ 2)).

(** [hg_map]: the array is [np.full((size, size), back, dtype=float)], a
    float array whatever the type of [back]. *)
Definition hg_map (r th inc rot x_m y_m g surf back : R) (size : nat)
  : result image :=
  let hg_map := np_full size size back in
  for_each (range size) (fun i =>
  for_each (range size) (fun j hg_map =>
    set2 hg_map (Z.of_nat i) (Z.of_nat j)
      (hg_map_px r th inc rot x_m y_m g surf back i j)))
  hg_map.

(* ===================================================================== *)
(** ** N-dimensional score arrays                                          *)
(* ===================================================================== *)

(** A dense array stored row-major, as numpy does. *)
Record ndarray : Type := mk_nd { nd_shape : list nat; nd_flat : list R }.

Definition prod_shape (shape : list nat) : nat := fold_right Nat.mul 1%nat shape.

(** [np.zeros(shape)]; a negative dimension raises [ValueError]. *)
Definition np_zeros (shape : list Z) : result ndarray :=
  if forallb (fun d => (0 <=? d)%Z) shape then
    let sh := map Z.to_nat shape in
    Ok (mk_nd sh (repeat 0 (prod_shape sh)))
  else Raise ValueError.

(** Row-major offset of a multi-index, each axis normalised as numpy does. *)
Fixpoint nd_offset (shape : list nat) (idx : list Z) (acc : nat) : result nat :=
  match shape, idx with
  | [], [] => Ok acc
  | d :: ds, k :: ks => p <- np_index d k ;; nd_offset ds ks (acc * d + p)%nat
  | _, _ => Raise IndexError
  end.

(** [a[idx] = v]. *)
Definition nd_set (a : ndarray) (idx : list Z) (v : R) : result ndarray :=
  off <- nd_offset (nd_shape a) idx 0 ;;
  Ok (mk_nd (nd_shape a) (list_set (nd_flat a) off v)).

Definition Rltb (a b : R) : bool := if Rlt_dec a b then true else false.

(** [a.argmax()]: the first flat position holding the maximum; an empty
    array raises [ValueError]. *)
Fixpoint argmax_from (l : list R) (pos best_pos : nat) (best : R) : nat :=
  match l with
  | [] => best_pos
  | x :: t =>
      if Rltb best x then argmax_from t (S pos) pos x
      else argmax_from t (S pos) best_pos best
  end.

Definition argmax (a : ndarray) : result nat :=
  match nd_flat a with
  | [] => Raise ValueError
  | x :: t => Ok (argmax_from t 1 0 x)
  end.

(** [np.unravel_index(k, shape)]. *)
Fixpoint unravel_index (k : nat) (shape : list nat) : list nat :=
  match shape with
  | [] => []
  | _ :: ds => (k / prod_shape ds)%nat :: unravel_index (k mod prod_shape ds) ds
  end.

(* ===================================================================== *)
(** ** Ellipse functions ([functions.py])                                   *)
(* ===================================================================== *)

(** The sampled ellipse [Ell] with [n] parameter values. *)
Definition Ell (r inc : R) (n : nat) : list (R * R) :=
  map (fun t => (r * cos t, r * cos (radians inc) * sin t))
      (linspace 0 (2 * PI) n).

(** [np.dot(R_rot, Ell[:,i])] followed by the truncation to a pixel; the
    result is [(sq_y, sq_x)]. *)
Definition ellipse_pixel (rot x_m y_m : R) (e : R * R) : Z * Z :=
  let Ell_rot_0 := cos (radians rot) * fst e + (- sin (radians rot)) * snd e in
  let Ell_rot_1 := sin (radians rot) * fst e + cos (radians rot) * snd e in
  let sq_x := (np_int x_m + np_int Ell_rot_0)%Z in
  let sq_y := (np_int y_m + np_int Ell_rot_1)%Z in
  (sq_y, sq_x).

(** [e_score(r, inc, rot, x_m, y_m, data)]: the state of the loop is
    [(mask_no, score)]; the mask is read and never written. *)
Definition e_score (r inc rot x_m y_m : R) (data : image) : result R :=
  w <- width data ;;
  let mask := np_full (length data) w 0%Z in
  '(_, score) <-
    for_each (Ell r inc 400) (fun e '(mask_no, score) =>
      let '(sq_y, sq_x) := ellipse_pixel rot x_m y_m e in
      m <- get2 mask sq_y sq_x ;;
      let mask_no := if (m =? 0)%Z then S mask_no else mask_no in
      v <- get2 data sq_y sq_x ;;
      Ok (mask_no, score + v))
    (O, 0) ;;
  Ok score.

(** [e_r_score(init, data)]. *)
Definition e_r_score (init : R * R * R * R * R) (data : image) : result R :=
  let '(r, inc, rot, x_m, y_m) := init in
  score <- e_score r inc rot x_m y_m data ;;
  py_div 1 score.

(** [e_best]: the five-dimensional exhaustive search. *)
Definition e_best
  (r_min r_max inc_min inc_max rot_min rot_max
   x_m_min x_m_max y_m_min y_m_max : Z) (data : image)
  : result (Z * Z * Z * Z * Z) :=
  score_list <- np_zeros [r_max - r_min; inc_max - inc_min; rot_max - rot_min;
                          x_m_max - x_m_min; y_m_max - y_m_min]%Z ;;
  score_list <-
    for_each (py_range r_min r_max) (fun r =>
    for_each (py_range inc_min inc_max) (fun inc =>
    for_each (py_range rot_min rot_max) (fun rot =>
    for_each (py_range x_m_min x_m_max) (fun x_m =>
    for_each (py_range y_m_min y_m_max) (fun y_m score_list =>
      this_score <- e_score (IZR r) (IZR inc) (IZR rot) (IZR x_m) (IZR y_m) data ;;
      nd_set score_list
        [r - r_min; inc - inc_min; rot - rot_min; x_m - x_m_min; y_m - y_m_min]%Z
        this_score)))))
    score_list ;;
  k <- argmax score_list ;;
  match unravel_index k (nd_shape score_list) with
  | [c0; c1; c2; c3; c4] =>
      Ok (Z.of_nat c0 + r_min, Z.of_nat c1 + inc_min, Z.of_nat c2 + rot_min,
          Z.of_nat c3 + x_m_min, Z.of_nat c4 + y_m_min)%Z
  | _ => Raise IndexError
  end.

(* ===================================================================== *)
(** ** Annulus functions ([functions.py])                                   *)
(* ===================================================================== *)

(** [np.sqrt]: [None] stands for the [nan] numpy returns on a negative
    argument. *)
Definition np_sqrt (q : R) : option R :=
  if Rle_dec 0 q then Some (sqrt q) else None.

(** [a > b] and [a < b] when [a] may be [nan]: a comparison with [nan] is
    false. *)
Definition nan_gt (a : option R) (b : R) : bool :=
  match a with Some v => Rltb b v | None => false end.
Definition nan_lt (a : option R) (b : R) : bool :=
  match a with Some v => Rltb v b | None => false end.

(** [a_z(i, j, inc, rot, x_m, y_m)]. *)
Definition a_z (i j inc rot x_m y_m : R) : option R :=
  let '(x, y) := rotate i j x_m y_m rot in
  np_sqrt (x ^ 2 + (y ^ 2) / cos (radians inc)).

(** [a_score(r, th, inc, rot, x_m, y_m, data)]: the loop state is
    [(mask, mask_no, score)]. *)
Definition a_score (r th inc rot x_m y_m : R) (data : image) : result R :=
  w <- width data ;;
  let mask := np_full (length data) w false in
  let th := if Rlt_dec th 1 then 1 else th in
  '(_, mask_no, score) <-
    for_each (range 282) (fun i =>
    for_each (range 282) (fun j '(mask, mask_no, score) =>
      let z := a_z (INR i) (INR j) inc rot x_m y_m in
      if nan_gt z (r - th / 2) && nan_lt z (r + th / 2) then
        m <- get2 mask (Z.of_nat i) (Z.of_nat j) ;;
        if eqb m false then
          v <- get2 data (Z.of_nat i) (Z.of_nat j) ;;
          mask <- set2 mask (Z.of_nat i) (Z.of_nat j) true ;;
          Ok (mask, S mask_no, score + v)
        else Ok (mask, mask_no, score)
      else Ok (mask, mask_no, score)))
    (mask, O, 0) ;;
  let mask_no := if Nat.eqb mask_no 0 then 1%nat else mask_no in
  py_div score (INR mask_no).

(** [a_r_score(init, data)]. *)
Definition a_r_score (init : R * R * R * R * R * R) (data : image) : result R :=
  let '(r, th, inc, rot, x_m, y_m) := init in
  score <- a_score r th inc rot x_m y_m data ;;
  let score := if Req_dec_T score 0 then 0.001 else score in
  py_div 1 score.

(** [a_best]: the six-dimensional exhaustive search. *)
Definition a_best
  (r_min r_max th_min th_max inc_min inc_max rot_min rot_max
   x_m_min x_m_max y_m_min y_m_max : Z) (data : image)
  : result (Z * Z * Z * Z * Z * Z) :=
  score_list <- np_zeros [r_max - r_min; th_max - th_min; inc_max - inc_min;
                          rot_max - rot_min; x_m_max - x_m_min;
                          y_m_max - y_m_min]%Z ;;
  score_list <-
    for_each (py_range r_min r_max) (fun r =>
    for_each (py_range th_min th_max) (fun th =>
    for_each (py_range inc_min inc_max) (fun inc =>
    for_each (py_range rot_min rot_max) (fun rot =>
    for_each (py_range x_m_min x_m_max) (fun x_m =>
    for_each (py_range y_m_min y_m_max) (fun y_m score_list =>
      this_score <- a_score (IZR r) (IZR th) (IZR inc) (IZR rot)
                            (IZR x_m) (IZR y_m) data ;;
      nd_set score_list
        [r - r_min; th - th_min; inc - inc_min; rot - rot_min;
         x_m - x_m_min; y_m - y_m_min]%Z
        this_score))))))
    score_list ;;
  k <- argmax score_list ;;
  match unravel_index k (nd_shape score_list) with
  | [c0; c1; c2; c3; c4; c5] =>
      Ok (Z.of_nat c0 + r_min, Z.of_nat c1 + th_min, Z.of_nat c2 + inc_min,
          Z.of_nat c3 + rot_min, Z.of_nat c4 + x_m_min, Z.of_nat c5 + y_m_min)%Z
  | _ => Raise IndexError
  end.

(** [a_surf_map(r, th, inc, rot, x_m, y_m, surf, back, data)]; the array
    is [np.full(shape, back)] and takes the type of [back]; the assignment
    is [map[j, i] = surf]. *)
Definition a_surf_map (r th inc rot x_m y_m surf : R) (back : scalar)
  (data : image) : result image :=
  w <- width data ;;
  let map_ := np_full (length data) w (scalar_val back) in
  for_each (range (length data)) (fun i =>
  for_each (range w) (fun j map_ =>
    let z := a_z (INR i) (INR j) inc rot x_m y_m in
    if nan_gt z (r - th / 2) && nan_lt z (r + th / 2) then
      set2 map_ (Z.of_nat j) (Z.of_nat i) (store_as back surf)
    else Ok map_))
  map_.

(* ===================================================================== *)
(** ** The script [testplot.py]                                            *)
(* ===================================================================== *)

(** Module-level state read by the functions of [testplot.py]. *)
Record globals : Type := mk_globals { qphi : image }.

Module Testplot.

(** [deproject(data, inc)] of [testplot.py]: width and height come from the
    module-level [qphi]. *)
Definition deproject (g : globals) (data : image) (inc : R) : result image :=
  w <- width (qphi g) ;;
  let h := length (qphi g) in
  let inc := radians inc in
  let new_w := np_int (INR w / cos inc) in
  if (new_w <? 0)%Z then Raise ValueError else
  let new_data := np_full h (Z.to_nat new_w) 0 in
  for_each (range h) (fun i new_data =>
    for_each (range (Z.to_nat new_w)) (fun j new_data =>
      v <- get2 data (Z.of_nat i) (np_int (INR j * cos inc)) ;;
      set2 new_data (Z.of_nat i) (Z.of_nat j) v)
    new_data)
  new_data.

(** [score_ellipse(r, inc, t_rot, x_m, y_m, data)]: the loop state is
    [(mask, mask_no, score)]. *)
Definition score_ellipse (r inc t_rot x_m y_m : R) (data : image) : result R :=
  w <- width data ;;
  let mask := np_full (length data) w false in
  '(_, _, score) <-
    for_each (Ell r inc 400) (fun e '(mask, mask_no, score) =>
      let '(sq_y, sq_x) := ellipse_pixel t_rot x_m y_m e in
      m <- get2 mask sq_y sq_x ;;
      if eqb m false then
        v <- get2 data sq_y sq_x ;;
        mask <- set2 mask sq_y sq_x true ;;
        Ok (mask, S mask_no, score + v)
      else Ok (mask, mask_no, score))
    (mask, O, 0) ;;
  Ok score.

(** The quantity [z] of [score_annulus]. *)
Definition score_annulus_z (inc t_rot x_m y_m : R) (i j : nat) : R :=
  let i := INR i in
  let j := INR j in
  (i * cos (radians t_rot) - j * sin (radians t_rot)
   - x_m * cos (radians t_rot) + y_m * sin (radians t_rot)) ^ 2
  + ((j * cos (radians t_rot) + i * sin (radians t_rot)
      - y_m * cos (radians t_rot) - x_m * sin (radians t_rot))
     / cos (radians inc)) ^ 2.

(** [score_annulus(r, th, inc, t_rot, x_m, y_m, data)]: mask and intensities
    come from the module-level [qphi]; [data] is not read. *)
Definition score_annulus (g : globals) (r th inc t_rot x_m y_m : R)
  (data : image) : result R :=
  w <- width (qphi g) ;;
  let mask := np_full (length (qphi g)) w false in
  '(_, mask_no, score) <-
    for_each (range 282) (fun i =>
    for_each (range 282) (fun j '(mask, mask_no, score) =>
      let z := score_annulus_z inc t_rot x_m y_m i j in
      if Rltb z (r - th / 2) && Rltb z (r + th / 2) then
        m <- get2 mask (Z.of_nat i) (Z.of_nat j) ;;
        if eqb m false then
          v <- get2 (qphi g) (Z.of_nat i) (Z.of_nat j) ;;
          mask <- set2 mask (Z.of_nat i) (Z.of_nat j) true ;;
          Ok (mask, S mask_no, score + v)
        else Ok (mask, mask_no, score)
      else Ok (mask, mask_no, score)))
    (mask, O, 0) ;;
  let mask_no := if Nat.eqb mask_no 0 then 1%nat else mask_no in
  py_div score (INR mask_no).

(** [best_annulus]: the store is indexed
    [r - r_min, inc - inc_min, th - th_min, ...] while the array is shaped
    and decoded in the order [r, th, inc, ...]. *)
Definition best_annulus (g : globals)
  (r_min r_max th_min th_max inc_min inc_max t_rot_min t_rot_max
   x_m_min x_m_max y_m_min y_m_max : Z) (data : image)
  : result (Z * Z * Z * Z * Z * Z) :=
  score_list <- np_zeros [r_max - r_min; th_max - th_min; inc_max - inc_min;
                          t_rot_max - t_rot_min; x_m_max - x_m_min;
                          y_m_max - y_m_min]%Z ;;
  score_list <-
    for_each (py_range r_min r_max) (fun r =>
    for_each (py_range th_min th_max) (fun th =>
    for_each (py_range inc_min inc_max) (fun inc =>
    for_each (py_range t_rot_min t_rot_max) (fun t_rot =>
    for_each (py_range x_m_min x_m_max) (fun x_m =>
    for_each (py_range y_m_min y_m_max) (fun y_m score_list =>
      this_score <- score_annulus g (IZR r) (IZR th) (IZR inc) (IZR t_rot)
                                  (IZR x_m) (IZR y_m) data ;;
      nd_set score_list
        [r - r_min; inc - inc_min; th - th_min; t_rot - t_rot_min;
         x_m - x_m_min; y_m - y_m_min]%Z
        this_score))))))
    score_list ;;
  k <- argmax score_list ;;
  match unravel_index k (nd_shape score_list) with
  | [c0; c1; c2; c3; c4; c5] =>
      Ok (Z.of_nat c0 + r_min, Z.of_nat c1 + th_min, Z.of_nat c2 + inc_min,
          Z.of_nat c3 + t_rot_min, Z.of_nat c4 + x_m_min,
          Z.of_nat c5 + y_m_min)%Z
  | _ => Raise IndexError
  end.

(** [best_ellipse]: the five-dimensional exhaustive search of
    [testplot.py], over [score_ellipse]. *)
Definition best_ellipse
  (r_min r_max inc_min inc_max t_rot_min t_rot_max
   x_m_min x_m_max y_m_min y_m_max : Z) (data : image)
  : result (Z * Z * Z * Z * Z) :=
  score_list <- np_zeros [r_max - r_min; inc_max - inc_min;
                          t_rot_max - t_rot_min; x_m_max - x_m_min;
                          y_m_max - y_m_min]%Z ;;
  score_list <-
    for_each (py_range r_min r_max) (fun r =>
    for_each (py_range inc_min inc_max) (fun inc =>
    for_each (py_range t_rot_min t_rot_max) (fun t_rot =>
    for_each (py_range x_m_min x_m_max) (fun x_m =>
    for_each (py_range y_m_min y_m_max) (fun y_m score_list =>
      this_score <- score_ellipse (IZR r) (IZR inc) (IZR t_rot)
                                  (IZR x_m) (IZR y_m) data ;;
      nd_set score_list
        [r - r_min; inc - inc_min; t_rot - t_rot_min; x_m - x_m_min;
         y_m - y_m_min]%Z
        this_score)))))
    score_list ;;
  k <- argmax score_list ;;
  match unravel_index k (nd_shape score_list) with
  | [c0; c1; c2; c3; c4] =>
      Ok (Z.of_nat c0 + r_min, Z.of_nat c1 + inc_min, Z.of_nat c2 + t_rot_min,
          Z.of_nat c3 + x_m_min, Z.of_nat c4 + y_m_min)%Z
  | _ => Raise IndexError
  end.

(** [recip_score_ellipse(init, data)]. *)
Definition recip_score_ellipse (init : R * R * R * R * R) (data : image)
  : result R :=
  let '(r, inc, t_rot, x_m, y_m) := init in
  score <- score_ellipse r inc t_rot x_m y_m data ;;
  py_div 1 score.

(** [recip_score_annulus(init, data)]. *)
Definition recip_score_annulus (g : globals) (init : R * R * R * R * R * R)
  (data : image) : result R :=
  let '(r, th, inc, t_rot, x_m, y_m) := init in
  score <- score_annulus g r th inc t_rot x_m y_m data ;;
  py_div 1 score.

End Testplot.

(* ===================================================================== *)
(** ** Further functions of [functions.py]                                 *)
(* ===================================================================== *)

(** [hyperbolic(data, beta, vu, vl)] on one entry; numpy applies the formula
    to every entry of [data]. *)
Definition hyperbolic_px (x beta vu vl : R) : R :=
  arcsinh ((x - vl) / beta) / arcsinh ((vu - vl) / beta).

Definition hyperbolic (data : image) (beta vu vl : R) : image :=
  map (map (fun x => hyperbolic_px x beta vu vl)) data.

(** [cut(r, inc, rot, x_m, y_m, val, data)].  The source writes into [data]
    and returns it; the model returns the written array.  The outer loop
    runs over the width and its variable indexes the rows. *)
Definition cut (r inc rot x_m y_m val : R) (data : image) : result image :=
  w <- width data ;;
  let h := length data in
  for_each (range w) (fun i =>
  for_each (range h) (fun j data =>
    let '(x, y) := rotate (INR i) (INR j) x_m y_m rot in
    let R_ := sqrt ((x / cos (radians inc)) ^ 2 + y ^ 2) in
    if Rltb R_ r then set2 data (Z.of_nat i) (Z.of_nat j) val
    else Ok data))
  data.

(** [e_mask(r, inc, rot, x_m, y_m, data)]: the visit counts of the 10000
    samples; the loop state is [(mask, mask_no)]. *)
Definition e_mask (r inc rot x_m y_m : R) (data : image)
  : result (list (list Z)) :=
  w <- width data ;;
  let mask := np_full (length data) w 0%Z in
  '(mask, _) <-
    for_each (Ell r inc (100 * 100)) (fun e '(mask, mask_no) =>
      let '(sq_y, sq_x) := ellipse_pixel rot x_m y_m e in
      let mask_no := S mask_no in
      m <- get2 mask sq_y sq_x ;;
      mask <- set2 mask sq_y sq_x (m + 1)%Z ;;
      Ok (mask, mask_no))
    (mask, O) ;;
  Ok mask.

(** [a_surf_score(init, data)]. *)
Definition a_surf_score (init : R * R * R * R * R * R * R * scalar)
  (data : image) : result R :=
  let '(r, th, inc, rot, x_m, y_m, surf, back) := init in
  map_ <- a_surf_map r th inc rot x_m y_m surf back data ;;
  for_each (range (length data)) (fun i score =>
    w <- width data ;;
    for_each (range w) (fun j score =>
      d <- get2 data (Z.of_nat i) (Z.of_nat j) ;;
      m <- get2 map_ (Z.of_nat i) (Z.of_nat j) ;;
      Ok (score + sqrt ((d - m) ^ 2)))
    score)
  0.

(** [a_gau_score(init, data)]. *)
Definition a_gau_score (init : R * R * R * R * R * R * R * scalar)
  (data : image) : result R :=
  let '(r, th, inc, rot, x_m, y_m, surf, back) := init in
  map_ <- test_map r th inc rot x_m y_m surf back (length data) ;;
  for_each (range (length data)) (fun i score =>
    w <- width data ;;
    for_each (range w) (fun j score =>
      d <- get2 data (Z.of_nat i) (Z.of_nat j) ;;
      m <- get2 map_ (Z.of_nat i) (Z.of_nat j) ;;
      Ok (score + sqrt ((d - m) ^ 2)))
    score)
  0.

(** [a_mie_score(init, data)]. *)
Definition a_mie_score (init : R * R * R * R * R * R * R * R * R * scalar)
  (data : image) : result R :=
  let '(r, th, inc, rot, x_m, y_m, surf_0, surf_theta, theta_max, back) := init in
  map_ <- test_map_mie r th inc rot x_m y_m surf_0 surf_theta theta_max back
                       (length data) ;;
  for_each (range (length data)) (fun i score =>
    w <- width data ;;
    for_each (range w) (fun j score =>
      d <- get2 data (Z.of_nat i) (Z.of_nat j) ;;
      m <- get2 map_ (Z.of_nat i) (Z.of_nat j) ;;
      Ok (score + sqrt ((d - m) ^ 2)))
    score)
  0.

(** [a_hg_score(init, data)]. *)
Definition a_hg_score (init : R * R * R * R * R * R * R * R * R) (data : image)
  : result R :=
  let '(r, th, inc, rot, x_m, y_m, g, surf, back) := init in
  map_ <- hg_map r th inc rot x_m y_m g surf back (length data) ;;
  for_each (range (length data)) (fun i score =>
    w <- width data ;;
    for_each (range w) (fun j score =>
      d <- get2 data (Z.of_nat i) (Z.of_nat j) ;;
      m <- get2 map_ (Z.of_nat i) (Z.of_nat j) ;;
      Ok (score + sqrt ((d - m) ^ 2)))
    score)
  0.

(* ===================================================================== *)
(** ** Vocabulary of the statements                                        *)
(* ===================================================================== *)

(** An array of [h] rows that all have [w] entries. *)
Definition rect {A : Type} (h w : nat) (a : list (list A)) : Prop :=
  length a = h /\ Forall (fun row => length row = w) a.

(** The entry of an image at row [i], column [j] (0 outside the image). *)
Definition px (img : image) (p : nat * nat) : R :=
  nth (snd p) (nth (fst p) img []) 0.

Definition sum_list (l : list R) : R := fold_right Rplus 0 l.

(** The pixels scanned by two nested [range] loops, in loop order. *)
Definition grid (n m : nat) : list (nat * nat) := list_prod (range n) (range m).

(** The body shared by the two band scorers: test the pixel, and add it if
    its mask entry is still [False]. *)
Definition band_step (test : nat -> nat -> bool) (img : image) (i j : nat)
  (st : list (list bool) * nat * R) : result (list (list bool) * nat * R) :=
  let '(mask, mask_no, score) := st in
  if test i j then
    m <- get2 mask (Z.of_nat i) (Z.of_nat j) ;;
    if eqb m false then
      v <- get2 img (Z.of_nat i) (Z.of_nat j) ;;
      mask <- set2 mask (Z.of_nat i) (Z.of_nat j) true ;;
      Ok (mask, S mask_no, score + v)
    else Ok (mask, mask_no, score)
  else Ok (mask, mask_no, score).

(** The inclusion test of [a_score] (after the clamp of [th]) and of
    [a_surf_map]. *)
Definition a_in_band (r th inc rot x_m y_m : R) (i j : nat) : bool :=
  let z := a_z (INR i) (INR j) inc rot x_m y_m in
  nan_gt z (r - th / 2) && nan_lt z (r + th / 2).

(** The inclusion test of [score_annulus]. *)
Definition score_annulus_test (r th inc t_rot x_m y_m : R) (i j : nat) : bool :=
  let z := Testplot.score_annulus_z inc t_rot x_m y_m i j in
  Rltb z (r - th / 2) && Rltb z (r + th / 2).

(** The thickness [a_score] works with. *)
Definition clamp_th (th : R) : R := if Rlt_dec th 1 then 1 else th.

(** A 282 x 282 image that is 0 everywhere except for the value [v] at
    pixel (0,0). *)
Definition spot (v : R) : image :=
  (v :: repeat 0 281) :: repeat (repeat 0 282) 281.

(** An [n] x [n] image whose pixel [(i, j)] holds [n * i + j]. *)
Definition ramp (n : nat) : image :=
  map (fun i => map (fun j => INR (n * i + j)) (range n)) (range n).

(** A numpy index pair that is valid for an array of [h] rows and [w]
    columns. *)
Definition in_bounds (h w : nat) (z : Z * Z) : Prop :=
  (- Z.of_nat h <= fst z < Z.of_nat h)%Z /\ (- Z.of_nat w <= snd z < Z.of_nat w)%Z.

(** The array position a numpy index pair [(y, x)] denotes in an array of
    [h] rows and [w] columns, for indices inside [-h, h) and [-w, w). *)
Definition norm_pixel (h w : nat) (z : Z * Z) : nat * nat :=
  (Z.to_nat (fst z mod Z.of_nat h), Z.to_nat (snd z mod Z.of_nat w)).

Definition pixel_eqb (p q : nat * nat) : bool :=
  Nat.eqb (fst p) (fst q) && Nat.eqb (snd p) (snd q).

Definition seen_in (seen : list (nat * nat)) (p : nat * nat) : bool :=
  existsb (pixel_eqb p) seen.

(** The pixels of a visiting sequence in the order of their first visit,
    leaving out those already [seen]. *)
Fixpoint first_visits (seen : list (nat * nat)) (l : list (nat * nat))
  : list (nat * nat) :=
  match l with
  | [] => []
  | p :: rest =>
      if seen_in seen p then first_visits seen rest
      else p :: first_visits (p :: seen) rest
  end.

(** The distinct pixels [score_ellipse] visits on an [h] x [w] image. *)
Definition visited (r inc t_rot x_m y_m : R) (h w : nat) : list (nat * nat) :=
  first_visits []
    (map (fun e => norm_pixel h w (ellipse_pixel t_rot x_m y_m e))
         (Ell r inc 400)).

(** Row-major position of an in-range multi-index. *)
Fixpoint ravel (shape idx : list nat) : nat :=
  match shape, idx with
  | _ :: ds, i :: rest => (i * prod_shape ds + ravel ds rest)%nat
  | _, _ => O
  end.

(** The tuples enumerated by nested loops over the lists [ls], outermost
    loop first. *)
Fixpoint cart {X : Type} (ls : list (list X)) : list (list X) :=
  match ls with
  | [] => [[]]
  | l :: rest => flat_map (fun x => map (cons x) (cart rest)) l
  end.

(** Nested [for] loops, one per list of [ls]; the innermost body receives
    the tuple of loop variables. *)
Fixpoint nest {X S : Type} (ls : list (list X)) (acc : list X)
  (body : list X -> S -> result S) (s : S) : result S :=
  match ls with
  | [] => body (rev acc) s
  | l :: rest => for_each l (fun x s => nest rest (x :: acc) body s) s
  end.

Fixpoint sub_list (t mins : list Z) : list Z :=
  match t, mins with
  | a :: t', b :: mins' => (a - b)%Z :: sub_list t' mins'
  | _, _ => []
  end.

Fixpoint add_list (cs : list nat) (mins : list Z) : list Z :=
  match cs, mins with
  | c :: cs', b :: mins' => (Z.of_nat c + b)%Z :: add_list cs' mins'
  | _, _ => []
  end.

(** The ranges of a parameter box given by its lower and upper bounds. *)
Fixpoint ranges (mins maxs : list Z) : list (list Z) :=
  match mins, maxs with
  | a :: mins', b :: maxs' => py_range a b :: ranges mins' maxs'
  | _, _ => []
  end.

(** The parameter box of a search, the shape of its score array, and the
    flat position at which the score of a tuple is stored. *)
Definition box (mins maxs : list Z) : list (list Z) := cart (ranges mins maxs).

Definition box_shape (mins maxs : list Z) : list nat :=
  map Z.to_nat (sub_list maxs mins).

Definition box_off (mins maxs t : list Z) : nat :=
  ravel (box_shape mins maxs) (map Z.to_nat (sub_list t mins)).

(** The value of a computation that returned, 0 otherwise. *)
Definition value_of (m : result R) : R :=
  match m with Ok v => v | Raise _ => 0 end.

(** The test of [cut] at pixel [(i, j)]: inside the ellipse of radius [r]. *)
Definition cut_inside (r inc rot x_m y_m : R) (p : nat * nat) : bool :=
  Rltb (test_map_R inc rot x_m y_m (fst p) (snd p)) r.

(* ===================================================================== *)
(** ** The program in floating-point arithmetic                            *)
(* ===================================================================== *)

(** The definitions above take every operation over the reals.  That is an
    idealisation of the program, which computes in binary64: it changes a
    continuous result by a rounding error, but it can change which branch
    a comparison takes and which pixel a truncation selects.  The module
    [Float64] therefore embeds the functions whose outcome hangs on such a
    decision once more, with the arithmetic as a parameter: a float is the
    real number it denotes, [rnd] rounds the exact result of an operation to
    a float, and the functions of numpy are those of the class, of which
    nothing is assumed.  A theorem about [Float64] holds for every such
    arithmetic, that of the program included; what a theorem needs of the
    arithmetic is among its hypotheses. *)
Class arith : Type := {
  rnd : R -> R;                     (* the rounding of an exact result *)
  np_cos : R -> R;                  (* [np.cos] *)
  np_sin : R -> R;                  (* [np.sin] *)
  np_radians : R -> R;              (* [np.radians] *)
  np_square : R -> R;               (* [x ** 2] and [pow(x, 2)] *)
  np_dot : R * R -> R * R -> R;     (* [np.dot] of a row and a vector *)
  np_pi : R                         (* [np.pi] *)
}.

(** The arithmetic without rounding, in which the definitions above are
    written. *)
Definition exact : arith :=
  {| rnd := fun x => x;
     np_cos := cos;
     np_sin := sin;
     np_radians := radians;
     np_square := fun x => x ^ 2;
     np_dot := fun a b => fst a * fst b + snd a * snd b;
     np_pi := PI |}.

(** The arithmetic without rounding in which the cosine of 60 degrees is
    [1/2 + 2^-53], the binary64 number next above 1/2: the value of
    [np.cos(np.radians(60))] in the program, printed 0.5000000000000001. *)
Definition float_cos_60 : R := 1 / 2 + / 9007199254740992.

Definition cos_60_rounded : arith :=
  {| rnd := fun x => x;
     np_cos := fun x => if Req_dec_T x (radians 60) then float_cos_60
                        else cos x;
     np_sin := sin;
     np_radians := radians;
     np_square := fun x => x ^ 2;
     np_dot := fun a b => fst a * fst b + snd a * snd b;
     np_pi := PI |}.

(** The arithmetic rounds the exact result [x] with a relative error of at
    most [u]; binary64 does so with [u = 2^-53] wherever [x] neither
    underflows nor overflows. *)
Definition rounds_within {A : arith} (u x : R) : Prop :=
  Rabs (rnd x - x) <= u * Rabs x.

(** The four operations on floats. *)
Definition fadd {A : arith} (x y : R) : R := rnd (x + y).
Definition fsub {A : arith} (x y : R) : R := rnd (x - y).
Definition fmul {A : arith} (x y : R) : R := rnd (x * y).
Definition fdiv {A : arith} (x y : R) : R := rnd (x / y).

Notation "x [+] y" := (fadd x y) (at level 50, left associativity).
Notation "x [-] y" := (fsub x y) (at level 50, left associativity).
Notation "x [*] y" := (fmul x y) (at level 40, left associativity).
Notation "x [/] y" := (fdiv x y) (at level 40, left associativity).

(** A sum accumulated from 0 in the order of the list, as [score += v]
    accumulates it. *)
Definition fsum {A : arith} (l : list R) : R := fold_left fadd l 0.

Module Float64.
Section Program.

Context {A : arith}.

(** [a / b] for a divisor that is a Python number. *)
Definition py_div (a b : R) : result R :=
  if Req_dec_T b 0 then Raise ZeroDivisionError else Ok (a [/] b).

(** [rotate(i, j, x_m, y_m, rot)]. *)
Definition rotate (i j x_m y_m rot : R) : R * R :=
  let x := i [*] np_cos (np_radians rot) [-] j [*] np_sin (np_radians rot)
           [-] x_m [*] np_cos (np_radians rot) [+] y_m [*] np_sin (np_radians rot) in
  let y := j [*] np_cos (np_radians rot) [+] i [*] np_sin (np_radians rot)
           [-] y_m [*] np_cos (np_radians rot) [-] x_m [*] np_sin (np_radians rot) in
  (x, y).

(** [deproject(data, inc)] of [functions.py]. *)
Definition deproject (data : image) (inc : R) : result image :=
  w <- width data ;;
  let h := length data in
  let inc := np_radians inc in
  let new_w := np_int (INR w [/] np_cos inc) in
  if (new_w <? 0)%Z then Raise ValueError else
  let new_data := np_full h (Z.to_nat new_w) 0 in
  for_each (range h) (fun i new_data =>
    for_each (range (Z.to_nat new_w)) (fun j new_data =>
      v <- get2 data (Z.of_nat i) (np_int (INR j [*] np_cos inc)) ;;
      set2 new_data (Z.of_nat i) (Z.of_nat j) v)
    new_data)
  new_data.

(** [np.sqrt], correctly rounded; [None] is the [nan] of a negative
    argument. *)
Definition np_sqrt (q : R) : option R :=
  if Rle_dec 0 q then Some (rnd (sqrt q)) else None.

(** [cut(r, inc, rot, x_m, y_m, val, data)]. *)
Definition cut (r inc rot x_m y_m val : R) (data : image) : result image :=
  w <- width data ;;
  let h := length data in
  for_each (range w) (fun i =>
  for_each (range h) (fun j data =>
    let '(x, y) := rotate (INR i) (INR j) x_m y_m rot in
    let R_ := np_sqrt (np_square (x [/] np_cos (np_radians inc)) [+] np_square y) in
    if nan_lt R_ r then set2 data (Z.of_nat i) (Z.of_nat j) val
    else Ok data))
  data.

(** [np.linspace(start, stop, num)] for [num > 1]: numpy computes the
    samples as [k * step + start] and sets the last one to [stop]. *)
Definition linspace (start stop : R) (num : nat) : list R :=
  let step := (stop [-] start) [/] INR (num - 1) in
  map (fun k => if Nat.eqb (S k) num then stop else INR k [*] step [+] start)
      (seq 0 num).

(** The sampled ellipse [Ell] with [n] parameter values. *)
Definition Ell (r inc : R) (n : nat) : list (R * R) :=
  map (fun t => (r [*] np_cos t, r [*] np_cos (np_radians inc) [*] np_sin t))
      (linspace 0 (2 [*] np_pi) n).

(** [np.dot(R_rot, Ell[:,i])] followed by the truncation to a pixel; the
    result is [(sq_y, sq_x)]. *)
Definition ellipse_pixel (rot x_m y_m : R) (e : R * R) : Z * Z :=
  let Ell_rot_0 :=
    np_dot (np_cos (np_radians rot), - np_sin (np_radians rot)) e in
  let Ell_rot_1 :=
    np_dot (np_sin (np_radians rot), np_cos (np_radians rot)) e in
  let sq_x := (np_int x_m + np_int Ell_rot_0)%Z in
  let sq_y := (np_int y_m + np_int Ell_rot_1)%Z in
  (sq_y, sq_x).

(** [e_mask(r, inc, rot, x_m, y_m, data)]. *)
Definition e_mask (r inc rot x_m y_m : R) (data : image)
  : result (list (list Z)) :=
  w <- width data ;;
  let mask := np_full (length data) w 0%Z in
  '(mask, _) <-
    for_each (Ell r inc (100 * 100)) (fun e '(mask, mask_no) =>
      let '(sq_y, sq_x) := ellipse_pixel rot x_m y_m e in
      let mask_no := S mask_no in
      m <- get2 mask sq_y sq_x ;;
      mask <- set2 mask sq_y sq_x (m + 1)%Z ;;
      Ok (mask, mask_no))
    (mask, O) ;;
  Ok mask.

(** [e_score(r, inc, rot, x_m, y_m, data)]. *)
Definition e_score (r inc rot x_m y_m : R) (data : image) : result R :=
  w <- width data ;;
  let mask := np_full (length data) w 0%Z in
  '(_, score) <-
    for_each (Ell r inc 400) (fun e '(mask_no, score) =>
      let '(sq_y, sq_x) := ellipse_pixel rot x_m y_m e in
      m <- get2 mask sq_y sq_x ;;
      let mask_no := if (m =? 0)%Z then S mask_no else mask_no in
      v <- get2 data sq_y sq_x ;;
      Ok (mask_no, score [+] v))
    (O, 0) ;;
  Ok score.

(** [score_ellipse(r, inc, t_rot, x_m, y_m, data)] of [testplot.py]. *)
Definition score_ellipse (r inc t_rot x_m y_m : R) (data : image) : result R :=
  w <- width data ;;
  let mask := np_full (length data) w false in
  '(_, _, score) <-
    for_each (Ell r inc 400) (fun e '(mask, mask_no, score) =>
      let '(sq_y, sq_x) := ellipse_pixel t_rot x_m y_m e in
      m <- get2 mask sq_y sq_x ;;
      if eqb m false then
        v <- get2 data sq_y sq_x ;;
        mask <- set2 mask sq_y sq_x true ;;
        Ok (mask, S mask_no, score [+] v)
      else Ok (mask, mask_no, score))
    (mask, O, 0) ;;
  Ok score.

(** [a_z(i, j, inc, rot, x_m, y_m)]. *)
Definition a_z (i j inc rot x_m y_m : R) : option R :=
  let '(x, y) := rotate i j x_m y_m rot in
  np_sqrt (np_square x [+] np_square y [/] np_cos (np_radians inc)).

(** [a_score(r, th, inc, rot, x_m, y_m, data)]. *)
Definition a_score (r th inc rot x_m y_m : R) (data : image) : result R :=
  w <- width data ;;
  let mask := np_full (length data) w false in
  let th := if Rlt_dec th 1 then 1 else th in
  '(_, mask_no, score) <-
    for_each (range 282) (fun i =>
    for_each (range 282) (fun j '(mask, mask_no, score) =>
      let z := a_z (INR i) (INR j) inc rot x_m y_m in
      if nan_gt z (r [-] th [/] 2) && nan_lt z (r [+] th [/] 2) then
        m <- get2 mask (Z.of_nat i) (Z.of_nat j) ;;
        if eqb m false then
          v <- get2 data (Z.of_nat i) (Z.of_nat j) ;;
          mask <- set2 mask (Z.of_nat i) (Z.of_nat j) true ;;
          Ok (mask, S mask_no, score [+] v)
        else Ok (mask, mask_no, score)
      else Ok (mask, mask_no, score)))
    (mask, O, 0) ;;
  let mask_no := if Nat.eqb mask_no 0 then 1%nat else mask_no in
  py_div score (INR mask_no).

(** [a_r_score(init, data)]; the literal [0.001] is the float nearest to
    it. *)
Definition a_r_score (init : R * R * R * R * R * R) (data : image) : result R :=
  let '(r, th, inc, rot, x_m, y_m) := init in
  score <- a_score r th inc rot x_m y_m data ;;
  let score := if Req_dec_T score 0 then rnd 0.001 else score in
  py_div 1 score.

(** [a_surf_map(r, th, inc, rot, x_m, y_m, surf, back, data)]; the array
    is [np.full(shape, back)] and takes the type of [back]. *)
Definition a_surf_map (r th inc rot x_m y_m surf : R) (back : scalar)
  (data : image) : result image :=
  w <- width data ;;
  let map_ := np_full (length data) w (scalar_val back) in
  for_each (range (length data)) (fun i =>
  for_each (range w) (fun j map_ =>
    let z := a_z (INR i) (INR j) inc rot x_m y_m in
    if nan_gt z (r [-] th [/] 2) && nan_lt z (r [+] th [/] 2) then
      set2 map_ (Z.of_nat j) (Z.of_nat i) (store_as back surf)
    else Ok map_))
  map_.

(** The quantity [z] of [score_annulus] of [testplot.py]. *)
Definition score_annulus_z (inc t_rot x_m y_m : R) (i j : nat) : R :=
  let i := INR i in
  let j := INR j in
  np_square (i [*] np_cos (np_radians t_rot) [-] j [*] np_sin (np_radians t_rot)
             [-] x_m [*] np_cos (np_radians t_rot) [+] y_m [*] np_sin (np_radians t_rot))
  [+] np_square ((j [*] np_cos (np_radians t_rot) [+] i [*] np_sin (np_radians t_rot)
                [-] y_m [*] np_cos (np_radians t_rot)
                [-] x_m [*] np_sin (np_radians t_rot))
               [/] np_cos (np_radians inc)).

(** [score_annulus(r, th, inc, t_rot, x_m, y_m, data)] of [testplot.py]. *)
Definition score_annulus (g : globals) (r th inc t_rot x_m y_m : R)
  (data : image) : result R :=
  w <- width (qphi g) ;;
  let mask := np_full (length (qphi g)) w false in
  '(_, mask_no, score) <-
    for_each (range 282) (fun i =>
    for_each (range 282) (fun j '(mask, mask_no, score) =>
      let z := score_annulus_z inc t_rot x_m y_m i j in
      if Rltb z (r [-] th [/] 2) && Rltb z (r [+] th [/] 2) then
        m <- get2 mask (Z.of_nat i) (Z.of_nat j) ;;
        if eqb m false then
          v <- get2 (qphi g) (Z.of_nat i) (Z.of_nat j) ;;
          mask <- set2 mask (Z.of_nat i) (Z.of_nat j) true ;;
          Ok (mask, S mask_no, score [+] v)
        else Ok (mask, mask_no, score)
      else Ok (mask, mask_no, score)))
    (mask, O, 0) ;;
  let mask_no := if Nat.eqb mask_no 0 then 1%nat else mask_no in
  py_div score (INR mask_no).

(** Vocabulary of the statements: the tests of the loops, and the pixels
    [score_ellipse] visits. *)
Definition cut_inside (r inc rot x_m y_m : R) (p : nat * nat) : bool :=
  let '(x, y) := rotate (INR (fst p)) (INR (snd p)) x_m y_m rot in
  nan_lt (np_sqrt (np_square (x [/] np_cos (np_radians inc)) [+] np_square y)) r.

Definition a_in_band (r th inc rot x_m y_m : R) (i j : nat) : bool :=
  let z := a_z (INR i) (INR j) inc rot x_m y_m in
  nan_gt z (r [-] th [/] 2) && nan_lt z (r [+] th [/] 2).

Definition score_annulus_test (r th inc t_rot x_m y_m : R) (i j : nat) : bool :=
  let z := score_annulus_z inc t_rot x_m y_m i j in
  Rltb z (r [-] th [/] 2) && Rltb z (r [+] th [/] 2).

Definition visited (r inc t_rot x_m y_m : R) (h w : nat) : list (nat * nat) :=
  first_visits []
    (map (fun e => norm_pixel h w (ellipse_pixel t_rot x_m y_m e))
         (Ell r inc 400)).

End Program.
End Float64.

(** The body shared by the band scorers, with the addition of the
    arithmetic. *)
Definition band_step_with (add : R -> R -> R) (test : nat -> nat -> bool)
  (img : image) (i j : nat) (st : list (list bool) * nat * R)
  : result (list (list bool) * nat * R) :=
  let '(mask, mask_no, score) := st in
  if test i j then
    m <- get2 mask (Z.of_nat i) (Z.of_nat j) ;;
    if eqb m false then
      v <- get2 img (Z.of_nat i) (Z.of_nat j) ;;
      mask <- set2 mask (Z.of_nat i) (Z.of_nat j) true ;;
      Ok (mask, S mask_no, add score v)
    else Ok (mask, mask_no, score)
  else Ok (mask, mask_no, score).

(* ===================================================================== *)
(** ** Theorems                                                            *)
(* ===================================================================== *)

(** C10.  [rotate] returns the rigid counter-clockwise rotation by [rot]
    degrees of the offset from the centre: both components have the closed
    form of a rotation matrix applied to [(i - x_m, j - y_m)], the distance
    from the centre is preserved, and a rotation by 0 degrees returns the
    offset unchanged. *)
Theorem rotate_rigid :
  forall i j x_m y_m rot : R,
    let rho := radians rot in
    rotate i j x_m y_m rot
      = ((i - x_m) * cos rho - (j - y_m) * sin rho,
         (j - y_m) * cos rho + (i - x_m) * sin rho)
    /\ fst (rotate i j x_m y_m rot) ^ 2 + snd (rotate i j x_m y_m rot) ^ 2
       = (i - x_m) ^ 2 + (j - y_m) ^ 2
    /\ rotate i j x_m y_m 0 = (i - x_m, j - y_m).
Proof.
  intros i j x_m y_m rot rho.
  split; [|split].
  - unfold rotate. fold rho. f_equal; ring.
  - unfold rotate. fold rho. cbn [fst snd].
    pose proof (sin2_cos2 rho) as H. unfold Rsqr in H.
    transitivity
      (((i - x_m) ^ 2 + (j - y_m) ^ 2)
       * (sin rho * sin rho + cos rho * cos rho)).
    + ring.
    + rewrite H. ring.
  - unfold rotate, radians. rewrite Rmult_0_l, cos_0, sin_0. f_equal; ring.
Qed.

(* ===================================================================== *)
(** ** Basic facts on the primitives                                       *)
(* ===================================================================== *)

Lemma INR_nat_literal (n : nat) : INR n = IZR (Z.of_nat n).
Proof. apply INR_IZR_INZ. Qed.

Lemma np_int_0 : np_int 0 = 0%Z.
Proof.
  unfold np_int. destruct (Rle_dec 0 0) as [_ | H].
  - apply (ZfloorZ 0).
  - exfalso. apply H. lra.
Qed.

Lemma np_int_IZR (k : Z) : np_int (IZR k) = k.
Proof.
  unfold np_int. destruct (Rle_dec 0 (IZR k)) as [_ | _].
  - apply ZfloorZ.
  - rewrite ZfloorNZ. lia.
Qed.

Lemma np_int_INR (n : nat) : np_int (INR n) = Z.of_nat n.
Proof. rewrite INR_IZR_INZ. apply np_int_IZR. Qed.

Lemma np_index_nat (n p : nat) :
  (p < n)%nat -> np_index n (Z.of_nat p) = Ok p.
Proof.
  intros H. unfold np_index.
  destruct (Z.leb_spec 0 (Z.of_nat p)); [| lia].
  destruct (Z.ltb_spec (Z.of_nat p) (Z.of_nat n)); [| lia].
  now rewrite Nat2Z.id.
Qed.

Lemma np_index_nat_out (n p : nat) :
  (n <= p)%nat -> np_index n (Z.of_nat p) = Raise IndexError.
Proof.
  intros H. unfold np_index.
  destruct (Z.leb_spec 0 (Z.of_nat p)); [| lia].
  destruct (Z.ltb_spec (Z.of_nat p) (Z.of_nat n)); [lia | reflexivity].
Qed.

Lemma np_index_bound (n : nat) (k : Z) (p : nat) :
  np_index n k = Ok p -> (p < n)%nat.
Proof.
  unfold np_index.
  destruct (Z.leb_spec 0 k).
  - destruct (Z.ltb_spec k (Z.of_nat n)); [| discriminate].
    intros E. injection E as <-. lia.
  - destruct (Z.leb_spec (- Z.of_nat n) k); [| discriminate].
    intros E. injection E as <-. lia.
Qed.

Lemma get1_nat {A : Type} (a : list A) (p : nat) (v : A) :
  nth_error a p = Some v -> get1 a (Z.of_nat p) = Ok v.
Proof.
  intros H. unfold get1.
  rewrite np_index_nat.
  - cbn. now rewrite H.
  - apply nth_error_Some. congruence.
Qed.

Lemma get2_nat {A : Type} (a : list (list A)) (i j : nat) (row : list A) (v : A) :
  nth_error a i = Some row -> nth_error row j = Some v ->
  get2 a (Z.of_nat i) (Z.of_nat j) = Ok v.
Proof.
  intros Hi Hj. unfold get2.
  rewrite (get1_nat _ _ Hi). cbn. now apply get1_nat.
Qed.

Lemma nth_error_repeat {A : Type} (v : A) (n p : nat) :
  (p < n)%nat -> nth_error (repeat v n) p = Some v.
Proof.
  revert p. induction n as [| n IH]; intros p H; [lia |].
  destruct p as [| p]; cbn; [reflexivity | apply IH; lia].
Qed.

Lemma get2_np_full {A : Type} (h w : nat) (v : A) (i j : nat) :
  (i < h)%nat -> (j < w)%nat ->
  get2 (np_full h w v) (Z.of_nat i) (Z.of_nat j) = Ok v.
Proof.
  intros Hi Hj. unfold np_full.
  apply get2_nat with (row := repeat v w); now apply nth_error_repeat.
Qed.

Lemma length_list_set {A : Type} (l : list A) (p : nat) (v : A) :
  length (list_set l p v) = length l.
Proof.
  revert p. induction l as [| h t IH]; intros [| p]; cbn; auto.
Qed.

Lemma nth_error_list_set_eq {A : Type} (l : list A) (p : nat) (v : A) :
  (p < length l)%nat -> nth_error (list_set l p v) p = Some v.
Proof.
  revert p. induction l as [| h t IH]; intros [| p] H; cbn in *;
    try lia; auto. apply IH. lia.
Qed.

Lemma nth_error_list_set_neq {A : Type} (l : list A) (p q : nat) (v : A) :
  p <> q -> nth_error (list_set l p v) q = nth_error l q.
Proof.
  revert p q. induction l as [| h t IH]; intros [| p] [| q] H; cbn;
    try reflexivity; try congruence.
  apply IH. congruence.
Qed.

Lemma set2_nat {A : Type} (a : list (list A)) (i j : nat) (row : list A) (v : A) :
  nth_error a i = Some row -> (j < length row)%nat ->
  set2 a (Z.of_nat i) (Z.of_nat j) v = Ok (list_set a i (list_set row j v)).
Proof.
  intros Hi Hj. unfold set2.
  rewrite np_index_nat by (apply nth_error_Some; congruence).
  cbn. rewrite Hi. rewrite np_index_nat by assumption. reflexivity.
Qed.

Lemma py_div_ok (a b : R) : b <> 0 -> py_div a b = Ok (a / b).
Proof.
  intros H. unfold py_div. destruct (Req_dec_T b 0); [contradiction | reflexivity].
Qed.

Lemma py_div_zero (a : R) : py_div a 0 = Raise ZeroDivisionError.
Proof.
  unfold py_div. destruct (Req_dec_T 0 0); [reflexivity | congruence].
Qed.

Lemma Rltb_true (a b : R) : a < b -> Rltb a b = true.
Proof. intros H. unfold Rltb. destruct (Rlt_dec a b); [reflexivity | contradiction]. Qed.

Lemma Rltb_false (a b : R) : b <= a -> Rltb a b = false.
Proof. intros H. unfold Rltb. destruct (Rlt_dec a b); [lra | reflexivity]. Qed.

Lemma for_each_app {X S : Type} (xs ys : list X) (body : X -> S -> result S) (s : S) :
  for_each (xs ++ ys) body s = (s' <- for_each xs body s ;; for_each ys body s').
Proof.
  revert s. induction xs as [| x xs IH]; intros s; cbn; [reflexivity |].
  destruct (body x s); cbn; auto.
Qed.

(** A loop whose body leaves the state alone on every element. *)
Lemma for_each_skip {X S : Type} (xs : list X) (body : X -> S -> result S) (s : S) :
  (forall x, In x xs -> body x s = Ok s) -> for_each xs body s = Ok s.
Proof.
  induction xs as [| x xs IH]; intros H; cbn; [reflexivity |].
  rewrite H by (left; reflexivity). cbn. apply IH.
  intros y Hy. apply H. now right.
Qed.

(* ===================================================================== *)
(** ** The ellipse scorers                                                 *)
(* ===================================================================== *)

Lemma length_Ell (r inc : R) (n : nat) : length (Ell r inc n) = n.
Proof. unfold Ell, linspace. now rewrite !length_map, length_seq. Qed.

(** With radius 0 every sample of the ellipse falls on the centre pixel. *)
Lemma ellipse_pixel_radius_0 (inc rot x_m y_m : R) (n : nat) (e : R * R) :
  In e (Ell 0 inc n) -> ellipse_pixel rot x_m y_m e = (np_int y_m, np_int x_m).
Proof.
  unfold Ell. intros H. apply in_map_iff in H as (t & <- & _).
  unfold ellipse_pixel. cbn [fst snd].
  replace (cos (radians rot) * (0 * cos t)
           + - sin (radians rot) * (0 * cos (radians inc) * sin t)) with 0 by ring.
  replace (sin (radians rot) * (0 * cos t)
           + cos (radians rot) * (0 * cos (radians inc) * sin t)) with 0 by ring.
  rewrite np_int_0. f_equal; lia.
Qed.

(** The loop of [e_score] on samples that all hit one readable pixel [p]:
    every sample adds the intensity of [p] again. *)
Lemma e_score_loop_one_pixel
  (rot x_m y_m : R) (mask : list (list Z)) (data : image)
  (p : Z * Z) (v : R) (l : list (R * R)) :
  (forall e, In e l -> ellipse_pixel rot x_m y_m e = p) ->
  get2 mask (fst p) (snd p) = Ok 0%Z ->
  get2 data (fst p) (snd p) = Ok v ->
  forall (n : nat) (s : R),
    for_each l (fun e '(mask_no, score) =>
      let '(sq_y, sq_x) := ellipse_pixel rot x_m y_m e in
      m <- get2 mask sq_y sq_x ;;
      let mask_no := if (m =? 0)%Z then S mask_no else mask_no in
      v <- get2 data sq_y sq_x ;;
      Ok (mask_no, score + v)) (n, s)
    = Ok ((n + length l)%nat, s + INR (length l) * v).
Proof.
  intros Hp Hm Hd. induction l as [| e l IH]; intros n s.
  - cbn. f_equal. f_equal; [lia | ring].
  - cbn [for_each]. rewrite (Hp e) by (left; reflexivity).
    destruct p as [sq_y sq_x]. cbn [fst snd] in *.
    rewrite Hm. cbn [bind]. rewrite Hd. cbn [bind Z.eqb].
    rewrite IH by (intros; apply Hp; now right).
    f_equal. f_equal; [cbn; lia |].
    change (length (e :: l)) with (S (length l)). rewrite S_INR. ring.
Qed.

(** The loop of [score_ellipse] on samples that all hit one pixel [p]
    already marked in the mask: nothing is added. *)
Lemma score_ellipse_loop_seen
  (t_rot x_m y_m : R) (data : image) (p : Z * Z) (l : list (R * R))
  (mask : list (list bool)) (n : nat) (s : R) :
  (forall e, In e l -> ellipse_pixel t_rot x_m y_m e = p) ->
  get2 mask (fst p) (snd p) = Ok true ->
  for_each l (fun e '(mask, mask_no, score) =>
      let '(sq_y, sq_x) := ellipse_pixel t_rot x_m y_m e in
      m <- get2 mask sq_y sq_x ;;
      if eqb m false then
        v <- get2 data sq_y sq_x ;;
        mask <- set2 mask sq_y sq_x true ;;
        Ok (mask, S mask_no, score + v)
      else Ok (mask, mask_no, score)) (mask, n, s)
  = Ok (mask, n, s).
Proof.
  intros Hp Hm. apply for_each_skip. intros e He.
  rewrite (Hp e He). destruct p as [sq_y sq_x]. cbn [fst snd] in *.
  rewrite Hm. reflexivity.
Qed.

(** C1.  [e_score] adds the intensity of a pixel once per sample that lands
    on it: with radius 0 all 400 samples land on the centre pixel (1,1) of
    the image below, whose intensity is 1; [e_score] returns 400, whereas
    [score_ellipse], which marks the pixel in its mask, returns 1. *)
Theorem e_score_counts_pixel_per_sample :
  let data : image := [[0; 0]; [0; 1]] in
  (forall e, In e (Ell 0 0 400) -> ellipse_pixel 0 1 1 e = (1, 1)%Z)
  /\ e_score 0 0 0 1 1 data = Ok 400
  /\ Testplot.score_ellipse 0 0 0 1 1 data = Ok 1.
Proof.
  intros data.
  assert (Hpix : forall e, In e (Ell 0 0 400) -> ellipse_pixel 0 1 1 e = (1, 1)%Z).
  { intros e He. rewrite (ellipse_pixel_radius_0 _ _ _ _ _ _ He).
    now rewrite (np_int_IZR 1). }
  split; [exact Hpix | split].
  - unfold e_score.
    change (width data) with (Ok (A := nat) 2%nat). cbn [bind].
    change (np_full (length data) 2 0%Z) with [[0; 0]; [0; 0]]%Z.
    rewrite e_score_loop_one_pixel with (p := (1, 1)%Z) (v := 1);
      [| exact Hpix | reflexivity | reflexivity].
    cbn [bind]. rewrite length_Ell, INR_nat_literal.
    change (Z.of_nat 400) with 400%Z. f_equal. ring.
  - unfold Testplot.score_ellipse.
    change (width data) with (Ok (A := nat) 2%nat). cbn [bind].
    change (np_full (length data) 2 false) with [[false; false]; [false; false]].
    pose proof (length_Ell 0 0 400) as Hlen.
    destruct (Ell 0 0 400) as [| e l]; [discriminate Hlen |].
    cbn [for_each]. rewrite (Hpix e) by (left; reflexivity).
    change (get2 [[false; false]; [false; false]] 1 1) with (Ok false).
    cbn [bind eqb].
    change (get2 data 1 1) with (Ok 1). cbn [bind].
    change (set2 [[false; false]; [false; false]] 1 1 true)
      with (Ok [[false; false]; [false; true]]).
    cbn [bind].
    rewrite score_ellipse_loop_seen with (p := (1, 1)%Z).
    + cbn [bind]. f_equal. ring.
    + intros e' He'. apply Hpix. now right.
    + reflexivity.
Qed.

(* ===================================================================== *)
(** ** Reciprocal scores                                                   *)
(* ===================================================================== *)

(** [a_r_score] replaces a zero score before the division: whenever
    [a_score] returns, so does [a_r_score]. *)
Lemma a_r_score_guarded (init : R * R * R * R * R * R) (data : image) (s : R) :
  (let '(r, th, inc, rot, x_m, y_m) := init in
   a_score r th inc rot x_m y_m data) = Ok s ->
  a_r_score init data = Ok (1 / (if Req_dec_T s 0 then 0.001 else s)).
Proof.
  destruct init as [[[[[r th] inc] rot] x_m] y_m]. intros H.
  unfold a_r_score. rewrite H. cbn [bind].
  apply py_div_ok. destruct (Req_dec_T s 0); [lra | assumption].
Qed.

(** C4.  [e_r_score] takes the reciprocal of the raw score without any
    substitution: on an image of zeros the score is 0 and the division
    [1 / score] has a zero divisor. *)
Theorem e_r_score_zero_divisor :
  let data : image := [[0; 0]; [0; 0]] in
  e_score 0 0 0 1 1 data = Ok 0
  /\ e_r_score (0, 0, 0, 1, 1) data = Raise ZeroDivisionError.
Proof.
  intros data.
  assert (Hs : e_score 0 0 0 1 1 data = Ok 0).
  { unfold e_score.
    change (width data) with (Ok (A := nat) 2%nat). cbn [bind].
    change (np_full (length data) 2 0%Z) with [[0; 0]; [0; 0]]%Z.
    rewrite e_score_loop_one_pixel with (p := (1, 1)%Z) (v := 0).
    - cbn [bind]. f_equal. ring.
    - intros e He. rewrite (ellipse_pixel_radius_0 _ _ _ _ _ _ He).
      now rewrite (np_int_IZR 1).
    - reflexivity.
    - reflexivity. }
  split; [exact Hs |].
  unfold e_r_score. rewrite Hs. cbn [bind]. apply py_div_zero.
Qed.

(* ===================================================================== *)
(** ** The band scorers                                                    *)
(* ===================================================================== *)

Lemma for_each_map {X Y S : Type} (f : X -> Y) (xs : list X)
  (body : Y -> S -> result S) (s : S) :
  for_each (map f xs) body s = for_each xs (fun x => body (f x)) s.
Proof.
  revert s. induction xs as [| x xs IH]; intros s; cbn; [reflexivity |].
  destruct (body (f x) s); cbn; auto.
Qed.

(** Two nested loops scan the product of their ranges in row-major order. *)
Lemma for_each_nested {X Y S : Type} (xs : list X) (ys : list Y)
  (body : X -> Y -> S -> result S) (s : S) :
  for_each xs (fun x => for_each ys (body x)) s
  = for_each (list_prod xs ys) (fun p => body (fst p) (snd p)) s.
Proof.
  revert s. induction xs as [| x xs IH]; intros s; cbn [for_each list_prod];
    [reflexivity |].
  rewrite for_each_app, for_each_map. cbn [fst snd].
  destruct (for_each ys (body x) s); cbn [bind]; auto.
Qed.

Lemma a_score_unfold (r th inc rot x_m y_m : R) (data : image) :
  a_score r th inc rot x_m y_m data
  = (w <- width data ;;
     '(_, mask_no, score) <-
       for_each (grid 282 282)
         (fun p => band_step (a_in_band r (clamp_th th) inc rot x_m y_m) data
                     (fst p) (snd p))
         (np_full (length data) w false, O, 0) ;;
     py_div score (INR (if Nat.eqb mask_no 0 then 1%nat else mask_no))).
Proof.
  unfold a_score, grid. destruct (width data) as [w |]; cbn [bind]; [| reflexivity].
  rewrite <- for_each_nested. reflexivity.
Qed.

Lemma score_annulus_unfold (g : globals) (r th inc t_rot x_m y_m : R) (data : image) :
  Testplot.score_annulus g r th inc t_rot x_m y_m data
  = (w <- width (qphi g) ;;
     '(_, mask_no, score) <-
       for_each (grid 282 282)
         (fun p => band_step (score_annulus_test r th inc t_rot x_m y_m) (qphi g)
                     (fst p) (snd p))
         (np_full (length (qphi g)) w false, O, 0) ;;
     py_div score (INR (if Nat.eqb mask_no 0 then 1%nat else mask_no))).
Proof.
  unfold Testplot.score_annulus, grid.
  destruct (width (qphi g)) as [w |]; cbn [bind]; [| reflexivity].
  rewrite <- for_each_nested. reflexivity.
Qed.

Lemma rect_row {A : Type} (h w : nat) (a : list (list A)) (i : nat) :
  rect h w a -> (i < h)%nat ->
  exists row, nth_error a i = Some row /\ length row = w.
Proof.
  intros [Hh Hw] Hi.
  destruct (nth_error a i) as [row |] eqn:E.
  - exists row. split; [reflexivity |].
    rewrite Forall_forall in Hw. apply Hw. eapply nth_error_In; eauto.
  - apply nth_error_None in E. lia.
Qed.

Lemma rect_get2 (h w : nat) (img : image) (i j : nat) :
  rect h w img -> (i < h)%nat -> (j < w)%nat ->
  get2 img (Z.of_nat i) (Z.of_nat j) = Ok (px img (i, j)).
Proof.
  intros Hr Hi Hj. destruct (rect_row Hr Hi) as (row & Hrow & Hlen).
  destruct (nth_error row j) as [v |] eqn:E.
  - rewrite (get2_nat _ _ _ Hrow E). unfold px. cbn [fst snd].
    rewrite (nth_error_nth _ _ _ Hrow). now rewrite (nth_error_nth _ _ _ E).
  - apply nth_error_None in E. lia.
Qed.

Lemma rect_np_full {A : Type} (h w : nat) (v : A) : rect h w (np_full h w v).
Proof.
  unfold rect, np_full. split; [apply repeat_length |].
  apply Forall_forall. intros row Hrow.
  apply repeat_spec in Hrow. subst. apply repeat_length.
Qed.

(** Writing one in-range cell of a rectangular array succeeds, keeps the
    shape and changes no other cell. *)
Lemma rect_set2 {A : Type} (h w : nat) (a : list (list A)) (i j : nat) (v : A) :
  rect h w a -> (i < h)%nat -> (j < w)%nat ->
  exists a',
    set2 a (Z.of_nat i) (Z.of_nat j) v = Ok a'
    /\ rect h w a'
    /\ forall i' j', (i', j') <> (i, j) ->
         get2 a' (Z.of_nat i') (Z.of_nat j') = get2 a (Z.of_nat i') (Z.of_nat j').
Proof.
  intros Hr Hi Hj. destruct (rect_row Hr Hi) as (row & Hrow & Hlen).
  exists (list_set a i (list_set row j v)).
  split; [apply set2_nat; [assumption | lia] | split].
  - destruct Hr as [Hh Hw]. split.
    + now rewrite length_list_set.
    + apply Forall_forall. intros row' Hin.
      apply In_nth_error in Hin as [k Hk].
      destruct (Nat.eq_dec i k) as [-> | Hne].
      * rewrite nth_error_list_set_eq in Hk by lia.
        injection Hk as <-. now rewrite length_list_set.
      * rewrite nth_error_list_set_neq in Hk by assumption.
        rewrite Forall_forall in Hw. apply Hw. eapply nth_error_In; eauto.
  - intros i' j' Hne. unfold get2, get1.
    rewrite length_list_set.
    destruct (np_index (length a) (Z.of_nat i')) as [pi |] eqn:Ei; cbn [bind];
      [| reflexivity].
    assert (pi = i').
    { unfold np_index in Ei.
      destruct (Z.leb_spec 0 (Z.of_nat i')); [| lia].
      destruct (Z.ltb_spec (Z.of_nat i') (Z.of_nat (length a))); [| discriminate].
      injection Ei as <-. apply Nat2Z.id. }
    subst pi.
    destruct (Nat.eq_dec i i') as [<- | Hi'].
    + rewrite nth_error_list_set_eq by (destruct Hr; lia).
      rewrite Hrow. cbn [bind]. rewrite length_list_set.
      destruct (np_index (length row) (Z.of_nat j')) as [pj |] eqn:Ej; cbn [bind];
        [| reflexivity].
      assert (pj = j').
      { unfold np_index in Ej.
        destruct (Z.leb_spec 0 (Z.of_nat j')); [| lia].
        destruct (Z.ltb_spec (Z.of_nat j') (Z.of_nat (length row)));
          [| discriminate].
        injection Ej as <-. apply Nat2Z.id. }
      subst pj. rewrite nth_error_list_set_neq; [reflexivity | congruence].
    + rewrite nth_error_list_set_neq by assumption. reflexivity.
Qed.

Section BandScan.

Variable test : nat -> nat -> bool.
Variable img : image.
Variables h w : nat.
Hypothesis img_rect : rect h w img.

Let t (p : nat * nat) : bool := test (fst p) (snd p).
Let step (p : nat * nat) := band_step test img (fst p) (snd p).

(** The scan of a duplicate-free list of pixels whose in-band members lie
    inside the image and are not yet marked: every in-band pixel is
    counted once and its intensity added once. *)
Lemma band_scan_spec (l : list (nat * nat)) :
  NoDup l ->
  (forall p, In p l -> t p = true -> (fst p < h)%nat /\ (snd p < w)%nat) ->
  forall (mask : list (list bool)) (n : nat) (s : R),
    rect h w mask ->
    (forall p, In p l -> t p = true ->
       get2 mask (Z.of_nat (fst p)) (Z.of_nat (snd p)) = Ok false) ->
    exists mask',
      for_each l step (mask, n, s)
      = Ok (mask', (n + length (filter t l))%nat,
            s + sum_list (map (px img) (filter t l))).
Proof.
  induction l as [| p l IH]; intros Hnd Hin mask n s Hm Hfalse.
  - exists mask. cbn. f_equal. f_equal; [f_equal; lia | ring].
  - inversion Hnd as [| ? ? Hnotin Hnd']; subst.
    cbn [for_each filter]. unfold step at 1. unfold band_step.
    fold (t p). destruct (t p) eqn:Et.
    + destruct (Hin p (or_introl eq_refl) Et) as [Hi Hj].
      rewrite (Hfalse p (or_introl eq_refl) Et). cbn [bind eqb].
      destruct p as [i j]. cbn [fst snd] in *.
      rewrite (rect_get2 img_rect Hi Hj). cbn [bind].
      destruct (rect_set2 true Hm Hi Hj) as (mask2 & Hset & Hm2 & Hother).
      rewrite Hset. cbn [bind].
      destruct (IH Hnd' (fun q Hq => Hin q (or_intror Hq)) mask2 (S n)
                  (s + px img (i, j)) Hm2) as (mask' & Hrun).
      { intros q Hq Hqt. rewrite Hother.
        - apply Hfalse; [now right | assumption].
        - intros E. apply Hnotin. destruct q. cbn [fst snd] in E.
          now rewrite <- E. }
      exists mask'. fold step. rewrite Hrun. cbn [length map sum_list fold_right].
      f_equal. f_equal; [f_equal; lia | unfold sum_list; ring].
    + cbn [bind].
      destruct (IH Hnd' (fun q Hq => Hin q (or_intror Hq)) mask n s Hm)
        as (mask' & Hrun).
      { intros q Hq Hqt. apply Hfalse; [now right | assumption]. }
      exists mask'. exact Hrun.
Qed.

End BandScan.

Lemma NoDup_list_prod {A B : Type} (xs : list A) (ys : list B) :
  NoDup xs -> NoDup ys -> NoDup (list_prod xs ys).
Proof.
  intros Hx Hy. induction Hx as [| x xs Hnotin Hx IH]; cbn [list_prod].
  - constructor.
  - apply NoDup_app.
    + apply NoDup_map_NoDup_ForallPairs; [| assumption].
      intros y1 y2 _ _ E. now injection E.
    + exact IH.
    + intros [a b] H1 H2. apply in_map_iff in H1 as (y & E & _).
      injection E as <- <-. apply in_prod_iff in H2 as [H2 _]. contradiction.
Qed.

Lemma NoDup_grid (n m : nat) : NoDup (grid n m).
Proof. apply NoDup_list_prod; apply seq_NoDup. Qed.

Lemma in_grid (n m : nat) (p : nat * nat) :
  In p (grid n m) <-> (fst p < n)%nat /\ (snd p < m)%nat.
Proof.
  destruct p as [i j]. unfold grid, range. rewrite in_prod_iff, !in_seq.
  cbn [fst snd]. lia.
Qed.

Lemma rect_width {A : Type} (h w : nat) (a : list (list A)) :
  rect h w a -> (0 < h)%nat -> width a = Ok w.
Proof.
  intros Hr Hh. destruct (rect_row Hr Hh) as (row & Hrow & Hlen).
  unfold width. change 0%Z with (Z.of_nat 0).
  rewrite (get1_nat a 0 Hrow). cbn [bind]. now rewrite Hlen.
Qed.

Lemma INR_count_nonzero (n : nat) :
  INR (if Nat.eqb n 0 then 1%nat else n) <> 0.
Proof.
  destruct n as [| n]; cbn [Nat.eqb].
  - cbn. lra.
  - apply not_0_INR. discriminate.
Qed.

(** What [a_score] computes on a rectangular image that contains every
    scanned pixel of the band: the mean intensity over the pixels of the
    282 x 282 grid that pass the test with the clamped thickness. *)
Lemma a_score_mean (r th inc rot x_m y_m : R) (data : image) (h w : nat) :
  rect h w data -> (0 < h)%nat ->
  let band :=
    filter (fun p => a_in_band r (clamp_th th) inc rot x_m y_m (fst p) (snd p))
           (grid 282 282) in
  (forall p, In p band -> (fst p < h)%nat /\ (snd p < w)%nat) ->
  a_score r th inc rot x_m y_m data
  = Ok (sum_list (map (px data) band)
        / INR (if Nat.eqb (length band) 0 then 1%nat else length band)).
Proof.
  intros Hr Hh band Hin.
  rewrite a_score_unfold, (rect_width Hr Hh). cbn [bind].
  destruct (band_scan_spec (a_in_band r (clamp_th th) inc rot x_m y_m) Hr
              (NoDup_grid 282 282)) with
    (mask := np_full (length data) w false) (n := O) (s := 0)
    as (mask' & Hrun).
  - intros p Hp Ht. apply Hin. apply filter_In. now split.
  - destruct Hr as [-> _]. apply rect_np_full.
  - intros p Hp Ht. destruct Hr as [-> _].
    apply get2_np_full; apply Hin; apply filter_In; now split.
  - rewrite Hrun. cbn [bind]. fold band. rewrite Nat.add_0_l, Rplus_0_l.
    apply py_div_ok, INR_count_nonzero.
Qed.

(** When no scanned pixel passes the test, the scan touches neither mask
    nor image. *)
Lemma band_scan_empty (test : nat -> nat -> bool) (img : image)
  (l : list (nat * nat)) (st : list (list bool) * nat * R) :
  (forall p, In p l -> test (fst p) (snd p) = false) ->
  for_each l (fun p => band_step test img (fst p) (snd p)) st = Ok st.
Proof.
  intros H. apply for_each_skip. intros p Hp.
  unfold band_step. destruct st as [[mask n] s]. now rewrite (H p Hp).
Qed.

(* ===================================================================== *)
(** ** Axis-aligned models centred on pixel (0,0)                           *)
(* ===================================================================== *)

Lemma radians_0 : radians 0 = 0.
Proof. unfold radians. ring. Qed.

Lemma rotate_origin_0 (i j : R) : rotate i j 0 0 0 = (i, j).
Proof.
  unfold rotate. rewrite radians_0, cos_0, sin_0. f_equal; ring.
Qed.

Lemma a_z_axis (i j : nat) :
  a_z (INR i) (INR j) 0 0 0 0 = Some (sqrt (INR i ^ 2 + INR j ^ 2)).
Proof.
  unfold a_z. rewrite rotate_origin_0, radians_0, cos_0.
  unfold np_sqrt.
  replace (INR i ^ 2 + INR j ^ 2 / 1) with (INR i ^ 2 + INR j ^ 2) by field.
  destruct (Rle_dec 0 (INR i ^ 2 + INR j ^ 2)) as [_ | H]; [reflexivity |].
  exfalso. apply H. pose proof (pow2_ge_0 (INR i)). pose proof (pow2_ge_0 (INR j)).
  lra.
Qed.

Lemma INR_ge_1 (n : nat) : n <> O -> 1 <= INR n.
Proof.
  intros H. change 1 with (INR 1). apply le_INR. lia.
Qed.

(** Away from pixel (0,0) the squared distance of a grid pixel to the
    origin is at least 1. *)
Lemma off_origin_sq (i j : nat) :
  (i, j) <> (O, O) -> 1 <= INR i ^ 2 + INR j ^ 2.
Proof.
  intros H. pose proof (pos_INR i). pose proof (pos_INR j).
  destruct i as [| i].
  - destruct j as [| j]; [congruence |].
    pose proof (INR_ge_1 (n := S j) ltac:(discriminate)). cbn [INR] in *. nra.
  - pose proof (INR_ge_1 (n := S i) ltac:(discriminate)). nra.
Qed.

Lemma a_z_axis_origin : a_z (INR 0) (INR 0) 0 0 0 0 = Some 0.
Proof.
  rewrite a_z_axis. cbn [INR]. f_equal.
  replace (0 ^ 2 + 0 ^ 2) with 0 by ring. apply sqrt_0.
Qed.

Lemma a_z_axis_off_origin (i j : nat) :
  (i, j) <> (O, O) ->
  exists v, a_z (INR i) (INR j) 0 0 0 0 = Some v /\ 1 <= v.
Proof.
  intros H. rewrite a_z_axis. eexists. split; [reflexivity |].
  rewrite <- sqrt_1. apply sqrt_le_1_alt. now apply off_origin_sq.
Qed.

Lemma cos_radians_1_bounds : 0 < cos (radians 1) <= 1.
Proof.
  split; [| apply COS_bound].
  apply cos_gt_0; unfold radians; pose proof PI_RGT_0; lra.
Qed.

(** The quantity [z] of [score_annulus] for an unrotated model centred on
    pixel (0,0). *)
Lemma score_annulus_z_axis (inc : R) (i j : nat) :
  Testplot.score_annulus_z inc 0 0 0 i j
  = INR i ^ 2 + (INR j / cos (radians inc)) ^ 2.
Proof.
  unfold Testplot.score_annulus_z. rewrite radians_0, cos_0, sin_0.
  f_equal; f_equal; [ring | f_equal; ring].
Qed.

Lemma score_annulus_z_origin (inc : R) :
  Testplot.score_annulus_z inc 0 0 0 0 0 = 0.
Proof.
  rewrite score_annulus_z_axis. cbn [INR]. unfold Rdiv. ring.
Qed.

Lemma score_annulus_z_off_origin (inc : R) (i j : nat) :
  0 < cos (radians inc) <= 1 -> (i, j) <> (O, O) ->
  1 <= Testplot.score_annulus_z inc 0 0 0 i j.
Proof.
  intros [Hc0 Hc1] H. rewrite score_annulus_z_axis.
  pose proof (off_origin_sq H) as Hsq.
  assert (Hj : INR j ^ 2 <= (INR j / cos (radians inc)) ^ 2).
  { pose proof (pos_INR j) as Hpos.
    assert (INR j <= INR j / cos (radians inc)).
    { apply Rmult_le_reg_r with (r := cos (radians inc)); [assumption |].
      unfold Rdiv. rewrite Rmult_assoc, Rinv_l by lra. nra. }
    nra. }
  lra.
Qed.

Lemma filter_all_false {A : Type} (f : A -> bool) (l : list A) :
  (forall x, In x l -> f x = false) -> filter f l = [].
Proof.
  induction l as [| x l IH]; intros H; cbn [filter]; [reflexivity |].
  rewrite H by now left. apply IH. intros y Hy. apply H. now right.
Qed.

(** When only pixel (0,0) passes a test, filtering the grid leaves it
    alone. *)
Lemma filter_grid_origin (f : nat * nat -> bool) (n m : nat) :
  f (O, O) = true ->
  (forall p, In p (grid (S n) (S m)) -> p <> (O, O) -> f p = false) ->
  filter f (grid (S n) (S m)) = [(O, O)].
Proof.
  intros H0 Hrest.
  pose proof (NoDup_grid (S n) (S m)) as Hnd.
  assert (Hg : exists rest, grid (S n) (S m) = (O, O) :: rest).
  { eexists. unfold grid, range. cbn [seq list_prod map app]. reflexivity. }
  destruct Hg as (rest & Hg). rewrite Hg in *.
  cbn [filter]. rewrite H0. f_equal.
  inversion Hnd as [| ? ? Hnotin _]; subst.
  apply filter_all_false. intros p Hp. apply Hrest; [now right |].
  intros ->. contradiction.
Qed.

Lemma rect_spot (v : R) : rect 282 282 (spot v).
Proof.
  unfold rect, spot. split.
  - cbn [length]. now rewrite repeat_length.
  - constructor.
    + cbn [length]. now rewrite repeat_length.
    + apply Forall_forall. intros row Hrow.
      apply repeat_spec in Hrow. subst. apply repeat_length.
Qed.

Lemma px_spot_origin (v : R) : px (spot v) (O, O) = v.
Proof. reflexivity. Qed.

Lemma nth_repeat_same {A : Type} (v : A) (n k : nat) : nth k (repeat v n) v = v.
Proof.
  revert k. induction n as [| n IH]; intros [| k]; cbn; auto.
Qed.

Lemma px_spot_off_origin (v : R) (p : nat * nat) :
  p <> (O, O) -> px (spot v) p = 0.
Proof.
  destruct p as [i j]. intros H. unfold px, spot. cbn [fst snd].
  destruct i as [| i].
  - destruct j as [| j]; [congruence |]. cbn [nth]. apply nth_repeat_same.
  - cbn [nth].
    destruct (Nat.lt_ge_cases i 281) as [Hi | Hi].
    + rewrite nth_indep with (d' := repeat 0 282).
      * rewrite nth_repeat_same. apply nth_repeat_same.
      * rewrite repeat_length. exact Hi.
    + rewrite (nth_overflow (repeat (repeat 0 282) 281) []).
      * now destruct j.
      * rewrite repeat_length. exact Hi.
Qed.

(** What [score_annulus] computes when the module-level [qphi] is a
    rectangular array containing every scanned pixel that passes its test:
    the mean of [qphi] over those pixels, whatever [data] is. *)
Lemma score_annulus_mean (g : globals) (r th inc t_rot x_m y_m : R)
  (data : image) (h w : nat) :
  rect h w (qphi g) -> (0 < h)%nat ->
  let band :=
    filter (fun p => score_annulus_test r th inc t_rot x_m y_m (fst p) (snd p))
           (grid 282 282) in
  (forall p, In p band -> (fst p < h)%nat /\ (snd p < w)%nat) ->
  Testplot.score_annulus g r th inc t_rot x_m y_m data
  = Ok (sum_list (map (px (qphi g)) band)
        / INR (if Nat.eqb (length band) 0 then 1%nat else length band)).
Proof.
  intros Hr Hh band Hin.
  rewrite score_annulus_unfold, (rect_width Hr Hh). cbn [bind].
  destruct (band_scan_spec (score_annulus_test r th inc t_rot x_m y_m) Hr
              (NoDup_grid 282 282)) with
    (mask := np_full (length (qphi g)) w false) (n := O) (s := 0)
    as (mask' & Hrun).
  - intros p Hp Ht. apply Hin. apply filter_In. now split.
  - destruct Hr as [-> _]. apply rect_np_full.
  - intros p Hp Ht. destruct Hr as [-> _].
    apply get2_np_full; apply Hin; apply filter_In; now split.
  - rewrite Hrun. cbn [bind]. fold band. rewrite Nat.add_0_l, Rplus_0_l.
    apply py_div_ok, INR_count_nonzero.
Qed.

(** [score_annulus] for an unrotated model centred on pixel (0,0) whose
    inner bound [r - th/2] lies in (0, 1]: the only pixel taken is (0,0),
    where [z = 0], and the score is the value of [qphi] there. *)
Lemma score_annulus_inner_pixel (g : globals) (r th inc : R) (data : image)
  (h w : nat) :
  rect h w (qphi g) -> (0 < h)%nat -> (0 < w)%nat ->
  0 < cos (radians inc) <= 1 ->
  0 < r - th / 2 <= 1 -> 0 < r + th / 2 ->
  Testplot.score_annulus g r th inc 0 0 0 data = Ok (px (qphi g) (O, O)).
Proof.
  intros Hr Hh Hw Hc Hlo Hhi.
  rewrite (score_annulus_mean g r th inc 0 0 0 data Hr Hh);
    rewrite filter_grid_origin.
  - cbn [map sum_list fold_right length Nat.eqb INR]. f_equal. field.
  - unfold score_annulus_test. cbn [fst snd].
    rewrite score_annulus_z_origin, !Rltb_true by lra. reflexivity.
  - intros [i j] _ Hne. unfold score_annulus_test. cbn [fst snd].
    pose proof (@score_annulus_z_off_origin inc i j Hc Hne).
    rewrite Rltb_false by lra. reflexivity.
  - intros p [<- | []]. cbn [fst snd]. lia.
  - unfold score_annulus_test. cbn [fst snd].
    rewrite score_annulus_z_origin, !Rltb_true by lra. reflexivity.
  - intros [i j] _ Hne. unfold score_annulus_test. cbn [fst snd].
    pose proof (@score_annulus_z_off_origin inc i j Hc Hne).
    rewrite Rltb_false by lra. reflexivity.
Qed.

(** [score_annulus] when the inner bound [r - th/2] is not positive: no
    pixel has [z < r - th/2], and the score is 0. *)
Lemma score_annulus_nothing (g : globals) (r th inc t_rot x_m y_m : R)
  (data : image) :
  qphi g <> [] -> r - th / 2 <= 0 ->
  Testplot.score_annulus g r th inc t_rot x_m y_m data = Ok 0.
Proof.
  intros Hne Hlo. rewrite score_annulus_unfold.
  destruct (qphi g) as [| row rest]; [congruence |].
  change (width (row :: rest)) with (Ok (A := nat) (length row)). cbn [bind].
  rewrite band_scan_empty.
  - cbn [bind Nat.eqb]. rewrite py_div_ok by (cbn; lra).
    f_equal. cbn. field.
  - intros p _. unfold score_annulus_test.
    rewrite Rltb_false; [reflexivity |].
    unfold Testplot.score_annulus_z.
    match goal with |- _ <= ?a ^ 2 + ?b ^ 2 =>
      pose proof (pow2_ge_0 a); pose proof (pow2_ge_0 b) end.
    lra.
Qed.

Lemma cos_radians_0_bounds : 0 < cos (radians 0) <= 1.
Proof. rewrite radians_0, cos_0. lra. Qed.

(** C3.  [score_annulus] takes the pixels with [z < r - th/2]: for
    [r = 1], [th = 1] on an unrotated, face-on model centred on pixel (0,0)
    it returns the intensity 1 of pixel (0,0), whose [z] is 0 and so lies
    outside [r - th/2 < z < r + th/2]; every other pixel of the image has
    intensity 0. *)
Theorem score_annulus_takes_inner_pixels :
  let g := mk_globals (spot 1) in
  Testplot.score_annulus g 1 1 0 0 0 0 (spot 1) = Ok 1
  /\ Testplot.score_annulus_z 0 0 0 0 0 0 = 0
  /\ ~ (1 - 1 / 2 < Testplot.score_annulus_z 0 0 0 0 0 0 < 1 + 1 / 2)
  /\ (forall p, p <> (O, O) -> px (spot 1) p = 0).
Proof.
  intros g. split; [| split; [| split]].
  - rewrite score_annulus_inner_pixel with (h := 282%nat) (w := 282%nat).
    + reflexivity.
    + apply rect_spot.
    + lia.
    + lia.
    + apply cos_radians_0_bounds.
    + lra.
    + lra.
  - apply score_annulus_z_origin.
  - rewrite score_annulus_z_origin. lra.
  - apply px_spot_off_origin.
Qed.

(** C9.  [score_annulus] is not a function of its explicit arguments: with
    the same parameters and the same [data], it returns the value that the
    module-level [qphi] holds at pixel (0,0), 1 under one global state and 2
    under another. *)
Theorem score_annulus_depends_on_global :
  let data := spot 5 in
  Testplot.score_annulus (mk_globals (spot 1)) 1 1 0 0 0 0 data = Ok 1
  /\ Testplot.score_annulus (mk_globals (spot 2)) 1 1 0 0 0 0 data = Ok 2.
Proof.
  intros data. split.
  - rewrite score_annulus_inner_pixel with (h := 282%nat) (w := 282%nat);
      [reflexivity | apply rect_spot | lia | lia
       | apply cos_radians_0_bounds | lra | lra].
  - rewrite score_annulus_inner_pixel with (h := 282%nat) (w := 282%nat);
      [reflexivity | apply rect_spot | lia | lia
       | apply cos_radians_0_bounds | lra | lra].
Qed.

(* ===================================================================== *)
(** ** Grid search in [testplot.py]                                        *)
(* ===================================================================== *)

(** C2.  [best_annulus] stores the score of [(r, th, inc, ...)] at position
    [(r, inc, th, ...)] of an array that it decodes as [(r, th, inc, ...)].
    On the box [r = 1], [th] in {1, 2}, [inc] in {0, 1}, over an image whose
    only non-zero pixel is -1 at (0,0), it returns [(1, 1, 1, 0, 0, 0)], whose
    score is -1, although the enumerated combination [(1, 2, 0, 0, 0, 0)]
    scores 0. *)
Theorem best_annulus_returns_transposed :
  let g := mk_globals (spot (-1)) in
  let data := spot (-1) in
  Testplot.best_annulus g 1 2 1 3 0 2 0 1 0 1 0 1 data
    = Ok (1, 1, 1, 0, 0, 0)%Z
  /\ Testplot.score_annulus g 1 1 1 0 0 0 data = Ok (-1)
  /\ Testplot.score_annulus g 1 2 0 0 0 0 data = Ok 0.
Proof.
  intros g data.
  assert (H10 : Testplot.score_annulus g 1 1 0 0 0 0 data = Ok (-1)).
  { rewrite score_annulus_inner_pixel with (h := 282%nat) (w := 282%nat);
      [reflexivity | apply rect_spot | lia | lia
       | apply cos_radians_0_bounds | lra | lra]. }
  assert (H11 : Testplot.score_annulus g 1 1 1 0 0 0 data = Ok (-1)).
  { rewrite score_annulus_inner_pixel with (h := 282%nat) (w := 282%nat);
      [reflexivity | apply rect_spot | lia | lia
       | apply cos_radians_1_bounds | lra | lra]. }
  assert (H2 : forall inc, Testplot.score_annulus g 1 2 inc 0 0 0 data = Ok 0).
  { intros inc. apply score_annulus_nothing; [discriminate | lra]. }
  split; [| split; [exact H11 | apply H2]].
  unfold Testplot.best_annulus.
  change (np_zeros [2 - 1; 3 - 1; 2 - 0; 1 - 0; 1 - 0; 1 - 0]%Z)
    with (Ok (mk_nd [1; 2; 2; 1; 1; 1]%nat [0; 0; 0; 0])).
  cbn [bind].
  change (py_range 1 2) with [1%Z].
  change (py_range 1 3) with [1%Z; 2%Z].
  change (py_range 0 2) with [0%Z; 1%Z].
  change (py_range 0 1) with [0%Z].
  cbn [for_each bind].
  rewrite H10. cbn [bind].
  change (nd_set (mk_nd [1; 2; 2; 1; 1; 1]%nat [0; 0; 0; 0])
            [1 - 1; 0 - 0; 1 - 1; 0 - 0; 0 - 0; 0 - 0]%Z (-1))
    with (Ok (mk_nd [1; 2; 2; 1; 1; 1]%nat [-1; 0; 0; 0])).
  cbn [bind]. rewrite H11. cbn [bind].
  change (nd_set (mk_nd [1; 2; 2; 1; 1; 1]%nat [-1; 0; 0; 0])
            [1 - 1; 1 - 0; 1 - 1; 0 - 0; 0 - 0; 0 - 0]%Z (-1))
    with (Ok (mk_nd [1; 2; 2; 1; 1; 1]%nat [-1; 0; -1; 0])).
  cbn [bind]. rewrite !H2. cbn [bind].
  change (nd_set (mk_nd [1; 2; 2; 1; 1; 1]%nat [-1; 0; -1; 0])
            [1 - 1; 0 - 0; 2 - 1; 0 - 0; 0 - 0; 0 - 0]%Z 0)
    with (Ok (mk_nd [1; 2; 2; 1; 1; 1]%nat [-1; 0; -1; 0])).
  cbn [bind].
  change (nd_set (mk_nd [1; 2; 2; 1; 1; 1]%nat [-1; 0; -1; 0])
            [1 - 1; 1 - 0; 2 - 1; 0 - 0; 0 - 0; 0 - 0]%Z 0)
    with (Ok (mk_nd [1; 2; 2; 1; 1; 1]%nat [-1; 0; -1; 0])).
  cbn [bind].
  unfold argmax. cbn [nd_flat argmax_from].
  rewrite (Rltb_true (a := -1) (b := 0)) by lra.
  rewrite (Rltb_false (a := 0) (b := -1)) by lra.
  rewrite (Rltb_false (a := 0) (b := 0)) by lra.
  cbn [bind]. reflexivity.
Qed.

(* ===================================================================== *)
(** ** Thickness                                                           *)
(* ===================================================================== *)

(** C8 (amended).  [a_score] clamps a thickness below 1 to 1: with
    [th < 1] it returns what it returns with [th = 1]. *)
Theorem a_score_clamps_thickness (r th inc rot x_m y_m : R) (data : image) :
  th < 1 ->
  a_score r th inc rot x_m y_m data = a_score r 1 inc rot x_m y_m data.
Proof.
  intros H. rewrite !a_score_unfold. unfold clamp_th.
  destruct (Rlt_dec th 1) as [_ | Hn]; [| contradiction].
  destruct (Rlt_dec 1 1) as [_ | _]; reflexivity.
Qed.

(** An instance: thickness 1/2 on the 282 x 282 image [spot 1]. *)
Lemma a_score_clamps_thickness_witness :
  1 / 2 < 1
  /\ a_score 1 (1 / 2) 0 0 0 0 (spot 1) = a_score 1 1 0 0 0 0 (spot 1).
Proof.
  split; [lra | apply a_score_clamps_thickness; lra].
Defined.

(** C8, as stated, fails on [a_surf_map], which has no clamp: on a
    one-pixel image with [r = 0.4] the map for [th = 0.5] leaves the pixel
    at [back = 0] while the map for [th = 1] sets it to [surf = 1]. *)
Lemma a_surf_map_does_not_clamp :
  0.5 < 1
  /\ a_surf_map 0.4 0.5 0 0 0 0 1 (PyFloat 0) [[0]] = Ok [[0]]
  /\ a_surf_map 0.4 1 0 0 0 0 1 (PyFloat 0) [[0]] = Ok [[1]]
  /\ a_surf_map 0.4 0.5 0 0 0 0 1 (PyFloat 0) [[0]]
     <> a_surf_map 0.4 1 0 0 0 0 1 (PyFloat 0) [[0]].
Proof.
  assert (H1 : a_surf_map 0.4 0.5 0 0 0 0 1 (PyFloat 0) [[0]] = Ok [[0]]).
  { unfold a_surf_map.
    change (width [[0]]) with (Ok (A := nat) 1%nat). cbn [bind length range seq].
    cbn [for_each]. rewrite a_z_axis_origin. cbn [nan_gt nan_lt].
    rewrite (Rltb_false (a := 0.4 - 0.5 / 2) (b := 0)) by lra.
    reflexivity. }
  assert (H2 : a_surf_map 0.4 1 0 0 0 0 1 (PyFloat 0) [[0]] = Ok [[1]]).
  { unfold a_surf_map.
    change (width [[0]]) with (Ok (A := nat) 1%nat). cbn [bind length range seq].
    cbn [for_each]. rewrite a_z_axis_origin. cbn [nan_gt nan_lt].
    rewrite (Rltb_true (a := 0.4 - 1 / 2) (b := 0)) by lra.
    rewrite (Rltb_true (a := 0) (b := 0.4 + 1 / 2)) by lra.
    reflexivity. }
  split; [lra | split; [exact H1 | split; [exact H2 |]]].
  rewrite H1, H2. intros E. injection E as E. lra.
Qed.

(* ===================================================================== *)
(** ** The degenerate annulus                                              *)
(* ===================================================================== *)

Lemma clamp_th_ge_1 (th : R) : 1 <= th -> clamp_th th = th.
Proof.
  intros H. unfold clamp_th. destruct (Rlt_dec th 1); [lra | reflexivity].
Qed.

Lemma clamp_th_lt_1 (th : R) : th < 1 -> clamp_th th = 1.
Proof.
  intros H. unfold clamp_th. destruct (Rlt_dec th 1); [reflexivity | lra].
Qed.

Lemma INR_lt_282 (i : nat) : (i < 282)%nat -> INR i <= 281.
Proof.
  intros H. replace 281 with (INR 281).
  - apply le_INR. lia.
  - rewrite INR_IZR_INZ. reflexivity.
Qed.

(** A ring of radius 1000 and thickness 4 around pixel (0,0) passes outside
    the scanned grid. *)
Lemma far_ring_misses_grid (i j : nat) :
  (i < 282)%nat -> (j < 282)%nat ->
  a_in_band 1000 (clamp_th 4) 0 0 0 0 i j = false.
Proof.
  intros Hi Hj. unfold a_in_band. rewrite clamp_th_ge_1 by lra.
  rewrite a_z_axis. cbn [nan_gt nan_lt].
  rewrite Rltb_false; [reflexivity |].
  pose proof (INR_lt_282 Hi). pose proof (INR_lt_282 Hj).
  pose proof (pos_INR i). pose proof (pos_INR j).
  replace (1000 - 4 / 2) with (sqrt (998 * 998)).
  - apply sqrt_le_1_alt. nra.
  - rewrite sqrt_square by lra. lra.
Qed.

(** The band of [a_score] is that of the clamped thickness.  With
    [r = 0.4] and [th = 0.5] no pixel at all satisfies
    [r - th/2 < z < r + th/2], since [z] is 0 at pixel (0,0) and at least 1
    elsewhere; but [a_score] tests with the thickness 1, takes pixel (0,0)
    and returns its intensity 1. *)
Lemma a_score_thin_band_not_zero :
  (forall i j, a_in_band 0.4 0.5 0 0 0 0 i j = false)
  /\ a_score 0.4 0.5 0 0 0 0 [[1]] = Ok 1.
Proof.
  split.
  - intros i j. unfold a_in_band.
    destruct (Nat.eq_dec i 0) as [-> | Hi].
    + destruct (Nat.eq_dec j 0) as [-> | Hj].
      * rewrite a_z_axis_origin. cbn [nan_gt nan_lt].
        rewrite Rltb_false by lra. reflexivity.
      * destruct (@a_z_axis_off_origin O j) as (v & -> & Hv); [congruence |].
        cbn [nan_gt nan_lt].
        rewrite (Rltb_false (a := v)) by lra. apply andb_false_r.
    + destruct (@a_z_axis_off_origin i j) as (v & -> & Hv); [congruence |].
      cbn [nan_gt nan_lt].
      rewrite (Rltb_false (a := v)) by lra. apply andb_false_r.
  - assert (Hr : rect 1 1 ([[1]] : image)).
    { split; [reflexivity | repeat constructor]. }
    rewrite (a_score_mean 0.4 0.5 0 0 0 0 Hr Nat.lt_0_1);
      rewrite clamp_th_lt_1 by lra; rewrite filter_grid_origin.
    + cbn [map sum_list fold_right length Nat.eqb INR px fst snd nth].
      f_equal. field.
    + unfold a_in_band. cbn [fst snd]. rewrite a_z_axis_origin.
      cbn [nan_gt nan_lt]. rewrite !Rltb_true by lra. reflexivity.
    + intros [i j] _ Hne. unfold a_in_band. cbn [fst snd].
      destruct (@a_z_axis_off_origin i j Hne) as (v & -> & Hv).
      cbn [nan_gt nan_lt].
      rewrite (Rltb_false (a := v)) by lra. apply andb_false_r.
    + intros p [<- | []]. cbn [fst snd]. lia.
    + unfold a_in_band. cbn [fst snd]. rewrite a_z_axis_origin.
      cbn [nan_gt nan_lt]. rewrite !Rltb_true by lra. reflexivity.
    + intros [i j] _ Hne. unfold a_in_band. cbn [fst snd].
      destruct (@a_z_axis_off_origin i j Hne) as (v & -> & Hv).
      cbn [nan_gt nan_lt].
      rewrite (Rltb_false (a := v)) by lra. apply andb_false_r.
Qed.

(* ===================================================================== *)
(** ** Synthetic maps                                                      *)
(* ===================================================================== *)

Lemma px_map_map (f : nat -> nat -> R) (size i j : nat) :
  (i < size)%nat -> (j < size)%nat ->
  px (map (fun i => map (fun j => f i j) (range size)) (range size)) (i, j)
  = f i j.
Proof.
  intros Hi Hj. unfold px, range. cbn [fst snd].
  rewrite nth_indep with (d' := map (fun j => f O j) (seq 0 size))
    by now rewrite length_map, length_seq.
  rewrite (map_nth (fun i => map (fun j => f i j) (seq 0 size)) (seq 0 size) O i).
  rewrite seq_nth by assumption. cbn [Nat.add].
  rewrite nth_indep with (d' := f i O)
    by now rewrite length_map, length_seq.
  rewrite (map_nth (fun j => f i j) (seq 0 size) O j).
  now rewrite seq_nth.
Qed.

Lemma rect_map_map (f : nat -> nat -> R) (n : nat) :
  rect n n (map (fun i => map (fun j => f i j) (range n)) (range n)).
Proof.
  unfold rect, range. split; [now rewrite length_map, length_seq |].
  apply Forall_forall. intros row Hrow. apply in_map_iff in Hrow as (i & <- & _).
  now rewrite length_map, length_seq.
Qed.

Lemma get2_map_map (f : nat -> nat -> R) (n i j : nat) :
  (i < n)%nat -> (j < n)%nat ->
  get2 (map (fun i => map (fun j => f i j) (range n)) (range n))
       (Z.of_nat i) (Z.of_nat j) = Ok (f i j).
Proof.
  intros Hi Hj. rewrite (rect_get2 (rect_map_map f n) Hi Hj).
  now rewrite px_map_map.
Qed.

Lemma cos_radians_60 : cos (radians 60) = 1 / 2.
Proof.
  unfold radians. replace (60 * (PI / 180)) with (PI / 3) by field.
  apply cos_PI3.
Qed.

(* ===================================================================== *)
(** ** Deprojection                                                        *)
(* ===================================================================== *)

Lemma set2_get2_same {A : Type} (h w : nat) (a a' : list (list A))
  (i j : nat) (v : A) :
  rect h w a -> (i < h)%nat -> (j < w)%nat ->
  set2 a (Z.of_nat i) (Z.of_nat j) v = Ok a' ->
  get2 a' (Z.of_nat i) (Z.of_nat j) = Ok v.
Proof.
  intros Hr Hi Hj Hset. destruct (rect_row Hr Hi) as (row & Hrow & Hlen).
  rewrite (set2_nat a i v Hrow) in Hset by lia. injection Hset as <-.
  apply get2_nat with (row := list_set row j v).
  - apply nth_error_list_set_eq. destruct Hr. lia.
  - apply nth_error_list_set_eq. lia.
Qed.

Lemma pixel_eq_dec (p q : nat * nat) : {p = q} + {p <> q}.
Proof. decide equality; apply Nat.eq_dec. Qed.

(** A loop that writes [val p] at every position [p] of a list of in-range
    positions: the written cells hold their value, the others are kept. *)
Lemma fill_spec (h w : nat) (val : nat * nat -> R)
  (body : nat * nat -> image -> result image) (l : list (nat * nat)) :
  (forall p, In p l -> (fst p < h)%nat /\ (snd p < w)%nat) ->
  (forall p a, In p l ->
     body p a = set2 a (Z.of_nat (fst p)) (Z.of_nat (snd p)) (val p)) ->
  forall a, rect h w a ->
  exists a',
    for_each l body a = Ok a'
    /\ rect h w a'
    /\ (forall q, In q l ->
          get2 a' (Z.of_nat (fst q)) (Z.of_nat (snd q)) = Ok (val q))
    /\ (forall q, ~ In q l ->
          get2 a' (Z.of_nat (fst q)) (Z.of_nat (snd q))
          = get2 a (Z.of_nat (fst q)) (Z.of_nat (snd q))).
Proof.
  induction l as [| p l IH]; intros Hin Hbody a Hr.
  - exists a. cbn [for_each].
    split; [reflexivity | split; [exact Hr | split]];
      [intros q [] | reflexivity].
  - destruct (Hin p (or_introl eq_refl)) as [Hi Hj].
    destruct (rect_set2 (val p) Hr Hi Hj) as (a1 & Hset & Hr1 & Hother).
    destruct (IH (fun q Hq => Hin q (or_intror Hq))
                 (fun q b Hq => Hbody q b (or_intror Hq)) a1 Hr1)
      as (a' & Hrun & Hr' & Hval & Hkeep).
    exists a'. cbn [for_each].
    rewrite (Hbody p a (or_introl eq_refl)), Hset. cbn [bind].
    split; [exact Hrun | split; [exact Hr' | split]].
    + intros q Hq. destruct (in_dec pixel_eq_dec q l) as [Hql | Hql].
      * now apply Hval.
      * destruct Hq as [<- | Hq]; [| contradiction].
        rewrite (Hkeep p Hql). exact (@set2_get2_same _ h w a a1 (fst p) (snd p) (val p) Hr Hi Hj Hset).
    + intros q Hq. rewrite Hkeep by (intros Hql; apply Hq; now right).
      apply Hother. intros E. apply Hq. left.
      destruct q, p. cbn [fst snd] in *. congruence.
Qed.

(** Two rectangular arrays of one shape with the same entries are equal. *)
Lemma rect_ext (h w : nat) (a b : image) :
  rect h w a -> rect h w b ->
  (forall i j, (i < h)%nat -> (j < w)%nat -> px a (i, j) = px b (i, j)) ->
  a = b.
Proof.
  intros [Ha Hwa] [Hb Hwb] Hpx.
  apply nth_ext with (d := []) (d' := []); [congruence |].
  intros i Hi. rewrite Ha in Hi.
  rewrite Forall_forall in Hwa, Hwb.
  assert (Hla : length (nth i a []) = w) by (apply Hwa, nth_In; lia).
  assert (Hlb : length (nth i b []) = w) by (apply Hwb, nth_In; lia).
  apply nth_ext with (d := 0) (d' := 0); [congruence |].
  intros j Hj. rewrite Hla in Hj. exact (Hpx i j Hi Hj).
Qed.

(* ===================================================================== *)
(** ** The map generators                                                  *)
(* ===================================================================== *)

(** Two nested loops that assign [f i j] to every cell of a [size] x [size]
    array leave the array of these values. *)
Lemma map_fill_loops (f : nat -> nat -> R) (v0 : R) (size : nat) :
  for_each (range size) (fun i =>
    for_each (range size) (fun j a =>
      set2 a (Z.of_nat i) (Z.of_nat j) (f i j)))
    (np_full size size v0)
  = Ok (map (fun i => map (fun j => f i j) (range size)) (range size)).
Proof.
  rewrite (for_each_nested (range size) (range size)
             (fun i j a => set2 a (Z.of_nat i) (Z.of_nat j) (f i j))).
  destruct (@fill_spec size size (fun p => f (fst p) (snd p))
              (fun p a => set2 a (Z.of_nat (fst p)) (Z.of_nat (snd p))
                            (f (fst p) (snd p)))
              (grid size size))
    with (a := np_full size size v0) as (out & Hrun & Hr & Hval & _).
  - intros p Hp. now apply in_grid.
  - reflexivity.
  - apply rect_np_full.
  - assert (E : out = map (fun i => map (fun j => f i j) (range size))
                          (range size)).
    { apply rect_ext with (h := size) (w := size);
        [exact Hr | apply rect_map_map |].
      intros i j Hi Hj. rewrite px_map_map by assumption.
      assert (Hin : In (i, j) (grid size size)) by (apply in_grid; cbn; lia).
      pose proof (Hval (i, j) Hin) as Hv. cbn [fst snd] in Hv.
      rewrite (rect_get2 Hr Hi Hj) in Hv. now injection Hv. }
    rewrite <- E. exact Hrun.
Qed.

(** The three generators return, and return the array of the values they
    assign. *)
Lemma test_map_cells (r th inc rot x_m y_m surf : R) (back : scalar)
  (size : nat) :
  test_map r th inc rot x_m y_m surf back size
  = Ok (map (fun i =>
          map (fun j => store_as back
                          (test_map_px r th inc rot x_m y_m surf
                                       (scalar_val back) i j))
              (range size))
          (range size)).
Proof.
  exact (map_fill_loops
           (fun i j => store_as back
                         (test_map_px r th inc rot x_m y_m surf
                                      (scalar_val back) i j))
           (scalar_val back) size).
Qed.

Lemma test_map_mie_cells
  (r th inc rot x_m y_m surf_0 surf_theta theta_max : R) (back : scalar)
  (size : nat) :
  test_map_mie r th inc rot x_m y_m surf_0 surf_theta theta_max back size
  = Ok (map (fun i =>
          map (fun j => store_as back
                          (test_map_mie_px r th inc rot x_m y_m
                             surf_0 surf_theta theta_max (scalar_val back) i j))
              (range size))
          (range size)).
Proof.
  exact (map_fill_loops
           (fun i j => store_as back
                         (test_map_mie_px r th inc rot x_m y_m
                            surf_0 surf_theta theta_max (scalar_val back) i j))
           (scalar_val back) size).
Qed.

Lemma hg_map_cells (r th inc rot x_m y_m g surf back : R) (size : nat) :
  hg_map r th inc rot x_m y_m g surf back size
  = Ok (map (fun i =>
          map (fun j => hg_map_px r th inc rot x_m y_m g surf back i j)
              (range size))
          (range size)).
Proof.
  exact (map_fill_loops
           (fun i j => hg_map_px r th inc rot x_m y_m g surf back i j)
           back size).
Qed.

Lemma test_map_R_axis (i j : nat) :
  test_map_R 0 0 0 0 i j = sqrt (INR i ^ 2 + INR j ^ 2).
Proof.
  unfold test_map_R. rewrite rotate_origin_0, radians_0, cos_0.
  f_equal. field.
Qed.

Lemma test_map_px_kernel (r th inc rot x_m y_m surf back : R) (i j : nat) :
  test_map_px r th inc rot x_m y_m surf back i j
  = back + surf * gauss_kernel (test_map_R inc rot x_m y_m i j) r th.
Proof.
  unfold test_map_px, test_map_R, gauss_kernel.
  destruct (rotate (INR i) (INR j) x_m y_m rot). reflexivity.
Qed.

Lemma test_map_mie_px_kernel
  (r th inc rot x_m y_m surf_0 surf_theta theta_max back : R) (i j : nat) :
  test_map_mie_px r th inc rot x_m y_m surf_0 surf_theta theta_max back i j
  = back + mie_surf x_m y_m surf_0 surf_theta theta_max i j
           * gauss_kernel (test_map_R inc rot x_m y_m i j) r th.
Proof.
  unfold test_map_mie_px, test_map_R, mie_surf, gauss_kernel.
  destruct (rotate (INR i) (INR j) x_m y_m rot). reflexivity.
Qed.

Lemma hg_map_px_kernel (r th inc rot x_m y_m g surf back : R) (i j : nat) :
  hg_map_px r th inc rot x_m y_m g surf back i j
  = back + surf * hg_p inc rot x_m y_m g i j
           * gauss_kernel (hg_map_R inc rot x_m y_m i j) r th.
Proof.
  unfold hg_map_px, hg_map_R, hg_p, gauss_kernel.
  destruct (rotate (INR i) (INR j) x_m y_m rot). reflexivity.
Qed.

(** C6 (amended).  For a float [back], each of the three generators
    returns a [size] x [size] map whose every pixel is [back] plus a
    brightness factor times the Gaussian kernel
    [exp (-(R - r)^2 / (2 (th/2)^2))] of a deprojected radius [R]:
    [test_map] and [test_map_mie] take [R = sqrt ((x / cos inc)^2 + y^2)],
    [hg_map] takes [R = sqrt (x^2 + (y / cos inc)^2)]; the factors are
    [surf], the azimuthal [surf_0 + surf_theta cos^2 (...)], and [surf * p]
    with [p] the Henyey-Greenstein value. *)
Theorem map_generators_kernel
  (r th inc rot x_m y_m surf back surf_0 surf_theta theta_max g : R)
  (size : nat) :
  exists m_gau m_mie m_hg,
    test_map r th inc rot x_m y_m surf (PyFloat back) size = Ok m_gau
    /\ test_map_mie r th inc rot x_m y_m surf_0 surf_theta theta_max
                    (PyFloat back) size = Ok m_mie
    /\ hg_map r th inc rot x_m y_m g surf back size = Ok m_hg
    /\ rect size size m_gau /\ rect size size m_mie /\ rect size size m_hg
    /\ forall i j, (i < size)%nat -> (j < size)%nat ->
         px m_gau (i, j)
           = back + surf * gauss_kernel (test_map_R inc rot x_m y_m i j) r th
         /\ px m_mie (i, j)
           = back + mie_surf x_m y_m surf_0 surf_theta theta_max i j
                    * gauss_kernel (test_map_R inc rot x_m y_m i j) r th
         /\ px m_hg (i, j)
           = back + surf * hg_p inc rot x_m y_m g i j
                    * gauss_kernel (hg_map_R inc rot x_m y_m i j) r th.
Proof.
  do 3 eexists.
  split; [apply test_map_cells |].
  split; [apply test_map_mie_cells |].
  split; [apply hg_map_cells |].
  split; [apply rect_map_map |].
  split; [apply rect_map_map |].
  split; [apply rect_map_map |].
  intros i j Hi Hj. rewrite !px_map_map by assumption. cbn [store_as].
  split; [apply test_map_px_kernel |].
  split; [apply test_map_mie_px_kernel | apply hg_map_px_kernel].
Qed.

Lemma test_map_R_60 : test_map_R 60 0 0 0 1 0 = 2.
Proof.
  unfold test_map_R. rewrite rotate_origin_0, cos_radians_60. cbn [INR].
  replace ((1 / (1 / 2)) ^ 2 + 0 ^ 2) with (2 * 2) by field.
  apply sqrt_square. lra.
Qed.

Lemma hg_map_R_60 : hg_map_R 60 0 0 0 1 0 = 1.
Proof.
  unfold hg_map_R. rewrite rotate_origin_0, cos_radians_60. cbn [INR].
  replace (1 ^ 2 + (0 / (1 / 2)) ^ 2) with 1 by field.
  apply sqrt_1.
Qed.

(** An instance: the three maps of side 2 for [r = 1], [th = 2] at
    inclination 60 degrees, and their pixel (1,0), whose radius is 2 in
    [test_map] and [test_map_mie] and 1 in [hg_map]. *)
Lemma map_generators_kernel_witness :
  exists m_gau m_mie m_hg,
    test_map 1 2 60 0 0 0 3 (PyFloat 4) 2 = Ok m_gau
    /\ test_map_mie 1 2 60 0 0 0 3 5 30 (PyFloat 4) 2 = Ok m_mie
    /\ hg_map 1 2 60 0 0 0 0.5 3 4 2 = Ok m_hg
    /\ px m_gau (1%nat, O) = 4 + 3 * gauss_kernel 2 1 2
    /\ px m_mie (1%nat, O)
       = 4 + mie_surf 0 0 3 5 30 1 0 * gauss_kernel 2 1 2
    /\ px m_hg (1%nat, O)
       = 4 + 3 * hg_p 60 0 0 0 0.5 1 0 * gauss_kernel 1 1 2.
Proof.
  destruct (map_generators_kernel 1 2 60 0 0 0 3 4 3 5 30 0.5 2)
    as (m_gau & m_mie & m_hg & H1 & H2 & H3 & _ & _ & _ & Hpx).
  exists m_gau, m_mie, m_hg.
  destruct (Hpx 1%nat O (Nat.lt_succ_diag_r 1) (Nat.lt_0_succ 1))
    as (P1 & P2 & P3).
  rewrite test_map_R_60 in P1, P2. rewrite hg_map_R_60 in P3.
  repeat split; assumption.
Defined.

Lemma np_int_5_5 : np_int 5.5 = 5%Z.
Proof.
  unfold np_int. destruct (Rle_dec 0 5.5) as [_ | H]; [| lra].
  apply Zfloor_eq. lra.
Qed.

(** C6, as stated, fails in two ways.  The radius of [hg_map] is not the
    radius of [test_map]: at inclination 60 degrees, for the unrotated
    model centred on pixel (0,0), pixel (1,0) has radius 2 in [test_map]
    and radius 1 in [hg_map], and the two kernels for [r = 1], [th = 2]
    differ.  And the arrays do not have one type: with the integer
    [back = 5], [test_map] returns an integer array that holds 5 where the
    kernel formula gives 5.5, while [hg_map], allocated with
    [dtype=float], holds its formula. *)
Lemma map_generators_differ :
  (test_map_R 60 0 0 0 1 0 = 2
   /\ hg_map_R 60 0 0 0 1 0 = 1
   /\ gauss_kernel (test_map_R 60 0 0 0 1 0) 1 2
      <> gauss_kernel (hg_map_R 60 0 0 0 1 0) 1 2)
  /\ (test_map 0 2 0 0 0 0 0.5 (PyInt 5) 1 = Ok [[5]]
      /\ 5 + 0.5 * gauss_kernel (test_map_R 0 0 0 0 0 0) 0 2 = 5.5
      /\ hg_map 0 2 0 0 0 0 0 0.5 5 1
         = Ok [[5 + 0.5 * hg_p 0 0 0 0 0 0 0
                    * gauss_kernel (hg_map_R 0 0 0 0 0 0) 0 2]]).
Proof.
  assert (K : gauss_kernel (test_map_R 0 0 0 0 0 0) 0 2 = 1).
  { rewrite test_map_R_axis. cbn [INR].
    replace (0 ^ 2 + 0 ^ 2) with 0 by ring. rewrite sqrt_0.
    unfold gauss_kernel.
    replace (- (0 - 0) ^ 2 / (2 * (2 / 2) ^ 2)) with 0 by field.
    apply exp_0. }
  split; [split; [exact test_map_R_60 | split; [exact hg_map_R_60 |]] |].
  - rewrite test_map_R_60, hg_map_R_60. unfold gauss_kernel.
    replace (- (1 - 1) ^ 2 / (2 * (2 / 2) ^ 2)) with 0 by field.
    intros E. rewrite exp_0 in E.
    assert (Hlt : exp (- (2 - 1) ^ 2 / (2 * (2 / 2) ^ 2)) < exp 0).
    { apply exp_increasing. lra. }
    rewrite exp_0 in Hlt. lra.
  - split; [| split].
    + rewrite test_map_cells. apply f_equal.
      cbn [range seq map store_as scalar_val].
      rewrite test_map_px_kernel, K.
      replace (5 + 0.5 * 1) with 5.5 by lra.
      rewrite np_int_5_5. reflexivity.
    + rewrite K. lra.
    + rewrite hg_map_cells. apply f_equal. cbn [range seq map].
      rewrite hg_map_px_kernel. reflexivity.
Qed.

(** The two loops of [deproject] on a rectangular source whose resampled
    column [col j] stays inside the source. *)
Lemma deproject_loops (h w new_w : nat) (data : image) (c : R) :
  rect h w data ->
  (forall j, (j < new_w)%nat -> (0 <= np_int (INR j * c) < Z.of_nat w)%Z) ->
  exists out,
    for_each (range h) (fun i new_data =>
      for_each (range new_w) (fun j new_data =>
        v <- get2 data (Z.of_nat i) (np_int (INR j * c)) ;;
        set2 new_data (Z.of_nat i) (Z.of_nat j) v)
      new_data)
    (np_full h new_w 0) = Ok out
    /\ rect h new_w out
    /\ forall i j, (i < h)%nat -> (j < new_w)%nat ->
         px out (i, j) = px data (i, Z.to_nat (np_int (INR j * c))).
Proof.
  intros Hr Hcol.
  rewrite (for_each_nested (range h) (range new_w)
             (fun i j new_data =>
                v <- get2 data (Z.of_nat i) (np_int (INR j * c)) ;;
                set2 new_data (Z.of_nat i) (Z.of_nat j) v)).
  destruct (@fill_spec h new_w
              (fun p => px data (fst p, Z.to_nat (np_int (INR (snd p) * c))))
              (fun p new_data =>
                 v <- get2 data (Z.of_nat (fst p)) (np_int (INR (snd p) * c)) ;;
                 set2 new_data (Z.of_nat (fst p)) (Z.of_nat (snd p)) v)
              (grid h new_w))
    with (a := np_full h new_w 0) as (out & Hrun & Hrout & Hval & _).
  - intros p Hp. now apply in_grid.
  - intros [i j] a Hp. apply in_grid in Hp as [Hi Hj]. cbn [fst snd] in *.
    destruct (Hcol j Hj) as [Hlo Hhi].
    rewrite <- (Z2Nat.id (np_int (INR j * c))) at 1 by assumption.
    rewrite (rect_get2 Hr Hi) by lia. reflexivity.
  - apply rect_np_full.
  - exists out. split; [exact Hrun | split; [exact Hrout |]].
    intros i j Hi Hj.
    pose proof (Hval (i, j)) as Hv. cbn [fst snd] in Hv.
    rewrite (rect_get2 Hrout Hi Hj) in Hv.
    assert (Hin : In (i, j) (grid h new_w)) by (apply in_grid; cbn; lia).
    specialize (Hv Hin). now injection Hv.
Qed.

Lemma np_int_nonneg (x : R) : 0 <= x -> np_int x = Zfloor x /\ (0 <= Zfloor x)%Z.
Proof.
  intros H. split.
  - unfold np_int. destruct (Rle_dec 0 x); [reflexivity | contradiction].
  - apply (Zfloor_lub 0). exact H.
Qed.

(** [deproject] at inclination 0 copies a rectangular image. *)
Lemma deproject_at_0 (data : image) (h w : nat) :
  rect h w data -> (0 < h)%nat -> deproject data 0 = Ok data.
Proof.
  intros Hr Hh.
  unfold deproject. rewrite (rect_width Hr Hh). cbn [bind]. cbv zeta.
  rewrite radians_0, cos_0.
  replace (INR w / 1) with (INR w) by field.
  rewrite np_int_INR.
  destruct (Z.ltb_spec (Z.of_nat w) 0) as [Hneg | _]; [lia |].
  rewrite Nat2Z.id. destruct Hr as [Hlen Hrows]. rewrite Hlen.
  destruct (@deproject_loops h w w data 1 (conj Hlen Hrows))
    as (out & Hrun & Hrout & Hpx).
  { intros j Hj. rewrite Rmult_1_r, np_int_INR. lia. }
  rewrite Hrun.
  assert (E : out = data); [| now rewrite E].
  apply rect_ext with (h := h) (w := w); [exact Hrout | now split |].
  intros i j Hi Hj. rewrite (Hpx i j Hi Hj).
  now rewrite Rmult_1_r, np_int_INR, Nat2Z.id.
Qed.

(** [deproject] of [testplot.py] takes width and height from the
    module-level [qphi]: the same call succeeds or raises with the global
    state. *)
Lemma testplot_deproject_reads_global :
  Testplot.deproject (mk_globals [[1]]) [[1]] 0 = Ok [[1]]
  /\ Testplot.deproject (mk_globals []) [[1]] 0 = Raise IndexError.
Proof.
  split; [| reflexivity].
  change (Testplot.deproject (mk_globals [[1]]) [[1]] 0)
    with (deproject [[1]] 0).
  apply deproject_at_0 with (h := 1%nat) (w := 1%nat); [| lia].
  split; [reflexivity | repeat constructor].
Qed.

(* ===================================================================== *)
(** ** [score_ellipse] counts every visited pixel once                     *)
(* ===================================================================== *)

Lemma np_index_mod (n : nat) (k : Z) :
  (- Z.of_nat n <= k < Z.of_nat n)%Z ->
  np_index n k = Ok (Z.to_nat (k mod Z.of_nat n)).
Proof.
  intros [Hlo Hhi]. unfold np_index.
  destruct (Z.leb_spec 0 k) as [Hk | Hk].
  - destruct (Z.ltb_spec k (Z.of_nat n)); [| lia].
    now rewrite Z.mod_small by lia.
  - destruct (Z.leb_spec (- Z.of_nat n) k); [| lia].
    f_equal. f_equal.
    rewrite <- (Z.mod_add k 1 (Z.of_nat n)) by lia.
    rewrite Z.mod_small by lia. lia.
Qed.

Lemma norm_pixel_bound (h w : nat) (z : Z * Z) :
  in_bounds h w z ->
  (fst (norm_pixel h w z) < h)%nat /\ (snd (norm_pixel h w z) < w)%nat.
Proof.
  intros [Hy Hx]. unfold norm_pixel. cbn [fst snd].
  pose proof (Z.mod_pos_bound (fst z) (Z.of_nat h)).
  pose proof (Z.mod_pos_bound (snd z) (Z.of_nat w)). lia.
Qed.

(** Reading or writing through a numpy index pair is reading or writing
    the position it denotes. *)
Lemma get2_norm {A : Type} (h w : nat) (a : list (list A)) (z : Z * Z) :
  rect h w a -> in_bounds h w z ->
  get2 a (fst z) (snd z)
  = get2 a (Z.of_nat (fst (norm_pixel h w z))) (Z.of_nat (snd (norm_pixel h w z))).
Proof.
  intros Hr Hb. destruct (norm_pixel_bound Hb) as [Hi Hj].
  destruct Hb as [Hy Hx].
  destruct (rect_row Hr Hi) as (row & Hrow & Hlen).
  unfold get2, get1. destruct Hr as [Hh _]. rewrite Hh.
  rewrite (@np_index_mod h (fst z) Hy), (@np_index_nat h _ Hi). cbn [bind].
  unfold norm_pixel in *. cbn [fst snd] in *. rewrite Hrow. cbn [bind].
  rewrite Hlen, (@np_index_mod w (snd z) Hx), (@np_index_nat w _ Hj). reflexivity.
Qed.

Lemma set2_norm {A : Type} (h w : nat) (a : list (list A)) (z : Z * Z) (v : A) :
  rect h w a -> in_bounds h w z ->
  set2 a (fst z) (snd z) v
  = set2 a (Z.of_nat (fst (norm_pixel h w z)))
         (Z.of_nat (snd (norm_pixel h w z))) v.
Proof.
  intros Hr Hb. destruct (norm_pixel_bound Hb) as [Hi Hj].
  destruct Hb as [Hy Hx].
  destruct (rect_row Hr Hi) as (row & Hrow & Hlen).
  unfold set2. destruct Hr as [Hh _]. rewrite Hh.
  rewrite (@np_index_mod h (fst z) Hy), (@np_index_nat h _ Hi). cbn [bind].
  unfold norm_pixel in *. cbn [fst snd] in *. rewrite Hrow.
  rewrite Hlen, (@np_index_mod w (snd z) Hx), (@np_index_nat w _ Hj). reflexivity.
Qed.

Lemma pixel_eqb_eq (p q : nat * nat) : pixel_eqb p q = true <-> p = q.
Proof.
  destruct p as [a b], q as [c d]. unfold pixel_eqb. cbn [fst snd].
  rewrite andb_true_iff, !Nat.eqb_eq. split; [intros []; congruence |].
  intros E. now injection E.
Qed.

Lemma seen_in_spec (seen : list (nat * nat)) (p : nat * nat) :
  seen_in seen p = true <-> In p seen.
Proof.
  unfold seen_in. rewrite existsb_exists. split.
  - intros (q & Hq & E). apply pixel_eqb_eq in E. now subst.
  - intros H. exists p. split; [assumption | now apply pixel_eqb_eq].
Qed.

Lemma seen_in_cons (seen : list (nat * nat)) (p q : nat * nat) :
  seen_in (p :: seen) q = pixel_eqb q p || seen_in seen q.
Proof. reflexivity. Qed.

Section EllipseScan.

Variable E : Type.
Variable pix : E -> Z * Z.
Variable data : image.
Variables h w : nat.
Hypothesis data_rect : rect h w data.

(** The loop of [score_ellipse] from a mask that marks exactly the pixels
    [seen]: the pixels visited for the first time are counted and added
    once each, in the order of their first visit. *)
Lemma score_ellipse_loop_spec (es : list E) :
  (forall e, In e es -> in_bounds h w (pix e)) ->
  forall (seen : list (nat * nat)) (mask : list (list bool)) (n : nat) (s : R),
    rect h w mask ->
    (forall q, (fst q < h)%nat -> (snd q < w)%nat ->
       get2 mask (Z.of_nat (fst q)) (Z.of_nat (snd q)) = Ok (seen_in seen q)) ->
    let firsts := first_visits seen (map (fun e => norm_pixel h w (pix e)) es) in
    exists mask',
      for_each es (fun e '(mask, mask_no, score) =>
        let '(sq_y, sq_x) := pix e in
        m <- get2 mask sq_y sq_x ;;
        if eqb m false then
          v <- get2 data sq_y sq_x ;;
          mask <- set2 mask sq_y sq_x true ;;
          Ok (mask, S mask_no, score + v)
        else Ok (mask, mask_no, score)) (mask, n, s)
      = Ok (mask', (n + length firsts)%nat, s + sum_list (map (px data) firsts)).
Proof.
  induction es as [| e es IH]; intros Hb seen mask n s Hm Hinv firsts.
  - exists mask. cbn. f_equal. f_equal; [f_equal; lia | ring].
  - assert (Hbe : in_bounds h w (pix e)) by (apply Hb; now left).
    destruct (norm_pixel_bound Hbe) as [Hi Hj].
    subst firsts. cbn [for_each map first_visits].
    set (p := norm_pixel h w (pix e)) in *.
    pose proof (get2_norm Hm Hbe) as Hgm. fold p in Hgm.
    pose proof (get2_norm data_rect Hbe) as Hgd. fold p in Hgd.
    pose proof (set2_norm true Hm Hbe) as Hsm. fold p in Hsm.
    destruct (pix e) as [sq_y sq_x]. cbn [fst snd] in Hgm, Hgd, Hsm.
    rewrite Hgm, (Hinv p Hi Hj).
    destruct (seen_in seen p) eqn:Eseen; cbn [bind eqb].
    + apply IH; [intros e' He'; apply Hb; now right | assumption | assumption].
    + rewrite Hgd, Hsm.
      replace (get2 data (Z.of_nat (fst p)) (Z.of_nat (snd p)))
        with (Ok (px data p))
        by (symmetry; destruct p; now apply rect_get2 with (h := h) (w := w)).
      cbn [bind].
      destruct (rect_set2 true Hm Hi Hj) as (mask2 & Hset & Hm2 & Hother).
      rewrite Hset. cbn [bind].
      destruct (IH (fun e' He' => Hb e' (or_intror He')) (p :: seen) mask2
                  (S n) (s + px data p) Hm2) as (mask' & Hrun).
      { intros q Hqi Hqj. rewrite seen_in_cons.
        destruct (pixel_eqb q p) eqn:Eq.
        - apply pixel_eqb_eq in Eq. subst q. cbn [orb].
          exact (@set2_get2_same _ h w mask mask2 (fst p) (snd p) true
                   Hm Hi Hj Hset).
        - cbn [orb]. rewrite Hother; [now apply Hinv |].
          intros E'. assert (q = p) by (destruct q, p; cbn in *; congruence).
          subst q. rewrite (proj2 (pixel_eqb_eq p p) eq_refl) in Eq.
          discriminate. }
      exists mask'. rewrite Hrun. cbn [length map sum_list fold_right].
      f_equal. f_equal; [f_equal; lia | unfold sum_list; ring].
Qed.

End EllipseScan.

Lemma first_visits_spec (l seen : list (nat * nat)) :
  NoDup (first_visits seen l)
  /\ forall p, In p (first_visits seen l) <-> In p l /\ ~ In p seen.
Proof.
  revert seen. induction l as [| q l IH]; intros seen; cbn [first_visits].
  - split; [constructor | intros p; cbn; tauto].
  - destruct (seen_in seen q) eqn:Eq.
    + destruct (IH seen) as [Hnd Hin]. split; [exact Hnd |].
      intros p. rewrite Hin. apply seen_in_spec in Eq. cbn [In].
      split; [tauto |]. intros [[<- | H] Hn]; [contradiction | tauto].
    + destruct (IH (q :: seen)) as [Hnd Hin].
      assert (Hq : ~ In q seen).
      { intros H. apply seen_in_spec in H. congruence. }
      split.
      * constructor; [| exact Hnd]. rewrite Hin. cbn [In]. tauto.
      * intros p. cbn [In]. rewrite Hin. cbn [In].
        destruct (pixel_eq_dec q p) as [<- | Hne]; [tauto |]. tauto.
Qed.

(** [score_ellipse] on a rectangular image that every sample indexes
    validly: the sum of the intensities of the distinct visited pixels,
    each taken once. *)
Lemma score_ellipse_sum (r inc t_rot x_m y_m : R) (data : image) (h w : nat) :
  rect h w data -> (0 < h)%nat ->
  (forall e, In e (Ell r inc 400) ->
     in_bounds h w (ellipse_pixel t_rot x_m y_m e)) ->
  Testplot.score_ellipse r inc t_rot x_m y_m data
  = Ok (sum_list (map (px data) (visited r inc t_rot x_m y_m h w))).
Proof.
  intros Hr Hh Hb. unfold Testplot.score_ellipse.
  rewrite (rect_width Hr Hh). cbn [bind].
  destruct (@score_ellipse_loop_spec _ (ellipse_pixel t_rot x_m y_m) data h w
              Hr (Ell r inc 400) Hb [] (np_full (length data) w false) O 0)
    as (mask' & Hrun).
  - destruct Hr as [-> _]. apply rect_np_full.
  - intros q Hi Hj. destruct Hr as [-> _]. now apply get2_np_full.
  - rewrite Hrun. cbn [bind]. unfold visited.
    rewrite Rplus_0_l. reflexivity.
Qed.

Lemma sum_list_shift (f g : nat * nat -> R) (delta : R) (l : list (nat * nat)) :
  (forall p, In p l -> g p = f p + delta) ->
  sum_list (map g l) = sum_list (map f l) + INR (length l) * delta.
Proof.
  induction l as [| p l IH]; intros H.
  - cbn. ring.
  - cbn [map sum_list fold_right]. fold (sum_list (map g l)).
    fold (sum_list (map f l)).
    rewrite IH by (intros q Hq; apply H; now right).
    rewrite (H p) by now left.
    change (length (p :: l)) with (S (length l)). rewrite S_INR. ring.
Qed.

(** Additive linearity of [score_ellipse]: raising every visited pixel by
    [delta] raises the score by [delta] times the number of distinct
    visited pixels. *)
Lemma score_ellipse_linear (r inc t_rot x_m y_m delta : R)
  (data data' : image) (h w : nat) :
  rect h w data -> rect h w data' -> (0 < h)%nat ->
  (forall e, In e (Ell r inc 400) ->
     in_bounds h w (ellipse_pixel t_rot x_m y_m e)) ->
  (forall p, In p (visited r inc t_rot x_m y_m h w) ->
     px data' p = px data p + delta) ->
  exists s,
    Testplot.score_ellipse r inc t_rot x_m y_m data = Ok s
    /\ Testplot.score_ellipse r inc t_rot x_m y_m data'
       = Ok (s + INR (length (visited r inc t_rot x_m y_m h w)) * delta).
Proof.
  intros Hr Hr' Hh Hb Hshift. eexists. split.
  - now apply score_ellipse_sum with (h := h) (w := w).
  - rewrite (@score_ellipse_sum r inc t_rot x_m y_m data' h w Hr' Hh Hb).
    apply f_equal. now apply sum_list_shift.
Qed.

(* ===================================================================== *)
(** ** Exhaustive search: [e_best] and [a_best]                            *)
(* ===================================================================== *)

Lemma for_each_ext {X S : Type} (xs : list X) (f g : X -> S -> result S) (s : S) :
  (forall x s', In x xs -> f x s' = g x s') -> for_each xs f s = for_each xs g s.
Proof.
  revert s. induction xs as [| x xs IH]; intros s H; cbn [for_each];
    [reflexivity |].
  rewrite (H x s) by now left.
  destruct (g x s) as [s' |]; cbn [bind]; [| reflexivity].
  apply IH. intros y s'' Hy. apply H. now right.
Qed.

Lemma for_each_flat_map {X Y S : Type} (f : X -> list Y) (xs : list X)
  (body : Y -> S -> result S) (s : S) :
  for_each (flat_map f xs) body s
  = for_each xs (fun x s' => for_each (f x) body s') s.
Proof.
  revert s. induction xs as [| x xs IH]; intros s; cbn [flat_map for_each];
    [reflexivity |].
  rewrite for_each_app.
  destruct (for_each (f x) body s) as [s' |]; cbn [bind]; auto.
Qed.

(** Nested loops enumerate the Cartesian product of their ranges. *)
Lemma nest_cart {X S : Type} (ls : list (list X)) (acc : list X)
  (body : list X -> S -> result S) (s : S) :
  nest ls acc body s = for_each (cart ls) (fun t => body (rev acc ++ t)) s.
Proof.
  revert acc s. induction ls as [| l ls IH]; intros acc s; cbn [nest cart].
  - cbn [for_each]. rewrite app_nil_r. destruct (body (rev acc) s); reflexivity.
  - rewrite for_each_flat_map. apply for_each_ext. intros x s' _.
    rewrite for_each_map, IH. apply for_each_ext. intros t s'' _.
    cbn [rev]. now rewrite <- app_assoc.
Qed.

Lemma in_cart {X : Type} (ls : list (list X)) (t : list X) :
  In t (cart ls) <-> Forall2 (fun x l => In x l) t ls.
Proof.
  revert t. induction ls as [| l ls IH]; intros t; cbn [cart].
  - split.
    + intros [<- | []]. constructor.
    + intros H. inversion H. now left.
  - rewrite in_flat_map. split.
    + intros (x & Hx & Ht). apply in_map_iff in Ht as (t' & <- & Ht').
      constructor; [assumption | now apply IH].
    + intros H. inversion H as [| x l' t' ls' Hx Ht']; subst.
      exists x. split; [assumption |]. apply in_map. now apply IH.
Qed.

Lemma NoDup_cart {X : Type} (ls : list (list X)) :
  Forall (@NoDup X) ls -> NoDup (cart ls).
Proof.
  induction ls as [| l ls IH]; intros H; cbn [cart].
  - repeat constructor. intros [].
  - inversion H as [| ? ? Hl Hls]; subst. specialize (IH Hls).
    induction Hl as [| x l Hnotin Hl IHl]; cbn [flat_map]; [constructor |].
    apply NoDup_app.
    + apply NoDup_map_NoDup_ForallPairs; [| exact IH].
      intros t1 t2 _ _ E. now injection E.
    + apply IHl. constructor; [assumption | exact Hls].
    + intros t H1 H2. apply in_map_iff in H1 as (t' & <- & _).
      apply in_flat_map in H2 as (y & Hy & Hin).
      apply in_map_iff in Hin as (t'' & E & _). injection E as -> _.
      contradiction.
Qed.

Lemma in_py_range (a b x : Z) : In x (py_range a b) <-> (a <= x < b)%Z.
Proof.
  unfold py_range. rewrite in_map_iff. split.
  - intros (k & <- & Hk). apply in_seq in Hk. lia.
  - intros H. exists (Z.to_nat (x - a)). split; [lia |]. apply in_seq. lia.
Qed.

Lemma NoDup_py_range (a b : Z) : NoDup (py_range a b).
Proof.
  unfold py_range. apply NoDup_map_NoDup_ForallPairs; [| apply seq_NoDup].
  intros k1 k2 _ _ E. lia.
Qed.

Lemma NoDup_ranges (mins maxs : list Z) : Forall (@NoDup Z) (ranges mins maxs).
Proof.
  revert maxs. induction mins as [| a mins IH]; intros [| b maxs]; cbn [ranges];
    constructor; [apply NoDup_py_range | apply IH].
Qed.

Lemma ravel_lt (shape idx : list nat) :
  Forall2 lt idx shape -> (ravel shape idx < prod_shape shape)%nat.
Proof.
  intros H. induction H as [| i d idx shape Hi _ IH]; cbn [ravel prod_shape fold_right].
  - lia.
  - fold (prod_shape shape). nia.
Qed.

Lemma unravel_ravel (shape idx : list nat) :
  Forall2 lt idx shape -> unravel_index (ravel shape idx) shape = idx.
Proof.
  intros H. induction H as [| i d idx shape Hi Hrest IH];
    cbn [ravel unravel_index]; [reflexivity |].
  pose proof (ravel_lt Hrest) as Hlt.
  assert (Hp : prod_shape shape <> O) by lia.
  rewrite Nat.div_add_l by assumption.
  rewrite Nat.div_small by assumption.
  rewrite (Nat.add_comm (i * prod_shape shape)), Nat.Div0.mod_add,
    Nat.mod_small by assumption.
  rewrite IH. f_equal. lia.
Qed.

Lemma ravel_unravel (shape : list nat) (k : nat) :
  (k < prod_shape shape)%nat ->
  Forall2 lt (unravel_index k shape) shape
  /\ ravel shape (unravel_index k shape) = k.
Proof.
  revert k. induction shape as [| d ds IH]; intros k Hk;
    cbn [unravel_index ravel prod_shape fold_right] in *.
  - split; [constructor | lia].
  - fold (prod_shape ds) in *.
    assert (Hp : prod_shape ds <> O) by nia.
    destruct (IH (k mod prod_shape ds)%nat) as [Hin Hrav].
    { now apply Nat.mod_upper_bound. }
    split.
    + constructor; [| exact Hin].
      apply Nat.Div0.div_lt_upper_bound. lia.
    + rewrite Hrav. pose proof (Nat.div_mod_eq k (prod_shape ds)). lia.
Qed.

(** The offset computed for a multi-index whose entries are in range. *)
Lemma nd_offset_in_range (shape : list nat) (idx : list Z) (acc : nat) :
  Forall2 (fun k d => (0 <= k < Z.of_nat d)%Z) idx shape ->
  nd_offset shape idx acc
  = Ok (acc * prod_shape shape + ravel shape (map Z.to_nat idx))%nat.
Proof.
  intros H. revert acc.
  induction H as [| k d idx shape Hk _ IH]; intros acc;
    cbn [nd_offset ravel map prod_shape fold_right].
  - f_equal. lia.
  - fold (prod_shape shape).
    rewrite <- (Z2Nat.id k) at 1 by lia.
    rewrite np_index_nat by lia. cbn [bind]. rewrite IH. f_equal. ring.
Qed.

Lemma nth_list_set_eq (l : list R) (p : nat) (v d : R) :
  (p < length l)%nat -> nth p (list_set l p v) d = v.
Proof.
  intros H. apply nth_error_nth. now apply nth_error_list_set_eq.
Qed.

Lemma nth_list_set_neq (l : list R) (p q : nat) (v d : R) :
  p <> q -> nth q (list_set l p v) d = nth q l d.
Proof.
  revert p q. induction l as [| h t IH]; intros [| p] [| q] H; cbn;
    try reflexivity; try congruence.
  apply IH. congruence.
Qed.

(** A loop that stores [val t] at flat position [off t] of a score array
    for every tuple [t]: distinct tuples have distinct positions, so each
    position holds the value of its tuple at the end. *)
Lemma nd_fill {T : Type} (shape : list nat) (off : T -> nat) (val : T -> R)
  (body : T -> ndarray -> result ndarray) (ts : list T) :
  NoDup (map off ts) ->
  (forall t, In t ts -> (off t < prod_shape shape)%nat) ->
  (forall t a, In t ts -> nd_shape a = shape ->
     body t a = Ok (mk_nd shape (list_set (nd_flat a) (off t) (val t)))) ->
  forall a, nd_shape a = shape -> length (nd_flat a) = prod_shape shape ->
  exists a',
    for_each ts body a = Ok a'
    /\ nd_shape a' = shape
    /\ length (nd_flat a') = prod_shape shape
    /\ (forall t, In t ts -> nth (off t) (nd_flat a') 0 = val t)
    /\ (forall o, ~ In o (map off ts) -> nth o (nd_flat a') 0 = nth o (nd_flat a) 0).
Proof.
  induction ts as [| t ts IH]; intros Hnd Hoff Hbody a Hsh Hlen.
  - exists a. cbn [for_each].
    split; [reflexivity | split; [exact Hsh | split; [exact Hlen | split]]];
      [intros t [] | reflexivity].
  - cbn [map] in Hnd. apply NoDup_cons_iff in Hnd as [Hnotin Hnd'].
    cbn [for_each]. rewrite (Hbody t a (or_introl eq_refl) Hsh). cbn [bind].
    destruct (IH Hnd' (fun t' H' => Hoff t' (or_intror H'))
                (fun t' b H' => Hbody t' b (or_intror H'))
                (mk_nd shape (list_set (nd_flat a) (off t) (val t))))
      as (a' & Hrun & Hsh' & Hlen' & Hval & Hkeep).
    { reflexivity. }
    { cbn [nd_flat]. now rewrite length_list_set. }
    exists a'. split; [exact Hrun | split; [exact Hsh' | split; [exact Hlen' |]]].
    cbn [nd_flat] in Hkeep. split.
    + intros t' [<- | Ht'].
      * rewrite (Hkeep (off t) Hnotin). apply nth_list_set_eq.
        rewrite Hlen. apply Hoff. now left.
      * now apply Hval.
    + intros o Ho. cbn [map In] in Ho.
      rewrite Hkeep by tauto. apply nth_list_set_neq. tauto.
Qed.

(** [argmax_from] returns a position of a largest entry. *)
Lemma argmax_from_spec (l : list R) (pos best_pos : nat) (best : R) :
  let k := argmax_from l pos best_pos best in
  (k = best_pos /\ forall x, In x l -> x <= best)
  \/ (exists i, (i < length l)%nat /\ k = (pos + i)%nat
                /\ best <= nth i l 0 /\ forall x, In x l -> x <= nth i l 0).
Proof.
  revert pos best_pos best.
  induction l as [| x l IH]; intros pos best_pos best; cbn [argmax_from].
  - left. split; [reflexivity | intros x []].
  - unfold Rltb. destruct (Rlt_dec best x) as [Hlt | Hge].
    + destruct (IH (S pos) pos x) as [[Hk Hall] | (i & Hi & Hk & Hb & Hall)].
      * right. exists O. cbn [length nth].
        split; [lia | split; [lia | split; [lra |]]].
        intros y [<- | Hy]; [lra | now apply Hall].
      * right. exists (S i). cbn [length nth].
        split; [lia | split; [lia | split; [lra |]]].
        intros y [<- | Hy]; [lra | now apply Hall].
    + destruct (IH (S pos) best_pos best) as [[Hk Hall] | (i & Hi & Hk & Hb & Hall)].
      * left. split; [exact Hk |].
        intros y [<- | Hy]; [lra | now apply Hall].
      * right. exists (S i). cbn [length nth].
        split; [lia | split; [lia | split; [lra |]]].
        intros y [<- | Hy]; [lra | now apply Hall].
Qed.

Lemma argmax_spec (a : ndarray) :
  nd_flat a <> [] ->
  exists k, argmax a = Ok k /\ (k < length (nd_flat a))%nat
            /\ forall j, (j < length (nd_flat a))%nat ->
                 nth j (nd_flat a) 0 <= nth k (nd_flat a) 0.
Proof.
  intros Hne. unfold argmax. destruct (nd_flat a) as [| x l]; [congruence |].
  eexists. split; [reflexivity |].
  destruct (argmax_from_spec l 1 0 x) as [[-> Hall] | (i & Hi & -> & Hb & Hall)].
  - split; [cbn; lia |]. intros [| j] Hj; cbn [nth]; [lra |].
    apply Hall, nth_In. cbn in Hj. lia.
  - split; [cbn; lia |]. intros [| j] Hj; cbn [nth Nat.add]; [lra |].
    apply Hall, nth_In. cbn in Hj. lia.
Qed.

Lemma box_index_in_range (mins maxs t : list Z) :
  In t (box mins maxs) ->
  Forall2 (fun k d => (0 <= k < Z.of_nat d)%Z)
          (sub_list t mins) (box_shape mins maxs).
Proof.
  unfold box, box_shape. revert maxs t.
  induction mins as [| a mins' IH]; intros [| b maxs'] t Ht;
    cbn [ranges cart sub_list map] in *.
  - destruct Ht as [<- | []]. constructor.
  - destruct Ht as [<- | []]. constructor.
  - destruct Ht as [<- | []]. constructor.
  - apply in_flat_map in Ht as (x & Hx & Ht).
    apply in_map_iff in Ht as (t' & <- & Ht'). apply in_py_range in Hx.
    cbn [sub_list]. constructor; [lia |]. now apply IH.
Qed.

Lemma box_index_lt (mins maxs t : list Z) :
  In t (box mins maxs) ->
  Forall2 lt (map Z.to_nat (sub_list t mins)) (box_shape mins maxs).
Proof.
  intros Ht. pose proof (box_index_in_range mins maxs t Ht) as H.
  induction H; cbn [map]; constructor; [lia | assumption].
Qed.

Lemma box_recover (mins maxs t : list Z) :
  In t (box mins maxs) -> add_list (map Z.to_nat (sub_list t mins)) mins = t.
Proof.
  unfold box. revert maxs t.
  induction mins as [| a mins' IH]; intros [| b maxs'] t Ht;
    cbn [ranges cart] in *.
  - destruct Ht as [<- | []]. reflexivity.
  - destruct Ht as [<- | []]. reflexivity.
  - destruct Ht as [<- | []]. reflexivity.
  - apply in_flat_map in Ht as (x & Hx & Ht).
    apply in_map_iff in Ht as (t' & <- & Ht'). apply in_py_range in Hx.
    cbn [sub_list map add_list]. f_equal; [lia |].
    now apply IH with (maxs := maxs').
Qed.

Lemma box_of_index (mins maxs : list Z) (cs : list nat) :
  Forall2 lt cs (box_shape mins maxs) ->
  In (add_list cs mins) (box mins maxs)
  /\ map Z.to_nat (sub_list (add_list cs mins) mins) = cs.
Proof.
  unfold box, box_shape. revert maxs cs.
  induction mins as [| a mins' IH]; intros [| b maxs'] cs Hcs;
    cbn [ranges cart sub_list map] in *;
    inversion Hcs as [| c d cs' ds Hc Hcs' E1 E2]; subst.
  - split; [now left | reflexivity].
  - split; [now left | reflexivity].
  - split; [now left | reflexivity].
  - destruct (IH maxs' cs' Hcs') as [Hin Hmap].
    cbn [add_list sub_list map]. split.
    + apply in_flat_map. exists (Z.of_nat c + a)%Z. split.
      * apply in_py_range. lia.
      * now apply in_map.
    + f_equal; [lia | exact Hmap].
Qed.

Lemma box_off_injective (mins maxs t t' : list Z) :
  In t (box mins maxs) -> In t' (box mins maxs) ->
  box_off mins maxs t = box_off mins maxs t' -> t = t'.
Proof.
  intros Ht Ht' E. unfold box_off in E.
  rewrite <- (box_recover mins maxs t Ht), <- (box_recover mins maxs t' Ht').
  rewrite <- (unravel_ravel (box_index_lt mins maxs t Ht)),
          <- (unravel_ravel (box_index_lt mins maxs t' Ht')).
  now rewrite E.
Qed.

Lemma box_shape_positive (mins maxs : list Z) :
  Forall2 Z.lt mins maxs -> (0 < prod_shape (box_shape mins maxs))%nat.
Proof.
  unfold box_shape. intros H.
  induction H as [| a b mins' maxs' Hab _ IH];
    cbn [sub_list map prod_shape fold_right]; [lia |].
  fold (prod_shape (map Z.to_nat (sub_list maxs' mins'))). nia.
Qed.

(** The core of the exhaustive searches: the nested loops fill the score
    array, and the tuple decoded from the position of its maximum lies in
    the box and scores at least as much as every tuple of the box. *)
Lemma grid_search_core (mins maxs : list Z) (score : list Z -> result R) :
  Forall2 Z.lt mins maxs ->
  (forall t, In t (box mins maxs) -> exists v, score t = Ok v) ->
  let shape := box_shape mins maxs in
  exists a' k,
    nest (ranges mins maxs) []
         (fun t score_list =>
            this_score <- score t ;;
            nd_set score_list (sub_list t mins) this_score)
         (mk_nd shape (repeat 0 (prod_shape shape))) = Ok a'
    /\ nd_shape a' = shape
    /\ argmax a' = Ok k
    /\ Forall2 lt (unravel_index k shape) shape
    /\ In (add_list (unravel_index k shape) mins) (box mins maxs)
    /\ forall t, In t (box mins maxs) ->
         value_of (score t)
         <= value_of (score (add_list (unravel_index k shape) mins)).
Proof.
  intros nonempty scores shape.
  pose proof (box_shape_positive nonempty) as Hpos. fold shape in Hpos.
  destruct (@nd_fill (list Z) shape (box_off mins maxs)
              (fun t => value_of (score t))
              (fun t score_list =>
                 this_score <- score t ;;
                 nd_set score_list (sub_list t mins) this_score)
              (box mins maxs))
    with (a := mk_nd shape (repeat 0 (prod_shape shape)))
    as (a' & Hrun & Hsh & Hlen & Hval & _).
  - apply NoDup_map_NoDup_ForallPairs.
    + intros t t' Ht Ht' E.
      exact (@box_off_injective mins maxs t t' Ht Ht' E).
    + apply NoDup_cart, NoDup_ranges.
  - intros t Ht. unfold box_off. apply ravel_lt. now apply box_index_lt.
  - intros t a Ht Ha. destruct (scores t Ht) as (v & Hv). rewrite Hv.
    cbn [bind value_of]. unfold nd_set. rewrite Ha.
    unfold shape.
    rewrite (nd_offset_in_range 0 (box_index_in_range mins maxs t Ht)).
    reflexivity.
  - reflexivity.
  - cbn [nd_flat]. apply repeat_length.
  - destruct (@argmax_spec a') as (k & Hk & Hklt & Hmax).
    { intros E. rewrite E in Hlen. cbn in Hlen. lia. }
    rewrite Hlen in Hklt, Hmax.
    destruct (ravel_unravel shape Hklt) as [Hin Hrav].
    destruct (box_of_index mins maxs Hin) as [Hbest Hidx].
    exists a', k. rewrite nest_cart. cbn [rev app].
    split; [exact Hrun | split; [exact Hsh | split; [exact Hk |]]].
    split; [exact Hin | split; [exact Hbest |]].
    intros t Ht.
    rewrite <- (Hval t Ht), <- (Hval _ Hbest).
    assert (Hoff : box_off mins maxs (add_list (unravel_index k shape) mins) = k).
    { unfold box_off. rewrite Hidx. exact Hrav. }
    rewrite Hoff. apply Hmax.
    unfold box_off. apply ravel_lt. now apply box_index_lt.
Qed.

Lemma np_zeros_box (mins maxs : list Z) :
  Forall2 Z.lt mins maxs ->
  np_zeros (sub_list maxs mins)
  = Ok (mk_nd (box_shape mins maxs) (repeat 0 (prod_shape (box_shape mins maxs)))).
Proof.
  intros H. unfold np_zeros.
  replace (forallb (fun d => (0 <=? d)%Z) (sub_list maxs mins)) with true;
    [reflexivity |].
  symmetry. induction H as [| a b mins' maxs' Hab _ IH]; cbn [sub_list forallb];
    [reflexivity |].
  rewrite IH. destruct (Z.leb_spec 0 (b - a)); [reflexivity | lia].
Qed.

(** X23.  [a_best] returns a combination of the box whose score is the
    largest of the box, whenever every range is non-empty and [a_score]
    returns on every combination. *)
Lemma a_best_optimal
  (r_min r_max th_min th_max inc_min inc_max rot_min rot_max
   x_m_min x_m_max y_m_min y_m_max : Z) (data : image) :
  let mins := [r_min; th_min; inc_min; rot_min; x_m_min; y_m_min] in
  let maxs := [r_max; th_max; inc_max; rot_max; x_m_max; y_m_max] in
  let score (t : list Z) :=
    match t with
    | [r; th; inc; rot; x_m; y_m] =>
        a_score (IZR r) (IZR th) (IZR inc) (IZR rot) (IZR x_m) (IZR y_m) data
    | _ => Raise IndexError
    end in
  Forall2 Z.lt mins maxs ->
  (forall t, In t (box mins maxs) -> exists v, score t = Ok v) ->
  exists r th inc rot x_m y_m v,
    a_best r_min r_max th_min th_max inc_min inc_max rot_min rot_max
           x_m_min x_m_max y_m_min y_m_max data
      = Ok (r, th, inc, rot, x_m, y_m)
    /\ In [r; th; inc; rot; x_m; y_m] (box mins maxs)
    /\ score [r; th; inc; rot; x_m; y_m] = Ok v
    /\ forall t v', In t (box mins maxs) -> score t = Ok v' -> v' <= v.
Proof.
  intros mins maxs score Hne Hscores.
  destruct (grid_search_core score Hne Hscores)
    as (a' & k & Hrun & Hsh & Hk & _ & Hbest & Hmax).
  unfold a_best.
  change [r_max - r_min; th_max - th_min; inc_max - inc_min; rot_max - rot_min;
          x_m_max - x_m_min; y_m_max - y_m_min]%Z with (sub_list maxs mins).
  rewrite (np_zeros_box Hne). cbn [bind].
  match goal with
  | |- context [bind (for_each ?l ?f ?s) _] =>
      change (for_each l f s)
        with (nest (ranges mins maxs) []
                (fun t score_list =>
                   this_score <- score t ;;
                   nd_set score_list (sub_list t mins) this_score) s)
  end.
  rewrite Hrun. cbn [bind]. rewrite Hk. cbn [bind]. rewrite Hsh.
  assert (Hcs : exists c0 c1 c2 c3 c4 c5,
             unravel_index k (box_shape mins maxs) = [c0; c1; c2; c3; c4; c5]).
  { unfold box_shape, maxs, mins. cbn [sub_list map unravel_index].
    do 6 eexists. reflexivity. }
  destruct Hcs as (c0 & c1 & c2 & c3 & c4 & c5 & Ecs).
  rewrite Ecs in *. unfold mins in Hbest at 1. unfold mins in Hmax at 2.
  cbn [add_list] in Hbest, Hmax.
  destruct (Hscores _ Hbest) as (v & Hv).
  do 6 eexists. exists v.
  split; [reflexivity | split; [exact Hbest | split; [exact Hv |]]].
  intros t v' Ht Hv'. specialize (Hmax t Ht).
  rewrite Hv', Hv in Hmax. exact Hmax.
Qed.

(** X24.  [e_best] returns a combination of the box whose score is the
    largest of the box, whenever every range is non-empty and [e_score]
    returns on every combination. *)
Lemma e_best_optimal
  (r_min r_max inc_min inc_max rot_min rot_max
   x_m_min x_m_max y_m_min y_m_max : Z) (data : image) :
  let mins := [r_min; inc_min; rot_min; x_m_min; y_m_min] in
  let maxs := [r_max; inc_max; rot_max; x_m_max; y_m_max] in
  let score (t : list Z) :=
    match t with
    | [r; inc; rot; x_m; y_m] =>
        e_score (IZR r) (IZR inc) (IZR rot) (IZR x_m) (IZR y_m) data
    | _ => Raise IndexError
    end in
  Forall2 Z.lt mins maxs ->
  (forall t, In t (box mins maxs) -> exists v, score t = Ok v) ->
  exists r inc rot x_m y_m v,
    e_best r_min r_max inc_min inc_max rot_min rot_max
           x_m_min x_m_max y_m_min y_m_max data
      = Ok (r, inc, rot, x_m, y_m)
    /\ In [r; inc; rot; x_m; y_m] (box mins maxs)
    /\ score [r; inc; rot; x_m; y_m] = Ok v
    /\ forall t v', In t (box mins maxs) -> score t = Ok v' -> v' <= v.
Proof.
  intros mins maxs score Hne Hscores.
  destruct (grid_search_core score Hne Hscores)
    as (a' & k & Hrun & Hsh & Hk & _ & Hbest & Hmax).
  unfold e_best.
  change [r_max - r_min; inc_max - inc_min; rot_max - rot_min;
          x_m_max - x_m_min; y_m_max - y_m_min]%Z with (sub_list maxs mins).
  rewrite (np_zeros_box Hne). cbn [bind].
  match goal with
  | |- context [bind (for_each ?l ?f ?s) _] =>
      change (for_each l f s)
        with (nest (ranges mins maxs) []
                (fun t score_list =>
                   this_score <- score t ;;
                   nd_set score_list (sub_list t mins) this_score) s)
  end.
  rewrite Hrun. cbn [bind]. rewrite Hk. cbn [bind]. rewrite Hsh.
  assert (Hcs : exists c0 c1 c2 c3 c4,
             unravel_index k (box_shape mins maxs) = [c0; c1; c2; c3; c4]).
  { unfold box_shape, maxs, mins. cbn [sub_list map unravel_index].
    do 5 eexists. reflexivity. }
  destruct Hcs as (c0 & c1 & c2 & c3 & c4 & Ecs).
  rewrite Ecs in *. unfold mins in Hbest at 1. unfold mins in Hmax at 2.
  cbn [add_list] in Hbest, Hmax.
  destruct (Hscores _ Hbest) as (v & Hv).
  do 5 eexists. exists v.
  split; [reflexivity | split; [exact Hbest | split; [exact Hv |]]].
  intros t v' Ht Hv'. specialize (Hmax t Ht).
  rewrite Hv', Hv in Hmax. exact Hmax.
Qed.

(** Membership in a six-parameter box, range by range. *)
Lemma in_box_6 (a1 a2 a3 a4 a5 a6 b1 b2 b3 b4 b5 b6 x1 x2 x3 x4 x5 x6 : Z) :
  In [x1; x2; x3; x4; x5; x6]
     (box [a1; a2; a3; a4; a5; a6] [b1; b2; b3; b4; b5; b6])
  <-> (a1 <= x1 < b1 /\ a2 <= x2 < b2 /\ a3 <= x3 < b3
       /\ a4 <= x4 < b4 /\ a5 <= x5 < b5 /\ a6 <= x6 < b6)%Z.
Proof.
  unfold box. rewrite in_cart. cbn [ranges]. split.
  - intros H. repeat match goal with
      | H : Forall2 _ (_ :: _) (_ :: _) |- _ =>
          apply Forall2_cons_iff in H; destruct H as [?%in_py_range H]
      end.
    tauto.
  - intros H. repeat (constructor; [apply in_py_range; tauto |]). constructor.
Qed.

(** With [th] and [inc] ranges of different sizes the transposed store of
    [best_annulus] leaves the array: here [th] has two values and [inc]
    one, and the store for [th = 2] indexes the [inc] axis at 1. *)
Lemma best_annulus_index_error :
  let g := mk_globals (spot (-1)) in
  Testplot.best_annulus g 1 2 1 3 0 1 0 1 0 1 0 1 (spot (-1)) = Raise IndexError.
Proof.
  intros g.
  assert (H1 : Testplot.score_annulus g 1 1 0 0 0 0 (spot (-1)) = Ok (-1)).
  { rewrite score_annulus_inner_pixel with (h := 282%nat) (w := 282%nat);
      [reflexivity | apply rect_spot | lia | lia
       | apply cos_radians_0_bounds | lra | lra]. }
  assert (H2 : Testplot.score_annulus g 1 2 0 0 0 0 (spot (-1)) = Ok 0).
  { apply score_annulus_nothing; [discriminate | lra]. }
  unfold Testplot.best_annulus.
  change (np_zeros [2 - 1; 3 - 1; 1 - 0; 1 - 0; 1 - 0; 1 - 0]%Z)
    with (Ok (mk_nd [1; 2; 1; 1; 1; 1]%nat [0; 0])).
  cbn [bind].
  change (py_range 1 2) with [1%Z].
  change (py_range 1 3) with [1%Z; 2%Z].
  change (py_range 0 1) with [0%Z].
  cbn [for_each bind].
  rewrite H1. cbn [bind].
  change (nd_set (mk_nd [1; 2; 1; 1; 1; 1]%nat [0; 0])
            [1 - 1; 0 - 0; 1 - 1; 0 - 0; 0 - 0; 0 - 0]%Z (-1))
    with (Ok (mk_nd [1; 2; 1; 1; 1; 1]%nat [-1; 0])).
  cbn [bind]. rewrite H2. cbn [bind]. reflexivity.
Qed.

(** A loop stops with the exception of the first iteration that raises. *)
Lemma for_each_raise_at {X S : Type} (pre post : list X) (x : X)
  (body : X -> S -> result S) (s : S) (e : exn) :
  (forall y, In y pre -> body y s = Ok s) ->
  body x s = Raise e ->
  for_each (pre ++ x :: post) body s = Raise e.
Proof.
  intros Hpre Hx. rewrite for_each_app, for_each_skip by assumption.
  cbn [bind for_each]. rewrite Hx. reflexivity.
Qed.

(** [a_score] scans the fixed 282 x 282 grid: on a one-pixel image, a ring
    of radius 5 around pixel (0,0) reaches the scanned pixel (0,5), which
    the image does not have. *)
Lemma a_score_small_image_index_error (v : R) :
  a_score 5 2 0 0 0 0 [[v]] = Raise IndexError.
Proof.
  unfold a_score.
  change (width [[v]]) with (Ok (A := nat) 1%nat). cbn [bind length].
  destruct (Rlt_dec 2 1) as [Hlt | _]; [lra |].
  change (range 282) with ([] ++ O :: seq 1 281) at 1.
  rewrite for_each_raise_at with (e := IndexError); [reflexivity | intros y [] |].
  change (range 282) with ([0; 1; 2; 3; 4] ++ 5 :: seq 6 276)%nat.
  apply for_each_raise_at.
  - intros j Hj. rewrite (a_z_axis 0 j). cbn [nan_gt nan_lt].
    rewrite Rltb_false; [reflexivity |].
    replace (5 - 2 / 2) with (sqrt (4 * 4)) by (rewrite sqrt_square; lra).
    apply sqrt_le_1_alt.
    assert (Hle : INR j <= 4).
    { replace 4 with (INR 4) by (cbn [INR]; ring). apply le_INR.
      cbn [In] in Hj. lia. }
    pose proof (pos_INR j). cbn [INR]. nra.
  - rewrite (a_z_axis 0 5). cbn [nan_gt nan_lt].
    replace (sqrt (INR 0 ^ 2 + INR 5 ^ 2)) with 5.
    + rewrite !Rltb_true by lra. cbn [andb]. reflexivity.
    + replace (INR 0 ^ 2 + INR 5 ^ 2) with (5 * 5) by (cbn [INR]; ring).
      symmetry. apply sqrt_square. lra.
Qed.

(** C5.  [a_score] scans [range(0, 282) x range(0, 282)] whatever the
    image: on the one-pixel image [[7]] with [r = 5] and [th = 2] (no
    clamp), the only pixel of the image has [z = 0] and does not satisfy
    [r - th/2 < z < r + th/2], so no pixel of the image is in the band;
    yet [a_score] does not return 0: it raises [IndexError] at the scanned
    position (0,5), where [z = 5]. *)
Theorem a_score_empty_band_small_image :
  let data : image := [[7]] in
  (forall i j, (i < length data)%nat -> (j < 1)%nat ->
     a_in_band 5 2 0 0 0 0 i j = false)
  /\ clamp_th 2 = 2
  /\ a_score 5 2 0 0 0 0 data = Raise IndexError.
Proof.
  intros data. split; [| split].
  - intros i j Hi Hj. cbn [data length] in Hi.
    replace i with O by lia. replace j with O by lia.
    unfold a_in_band. rewrite a_z_axis_origin. cbn [nan_gt nan_lt].
    rewrite Rltb_false by lra. reflexivity.
  - apply clamp_th_ge_1. lra.
  - exact (a_score_small_image_index_error 7).
Qed.

(* ===================================================================== *)
(** ** Further properties of the coordinate transform and of the maps      *)
(* ===================================================================== *)

Lemma radians_plus (a b : R) : radians (a + b) = radians a + radians b.
Proof. unfold radians. ring. Qed.

Lemma radians_360 : radians 360 = 2 * INR 1 * PI.
Proof. unfold radians. cbn [INR]. field. Qed.

(** X1.  [rotate] is periodic in the angle with period 360 degrees. *)
Theorem rotate_periodic (i j x_m y_m rot : R) :
  rotate i j x_m y_m (rot + 360) = rotate i j x_m y_m rot.
Proof.
  unfold rotate.
  rewrite radians_plus, radians_360, cos_period, sin_period. reflexivity.
Qed.

(** X2.  Rotations compose: rotating the result of [rotate] about the
    origin by a further angle [b] is [rotate] by the sum of the angles; in
    particular the opposite angle gives back the offset from the centre. *)
Theorem rotate_compose (i j x_m y_m a b : R) :
  (let '(x, y) := rotate i j x_m y_m a in rotate x y 0 0 b)
    = rotate i j x_m y_m (a + b)
  /\ (let '(x, y) := rotate i j x_m y_m a in rotate x y 0 0 (- a))
    = (i - x_m, j - y_m).
Proof.
  assert (H : forall c,
             (let '(x, y) := rotate i j x_m y_m a in rotate x y 0 0 c)
             = rotate i j x_m y_m (a + c)).
  { intros c. unfold rotate.
    rewrite radians_plus, cos_plus, sin_plus. f_equal; ring. }
  split; [apply H |].
  rewrite H. replace (a + - a) with 0 by ring.
  unfold rotate. rewrite radians_0, cos_0, sin_0. f_equal; ring.
Qed.

Lemma px_map_entries (f : R -> R) (data : image) (i j : nat) (row : list R) :
  nth_error data i = Some row -> (j < length row)%nat ->
  px (map (map f) data) (i, j) = f (px data (i, j)).
Proof.
  intros Hrow Hj. unfold px. cbn [fst snd].
  assert (Hrow' : nth_error (map (map f) data) i = Some (map f row)).
  { rewrite nth_error_map, Hrow. reflexivity. }
  rewrite (nth_error_nth _ _ _ Hrow), (nth_error_nth _ _ _ Hrow').
  rewrite nth_indep with (d' := f 0) by now rewrite length_map.
  apply map_nth.
Qed.

Lemma arcsinh_pos (x : R) : 0 < x -> 0 < arcsinh x.
Proof. intros H. rewrite <- arcsinh_0. now apply arcsinh_lt. Qed.

(** X3.  For a positive [beta] and [vl < vu], [hyperbolic] sends the lower
    limit to 0 and the upper limit to 1, is strictly increasing in the data
    value, and is applied to every entry of the array. *)
Theorem hyperbolic_scaling (beta vu vl : R) :
  0 < beta -> vl < vu ->
  hyperbolic_px vl beta vu vl = 0
  /\ hyperbolic_px vu beta vu vl = 1
  /\ (forall x y, x < y ->
        hyperbolic_px x beta vu vl < hyperbolic_px y beta vu vl)
  /\ (forall data i j row,
        nth_error data i = Some row -> (j < length row)%nat ->
        px (hyperbolic data beta vu vl) (i, j)
        = hyperbolic_px (px data (i, j)) beta vu vl).
Proof.
  intros Hb Hv.
  assert (Hden : 0 < arcsinh ((vu - vl) / beta)).
  { apply arcsinh_pos. apply Rdiv_lt_0_compat; lra. }
  unfold hyperbolic_px. split; [| split; [| split]].
  - replace ((vl - vl) / beta) with 0 by (field; lra).
    rewrite arcsinh_0. field. lra.
  - field. lra.
  - intros x y Hxy. apply Rmult_lt_compat_r; [now apply Rinv_0_lt_compat |].
    apply arcsinh_lt. apply Rmult_lt_compat_r; [now apply Rinv_0_lt_compat | lra].
  - intros data i j row Hrow Hj. unfold hyperbolic.
    now apply px_map_entries with (row := row).
Qed.

(** An instance: the scaling of [testplot.py] ([beta = 10]) between 2 and
    30. *)
Lemma hyperbolic_scaling_witness :
  0 < 10 /\ 2 < 30 /\ hyperbolic_px 30 10 30 2 = 1.
Proof.
  split; [lra | split; [lra |]].
  apply (hyperbolic_scaling (beta := 10) (vu := 30) (vl := 2)); lra.
Defined.

(** The exponent of the Gaussian profile is never positive. *)
Lemma gauss_kernel_bounds (rho r th : R) :
  th <> 0 -> 0 < gauss_kernel rho r th <= 1.
Proof.
  intros Hth. unfold gauss_kernel. split; [apply exp_pos |].
  rewrite <- exp_0.
  assert (Hden : 0 < 2 * (th / 2) ^ 2).
  { assert (th / 2 <> 0) by lra.
    assert (0 < (th / 2) ^ 2) by nra.
    lra. }
  assert (Hexp : - (rho - r) ^ 2 / (2 * (th / 2) ^ 2) <= 0).
  { unfold Rdiv. rewrite <- Ropp_mult_distr_l.
    apply Ropp_le_cancel. rewrite Ropp_involutive, Ropp_0.
    apply Rmult_le_pos; [apply pow2_ge_0 |].
    apply Rlt_le. now apply Rinv_0_lt_compat. }
  destruct Hexp as [Hlt | ->]; [| lra].
  apply Rlt_le. now apply exp_increasing.
Qed.

(** X4.  With a float [back], a non-negative peak brightness [surf] and a
    non-zero thickness, every pixel of [test_map] lies between [back] and
    [back + surf], and a pixel whose deprojected radius is exactly [r]
    reaches [back + surf]. *)
Theorem test_map_bounds (r th inc rot x_m y_m surf back : R) (size : nat) :
  0 <= surf -> th <> 0 ->
  exists m,
    test_map r th inc rot x_m y_m surf (PyFloat back) size = Ok m
    /\ forall i j, (i < size)%nat -> (j < size)%nat ->
         back <= px m (i, j) <= back + surf
         /\ (test_map_R inc rot x_m y_m i j = r -> px m (i, j) = back + surf).
Proof.
  intros Hs Hth. eexists. split; [apply test_map_cells |].
  intros i j Hi Hj. rewrite px_map_map by assumption. cbn [store_as scalar_val].
  rewrite test_map_px_kernel.
  pose proof (gauss_kernel_bounds (test_map_R inc rot x_m y_m i j) r Hth)
    as [Hk0 Hk1].
  split; [split; nra |].
  intros ->. unfold gauss_kernel.
  replace (- (r - r) ^ 2 / (2 * (th / 2) ^ 2)) with 0 by (field; lra).
  rewrite exp_0. ring.
Qed.

(** An instance: the map of side 2 for [r = 1], [th = 2] at inclination 60
    degrees, with background 4 and peak brightness 3. *)
Lemma test_map_bounds_witness :
  exists m,
    test_map 1 2 60 0 0 0 3 (PyFloat 4) 2 = Ok m
    /\ forall i j, (i < 2)%nat -> (j < 2)%nat ->
         4 <= px m (i, j) <= 4 + 3
         /\ (test_map_R 60 0 0 0 i j = 1 -> px m (i, j) = 4 + 3).
Proof.
  apply (@test_map_bounds 1 2 60 0 0 0 3 4 2); lra.
Defined.

(** X5.  Without azimuthal modulation ([surf_theta = 0]) [test_map_mie] is
    [test_map] with peak brightness [surf_0], for an integer as for a
    float [back]. *)
Theorem test_map_mie_without_modulation
  (r th inc rot x_m y_m surf_0 theta_max : R) (back : scalar) (size : nat) :
  test_map_mie r th inc rot x_m y_m surf_0 0 theta_max back size
  = test_map r th inc rot x_m y_m surf_0 back size.
Proof.
  rewrite test_map_mie_cells, test_map_cells. apply f_equal.
  apply map_ext. intros i. apply map_ext. intros j. apply f_equal.
  unfold test_map_mie_px, test_map_px.
  destruct (rotate (INR i) (INR j) x_m y_m rot) as [x y].
  rewrite Rmult_0_l, Rplus_0_r. reflexivity.
Qed.

(** X6.  With asymmetry [g = 0] the Henyey-Greenstein factor of [hg_map] is
    the constant [1 / (4 pi)]: every pixel is
    [back + surf / (4 pi) * exp (-(R - r)^2 / (2 (th/2)^2))]. *)
Theorem hg_map_isotropic (r th inc rot x_m y_m surf back : R) (size i j : nat) :
  (i < size)%nat -> (j < size)%nat ->
  exists m,
    hg_map r th inc rot x_m y_m 0 surf back size = Ok m
    /\ px m (i, j)
       = back + surf / (4 * PI)
                * gauss_kernel (hg_map_R inc rot x_m y_m i j) r th.
Proof.
  intros Hi Hj. eexists. split; [apply hg_map_cells |].
  rewrite px_map_map by assumption.
  unfold hg_map_px, hg_map_R, gauss_kernel.
  destruct (rotate (INR i) (INR j) x_m y_m rot) as [x y].
  match goal with |- context [Rpower ?b 1.5] =>
    replace (Rpower b 1.5) with 1 end.
  - pose proof PI_RGT_0. f_equal. f_equal. field. lra.
  - match goal with |- 1 = Rpower ?b _ => replace b with 1 by ring end.
    unfold Rpower. rewrite ln_1, Rmult_0_r, exp_0. reflexivity.
Qed.

(** An instance: pixel (1,0) of a map of side 2. *)
Lemma hg_map_isotropic_witness :
  exists m,
    hg_map 1 2 60 0 0 0 0 3 4 2 = Ok m
    /\ px m (1%nat, O)
       = 4 + 3 / (4 * PI) * gauss_kernel (hg_map_R 60 0 0 0 1 0) 1 2.
Proof.
  apply (@hg_map_isotropic 1 2 60 0 0 0 3 4 2 1 0); lia.
Defined.

(* ===================================================================== *)
(** ** [cut]                                                               *)
(* ===================================================================== *)

Lemma for_each_cond {X S : Type} (t : X -> bool) (body body' : X -> S -> result S)
  (l : list X) (s : S) :
  (forall x s', body x s' = if t x then body' x s' else Ok s') ->
  for_each l body s = for_each (filter t l) body' s.
Proof.
  intros H. revert s. induction l as [| x l IH]; intros s; cbn [for_each filter];
    [reflexivity |].
  rewrite H. destruct (t x); cbn [for_each bind].
  - destruct (body' x s); cbn [bind]; auto.
  - apply IH.
Qed.

Lemma cut_unfold (r inc rot x_m y_m val : R) (data : image) :
  cut r inc rot x_m y_m val data
  = (w <- width data ;;
     for_each (filter (cut_inside r inc rot x_m y_m) (grid w (length data)))
       (fun p a => set2 a (Z.of_nat (fst p)) (Z.of_nat (snd p)) val) data).
Proof.
  unfold cut. destruct (width data) as [w |]; cbn [bind]; [| reflexivity].
  rewrite for_each_nested. apply for_each_cond.
  intros [i j] a. unfold cut_inside, test_map_R. cbn [fst snd].
  destruct (rotate (INR i) (INR j) x_m y_m rot). reflexivity.
Qed.

(** What [cut] does to a square image. *)
Lemma cut_square_spec (r inc rot x_m y_m val : R) (data : image) (n : nat) :
  rect n n data -> (0 < n)%nat ->
  exists out,
    cut r inc rot x_m y_m val data = Ok out
    /\ rect n n out
    /\ forall i j, (i < n)%nat -> (j < n)%nat ->
         px out (i, j)
         = if cut_inside r inc rot x_m y_m (i, j) then val else px data (i, j).
Proof.
  intros Hr Hn. rewrite cut_unfold, (rect_width Hr Hn). cbn [bind].
  destruct Hr as [Hlen Hrows]. rewrite Hlen.
  destruct (@fill_spec n n (fun _ => val)
              (fun p a => set2 a (Z.of_nat (fst p)) (Z.of_nat (snd p)) val)
              (filter (cut_inside r inc rot x_m y_m) (grid n n)))
    with (a := data) as (out & Hrun & Hrout & Hval & Hkeep).
  - intros p Hp. apply filter_In in Hp as [Hp _]. now apply in_grid.
  - reflexivity.
  - now split.
  - exists out. split; [exact Hrun | split; [exact Hrout |]].
    intros i j Hi Hj.
    assert (Hg : In (i, j) (grid n n)) by (apply in_grid; cbn; lia).
    destruct (cut_inside r inc rot x_m y_m (i, j)) eqn:Et.
    + pose proof (Hval (i, j)) as Hv. cbn [fst snd] in Hv.
      rewrite (rect_get2 Hrout Hi Hj) in Hv.
      assert (Hin : In (i, j) (filter (cut_inside r inc rot x_m y_m) (grid n n)))
        by (apply filter_In; now split).
      specialize (Hv Hin). now injection Hv.
    + pose proof (Hkeep (i, j)) as Hk. cbn [fst snd] in Hk.
      rewrite (rect_get2 Hrout Hi Hj) in Hk.
      rewrite (rect_get2 (conj Hlen Hrows) Hi Hj) in Hk.
      assert (Hnin : ~ In (i, j) (filter (cut_inside r inc rot x_m y_m) (grid n n))).
      { intros Hin. apply filter_In in Hin as [_ Hin]. congruence. }
      specialize (Hk Hnin). now injection Hk.
Qed.

Lemma rect_2x2 (a b c d : R) : rect 2 2 ([[a; b]; [c; d]] : image).
Proof. split; [reflexivity | repeat constructor]. Qed.

(** X8.  [cut] is idempotent on square images: cutting the result again
    with the same parameters changes nothing. *)
Theorem cut_idempotent (r inc rot x_m y_m val : R) (data out : image) (n : nat) :
  rect n n data -> (0 < n)%nat ->
  cut r inc rot x_m y_m val data = Ok out ->
  cut r inc rot x_m y_m val out = Ok out.
Proof.
  intros Hr Hn Hcut.
  destruct (cut_square_spec r inc rot x_m y_m val Hr Hn)
    as (out1 & Hrun1 & Hr1 & Hpx1).
  rewrite Hcut in Hrun1. injection Hrun1 as <-.
  destruct (cut_square_spec r inc rot x_m y_m val Hr1 Hn)
    as (out2 & Hrun2 & Hr2 & Hpx2).
  rewrite Hrun2.
  assert (E : out2 = out); [| now rewrite E].
  apply rect_ext with (h := n) (w := n); [assumption | assumption |].
  intros i j Hi Hj. rewrite (Hpx2 i j Hi Hj), (Hpx1 i j Hi Hj).
  destruct (cut_inside r inc rot x_m y_m (i, j)); reflexivity.
Qed.

Lemma test_map_R_nonneg (inc rot x_m y_m : R) (i j : nat) :
  0 <= test_map_R inc rot x_m y_m i j.
Proof.
  unfold test_map_R. destruct (rotate (INR i) (INR j) x_m y_m rot).
  apply sqrt_pos.
Qed.

(** X9.  With a radius [r <= 0] no pixel is inside the ellipse and [cut]
    returns the image unchanged, whatever its shape. *)
Theorem cut_empty_region (r inc rot x_m y_m val : R) (data : image) :
  data <> [] -> r <= 0 -> cut r inc rot x_m y_m val data = Ok data.
Proof.
  intros Hne Hr. rewrite cut_unfold.
  destruct data as [| row rest]; [congruence |].
  change (width (row :: rest)) with (Ok (A := nat) (length row)). cbn [bind].
  rewrite filter_all_false; [reflexivity |].
  intros p _. unfold cut_inside. apply Rltb_false.
  pose proof (test_map_R_nonneg inc rot x_m y_m (fst p) (snd p)). lra.
Qed.

(** An instance: radius 0 on a 1 x 2 image. *)
Lemma cut_empty_region_witness :
  ([[1; 2]] : image) <> [] /\ 0 <= 0 /\ cut 0 30 45 0 0 9 [[1; 2]] = Ok [[1; 2]].
Proof.
  split; [discriminate | split; [lra |]].
  apply cut_empty_region; [discriminate | lra].
Defined.

Lemma np_index_raise (n : nat) (k : Z) (e : exn) :
  np_index n k = Raise e -> e = IndexError.
Proof.
  unfold np_index.
  destruct (0 <=? k)%Z; [destruct (k <? Z.of_nat n)%Z |
                         destruct (- Z.of_nat n <=? k)%Z]; congruence.
Qed.

Lemma get1_raise {A : Type} (a : list A) (k : Z) (e : exn) :
  get1 a k = Raise e -> e = IndexError.
Proof.
  unfold get1. destruct (np_index (length a) k) as [p |] eqn:E; cbn [bind].
  - destruct (nth_error a p); congruence.
  - intros H. injection H as <-. now apply np_index_raise in E.
Qed.

Lemma get2_raise {A : Type} (a : list (list A)) (i j : Z) (e : exn) :
  get2 a i j = Raise e -> e = IndexError.
Proof.
  unfold get2. destruct (get1 a i) as [row |] eqn:E; cbn [bind].
  - apply get1_raise.
  - intros H. injection H as <-. now apply get1_raise in E.
Qed.

Lemma set2_raise {A : Type} (a : list (list A)) (i j : Z) (v : A) (e : exn) :
  set2 a i j v = Raise e -> e = IndexError.
Proof.
  unfold set2. destruct (np_index (length a) i) as [p |] eqn:E; cbn [bind].
  - destruct (nth_error a p) as [row |]; [| congruence].
    destruct (np_index (length row) j) as [q |] eqn:Eq; cbn [bind]; [congruence |].
    intros H. injection H as <-. now apply np_index_raise in Eq.
  - intros H. injection H as <-. now apply np_index_raise in E.
Qed.

Lemma set2_preserves_rect {A : Type} (h w : nat) (a a' : list (list A))
  (i j : Z) (v : A) :
  rect h w a -> set2 a i j v = Ok a' -> rect h w a'.
Proof.
  intros [Hh Hw] Hset. unfold set2 in Hset.
  destruct (np_index (length a) i) as [p |] eqn:Ep; cbn [bind] in Hset;
    [| discriminate].
  destruct (nth_error a p) as [row |] eqn:Hrow; [| discriminate].
  destruct (np_index (length row) j) as [q |] eqn:Eq; cbn [bind] in Hset;
    [| discriminate].
  injection Hset as <-. split; [now rewrite length_list_set |].
  apply Forall_forall. intros row' Hin. apply In_nth_error in Hin as [k Hk].
  rewrite Forall_forall in Hw.
  destruct (Nat.eq_dec p k) as [-> | Hne].
  - rewrite nth_error_list_set_eq in Hk
      by (apply nth_error_Some; congruence).
    injection Hk as <-. rewrite length_list_set.
    apply Hw. eapply nth_error_In; eauto.
  - rewrite nth_error_list_set_neq in Hk by assumption.
    apply Hw. eapply nth_error_In; eauto.
Qed.

Lemma set2_row_out_of_range {A : Type} (h w : nat) (a : list (list A))
  (i j : nat) (v : A) :
  rect h w a -> (h <= i)%nat ->
  set2 a (Z.of_nat i) (Z.of_nat j) v = Raise IndexError.
Proof.
  intros [Hh _] Hi. unfold set2. rewrite Hh, np_index_nat_out by assumption.
  reflexivity.
Qed.

(** A loop in which some iteration is bound to raise [e], and no iteration
    raises anything else, raises [e]. *)
Lemma for_each_raises {X S : Type} (Inv : S -> Prop) (e : exn)
  (body : X -> S -> result S) (l : list X) :
  (forall x s s', Inv s -> body x s = Ok s' -> Inv s') ->
  (forall x s e', Inv s -> body x s = Raise e' -> e' = e) ->
  (exists x, In x l /\ forall s, Inv s -> exists e', body x s = Raise e') ->
  forall s, Inv s -> for_each l body s = Raise e.
Proof.
  intros Hok Hraise. induction l as [| x l IH]; intros (y & Hy & Hbad) s Hs.
  - destruct Hy.
  - cbn [for_each]. destruct (body x s) as [s' | e'] eqn:E; cbn [bind].
    + apply IH; [| eapply Hok; eassumption].
      destruct Hy as [<- | Hy].
      * destruct (Hbad s Hs) as (e' & He'). congruence.
      * exists y. now split.
    + f_equal. eapply Hraise; eassumption.
Qed.

(** X10.  The outer loop of [cut] runs over the width while its variable
    indexes rows: on an image with more columns than rows, [cut] raises
    [IndexError] as soon as the ellipse contains a scanned pixel [(i, j)]
    with [i] beyond the last row. *)
Theorem cut_wide_image_raises (r inc rot x_m y_m val : R) (data : image)
  (h w i j : nat) :
  rect h w data -> (0 < h)%nat ->
  (h <= i < w)%nat -> (j < h)%nat ->
  Rltb (test_map_R inc rot x_m y_m i j) r = true ->
  cut r inc rot x_m y_m val data = Raise IndexError.
Proof.
  intros Hr Hh Hi Hj Hin. rewrite cut_unfold, (rect_width Hr Hh). cbn [bind].
  pose proof Hr as [Hlen _]. rewrite Hlen.
  apply for_each_raises with (Inv := rect h w (A := R)).
  - intros p a a' Ha Hset. eapply set2_preserves_rect; eassumption.
  - intros p a e' _ Hset. eapply set2_raise; eassumption.
  - exists (i, j). split.
    + apply filter_In. split; [apply in_grid; cbn; lia | exact Hin].
    + intros a Ha. exists IndexError. cbn [fst snd].
      apply set2_row_out_of_range with (h := h) (w := w); [assumption | lia].
  - exact Hr.
Qed.


(** An instance: a 1 x 2 image and the disc of radius 2 around pixel (0,0),
    which contains the scanned pixel (1,0). *)
Lemma cut_wide_image_raises_witness :
  rect 1 2 ([[1; 2]] : image) /\ (1 <= 1 < 2)%nat
  /\ Rltb (test_map_R 0 0 0 0 1 0) 2 = true
  /\ cut 2 0 0 0 0 9 [[1; 2]] = Raise IndexError.
Proof.
  assert (Hr : rect 1 2 ([[1; 2]] : image)).
  { split; [reflexivity | repeat constructor]. }
  assert (Hin : Rltb (test_map_R 0 0 0 0 1 0) 2 = true).
  { rewrite test_map_R_axis. cbn [INR]. apply Rltb_true.
    replace (1 ^ 2 + 0 ^ 2) with 1 by ring. rewrite sqrt_1. lra. }
  split; [exact Hr | split; [lia | split; [exact Hin |]]].
  apply (cut_wide_image_raises 2 0 0 0 0 9 (i := 1) (j := 0) Hr); (lia || exact Hin).
Defined.

Lemma cut_inside_unit_disc (i j : nat) :
  cut_inside 1 0 0 0 0 (i, j) = if pixel_eqb (i, j) (O, O) then true else false.
Proof.
  unfold cut_inside. cbn [fst snd]. rewrite test_map_R_axis.
  destruct (pixel_eqb (i, j) (O, O)) eqn:E.
  - apply pixel_eqb_eq in E. injection E as -> ->. cbn [INR].
    replace (0 ^ 2 + 0 ^ 2) with 0 by ring. rewrite sqrt_0.
    apply Rltb_true. lra.
  - apply Rltb_false. rewrite <- sqrt_1. apply sqrt_le_1_alt.
    apply off_origin_sq. intros E'. rewrite E' in E.
    discriminate.
Qed.

(** The disc of radius 1 around pixel (0,0) holds that pixel only. *)
Lemma cut_unit_disc (a b c d val : R) :
  cut 1 0 0 0 0 val [[a; b]; [c; d]] = Ok [[val; b]; [c; d]].
Proof.
  destruct (@cut_square_spec 1 0 0 0 0 val [[a; b]; [c; d]] 2
              (rect_2x2 a b c d) (Nat.lt_0_succ 1))
    as (out & Hrun & Hr & Hpx).
  rewrite Hrun. apply f_equal.
  apply rect_ext with (h := 2%nat) (w := 2%nat); [exact Hr | apply rect_2x2 |].
  intros i j Hi Hj. rewrite (Hpx i j Hi Hj), cut_inside_unit_disc.
  destruct i as [| [| i]], j as [| [| j]]; try lia; reflexivity.
Qed.

(** An instance: the cut of the disc of radius 1 around pixel (0,0) of a
    2 x 2 image overwrites that pixel, and cutting again changes nothing. *)
Lemma cut_idempotent_witness :
  cut 1 0 0 0 0 9 [[1; 2]; [3; 4]] = Ok [[9; 2]; [3; 4]]
  /\ cut 1 0 0 0 0 9 [[9; 2]; [3; 4]] = Ok [[9; 2]; [3; 4]].
Proof.
  pose proof (cut_unit_disc 1 2 3 4 9) as H.
  split; [exact H |].
  exact (@cut_idempotent 1 0 0 0 0 9 [[1; 2]; [3; 4]] [[9; 2]; [3; 4]] 2
           (rect_2x2 1 2 3 4) (Nat.lt_0_succ 1) H).
Defined.

(* ===================================================================== *)
(** ** [e_score] and [e_mask]: samples with their multiplicity             *)
(* ===================================================================== *)

(** A computation that returned continues with its value. *)
Lemma bind_ok {A B : Type} (m : result A) (a : A) (k : A -> result B) :
  m = Ok a -> bind m k = k a.
Proof. intros ->. reflexivity. Qed.

(** The loop of [e_score] over samples that index the image validly: the
    mask stays at 0 and every sample adds the intensity of its pixel. *)
Lemma e_score_loop_sum (rot x_m y_m : R) (data : image) (h w : nat)
  (es : list (R * R)) :
  rect h w data ->
  (forall e, In e es -> in_bounds h w (ellipse_pixel rot x_m y_m e)) ->
  forall (n : nat) (s : R),
    for_each es (fun e '(mask_no, score) =>
      let '(sq_y, sq_x) := ellipse_pixel rot x_m y_m e in
      m <- get2 (np_full h w 0%Z) sq_y sq_x ;;
      let mask_no := if (m =? 0)%Z then S mask_no else mask_no in
      v <- get2 data sq_y sq_x ;;
      Ok (mask_no, score + v)) (n, s)
    = Ok ((n + length es)%nat,
          s + sum_list (map (fun e => px data (norm_pixel h w
                                                 (ellipse_pixel rot x_m y_m e)))
                            es)).
Proof.
  intros Hr Hb. induction es as [| e es IH]; intros n s.
  - cbn. f_equal. f_equal; [lia | ring].
  - assert (Hbe : in_bounds h w (ellipse_pixel rot x_m y_m e))
      by (apply Hb; now left).
    destruct (norm_pixel_bound Hbe) as [Hi Hj].
    cbn [for_each map].
    pose proof (get2_norm (rect_np_full h w 0%Z) Hbe) as Hgm.
    pose proof (get2_norm Hr Hbe) as Hgd.
    set (p := norm_pixel h w (ellipse_pixel rot x_m y_m e)) in *.
    destruct (ellipse_pixel rot x_m y_m e) as [sq_y sq_x].
    cbn [fst snd] in Hgm, Hgd.
    rewrite Hgm, (get2_np_full 0%Z Hi Hj). cbn [bind Z.eqb].
    rewrite Hgd.
    replace (get2 data (Z.of_nat (fst p)) (Z.of_nat (snd p)))
      with (Ok (px data p))
      by (symmetry; destruct p; now apply rect_get2 with (h := h) (w := w)).
    cbn [bind].
    rewrite IH by (intros e' He'; apply Hb; now right).
    cbn [length sum_list fold_right]. f_equal.
    f_equal; [lia | unfold sum_list; ring].
Qed.

Lemma e_score_sum (r inc rot x_m y_m : R) (data : image) (h w : nat) :
  rect h w data -> (0 < h)%nat ->
  (forall e, In e (Ell r inc 400) ->
     in_bounds h w (ellipse_pixel rot x_m y_m e)) ->
  e_score r inc rot x_m y_m data
  = Ok (sum_list (map (fun e => px data (norm_pixel h w
                                           (ellipse_pixel rot x_m y_m e)))
                      (Ell r inc 400))).
Proof.
  intros Hr Hh Hb. unfold e_score. rewrite (rect_width Hr Hh). cbn [bind].
  pose proof Hr as [Hlen _]. rewrite Hlen.
  rewrite (@e_score_loop_sum rot x_m y_m data h w (Ell r inc 400) Hr Hb).
  cbn [bind].
  rewrite Rplus_0_l. reflexivity.
Qed.

(* ===================================================================== *)
(** ** Residual scores against a model map                                 *)
(* ===================================================================== *)

Lemma sqrt_sq_abs (x : R) : sqrt (x ^ 2) = Rabs x.
Proof. rewrite <- Rsqr_pow2. apply sqrt_Rsqr_abs. Qed.

Lemma sum_list_abs_nonneg {X : Type} (f : X -> R) (l : list X) :
  0 <= sum_list (map (fun p => Rabs (f p)) l).
Proof.
  induction l as [| p l IH]; cbn [map sum_list fold_right]; [lra |].
  fold (sum_list (map (fun p => Rabs (f p)) l)).
  pose proof (Rabs_pos (f p)). lra.
Qed.

(** The accumulation of the absolute differences over a list of pixels
    that both arrays contain. *)
Lemma residual_pixels (data model : image) (mval : nat * nat -> R)
  (l : list (nat * nat)) (h w : nat) :
  rect h w data ->
  (forall p, In p l -> (fst p < h)%nat /\ (snd p < w)%nat) ->
  (forall p, In p l ->
     get2 model (Z.of_nat (fst p)) (Z.of_nat (snd p)) = Ok (mval p)) ->
  forall s,
    for_each l (fun p score =>
      d <- get2 data (Z.of_nat (fst p)) (Z.of_nat (snd p)) ;;
      m <- get2 model (Z.of_nat (fst p)) (Z.of_nat (snd p)) ;;
      Ok (score + sqrt ((d - m) ^ 2))) s
    = Ok (s + sum_list (map (fun p => Rabs (px data p - mval p)) l)).
Proof.
  intros Hr. induction l as [| p l IH]; intros Hin Hm s.
  - cbn. f_equal. ring.
  - cbn [for_each map sum_list fold_right].
    destruct (Hin p (or_introl eq_refl)) as [Hi Hj].
    replace (get2 data (Z.of_nat (fst p)) (Z.of_nat (snd p)))
      with (Ok (px data p))
      by (symmetry; destruct p; now apply rect_get2 with (h := h) (w := w)).
    rewrite (bind_ok _ eq_refl), (bind_ok _ (Hm p (or_introl eq_refl))).
    rewrite (bind_ok _ eq_refl).
    rewrite IH by (intros q Hq; first [apply Hin | apply Hm]; now right).
    rewrite sqrt_sq_abs. f_equal. unfold sum_list. ring.
Qed.

(** The two loops of the residual scores on a rectangular image, against a
    model that contains the scanned pixels. *)
Lemma residual_loops (data model : image) (mval : nat * nat -> R) (h w : nat) :
  rect h w data ->
  (forall i j, (i < h)%nat -> (j < w)%nat ->
     get2 model (Z.of_nat i) (Z.of_nat j) = Ok (mval (i, j))) ->
  for_each (range (length data)) (fun i score =>
    w <- width data ;;
    for_each (range w) (fun j score =>
      d <- get2 data (Z.of_nat i) (Z.of_nat j) ;;
      m <- get2 model (Z.of_nat i) (Z.of_nat j) ;;
      Ok (score + sqrt ((d - m) ^ 2)))
    score)
  0
  = Ok (sum_list (map (fun p => Rabs (px data p - mval p)) (grid h w))).
Proof.
  intros Hr Hm. pose proof Hr as [Hlen _]. rewrite Hlen.
  destruct h as [| h'].
  - reflexivity.
  - rewrite for_each_ext with
      (g := fun i => for_each (range w) (fun j score =>
              d <- get2 data (Z.of_nat i) (Z.of_nat j) ;;
              m <- get2 model (Z.of_nat i) (Z.of_nat j) ;;
              Ok (score + sqrt ((d - m) ^ 2)))).
    + rewrite for_each_nested.
      rewrite (@residual_pixels data model mval (grid (S h') w) (S h') w Hr).
      * f_equal. ring.
      * intros p Hp. now apply in_grid.
      * intros [i j] Hp. apply in_grid in Hp as [Hi Hj]. now apply Hm.
    + intros i s _. cbv beta.
      rewrite (bind_ok _ (rect_width Hr (Nat.lt_0_succ h'))). reflexivity.
Qed.

(** A residual score against a model map of side [length data], cell
    [f i j]: value on images that are not wider than high. *)
Lemma model_score_value (f : nat -> nat -> R) (data : image) (h w : nat) :
  rect h w data -> (w <= h)%nat ->
  for_each (range (length data)) (fun i score =>
    w <- width data ;;
    for_each (range w) (fun j score =>
      d <- get2 data (Z.of_nat i) (Z.of_nat j) ;;
      m <- get2 (map (fun i => map (fun j => f i j) (range (length data)))
                     (range (length data)))
                (Z.of_nat i) (Z.of_nat j) ;;
      Ok (score + sqrt ((d - m) ^ 2)))
    score)
  0
  = Ok (sum_list (map (fun p => Rabs (px data p - f (fst p) (snd p)))
                      (grid h w))).
Proof.
  intros Hr Hw. pose proof Hr as [Hlen _].
  apply (@residual_loops data _ (fun p => f (fst p) (snd p)) h w Hr).
  intros i j Hi Hj. rewrite Hlen. cbn [fst snd].
  apply get2_map_map; [exact Hi | lia].
Qed.

(** X13.  With a float [back], on a rectangular image that is not wider
    than high, each of [a_gau_score], [a_mie_score] and [a_hg_score]
    returns the sum over the pixels of the image of the absolute difference
    between the image and its model map ([test_map], [test_map_mie],
    [hg_map] of side [len(data)]); the sum is never negative. *)
Theorem model_scores_are_absolute_residuals
  (r th inc rot x_m y_m surf back surf_0 surf_theta theta_max g : R)
  (data : image) (h w : nat) :
  rect h w data -> (w <= h)%nat ->
  let residual (f : nat -> nat -> R) :=
    sum_list (map (fun p => Rabs (px data p - f (fst p) (snd p))) (grid h w)) in
  a_gau_score (r, th, inc, rot, x_m, y_m, surf, PyFloat back) data
    = Ok (residual (test_map_px r th inc rot x_m y_m surf back))
  /\ a_mie_score (r, th, inc, rot, x_m, y_m, surf_0, surf_theta, theta_max,
                  PyFloat back) data
    = Ok (residual (test_map_mie_px r th inc rot x_m y_m
                      surf_0 surf_theta theta_max back))
  /\ a_hg_score (r, th, inc, rot, x_m, y_m, g, surf, back) data
    = Ok (residual (hg_map_px r th inc rot x_m y_m g surf back))
  /\ forall f, 0 <= residual f.
Proof.
  intros Hr Hw residual. split; [| split; [| split]].
  - unfold a_gau_score. rewrite (bind_ok _ (test_map_cells _ _ _ _ _ _ _ _ _)).
    apply (model_score_value (test_map_px r th inc rot x_m y_m surf back) Hr Hw).
  - unfold a_mie_score.
    rewrite (bind_ok _ (test_map_mie_cells _ _ _ _ _ _ _ _ _ _ _)).
    apply (model_score_value
             (test_map_mie_px r th inc rot x_m y_m surf_0 surf_theta theta_max back)
             Hr Hw).
  - unfold a_hg_score. rewrite (bind_ok _ (hg_map_cells _ _ _ _ _ _ _ _ _ _)).
    apply (model_score_value (hg_map_px r th inc rot x_m y_m g surf back) Hr Hw).
  - intros f. apply sum_list_abs_nonneg.
Qed.

(** An instance: a 2 x 2 image against the three models with the float
    background 4. *)
Lemma model_scores_are_absolute_residuals_witness :
  let data : image := [[1; 2]; [3; 4]] in
  let residual (f : nat -> nat -> R) :=
    sum_list (map (fun p => Rabs (px data p - f (fst p) (snd p))) (grid 2 2)) in
  a_gau_score (1, 2, 0, 0, 0, 0, 3, PyFloat 4) data
    = Ok (residual (test_map_px 1 2 0 0 0 0 3 4))
  /\ a_mie_score (1, 2, 0, 0, 0, 0, 3, 5, 30, PyFloat 4) data
    = Ok (residual (test_map_mie_px 1 2 0 0 0 0 3 5 30 4))
  /\ a_hg_score (1, 2, 0, 0, 0, 0, 0.5, 3, 4) data
    = Ok (residual (hg_map_px 1 2 0 0 0 0 0.5 3 4))
  /\ forall f, 0 <= residual f.
Proof.
  exact (@model_scores_are_absolute_residuals 1 2 0 0 0 0 3 4 3 5 30 0.5
           [[1; 2]; [3; 4]] 2 2 (rect_2x2 1 2 3 4) (Nat.le_refl 2)).
Defined.

Lemma sum_list_zero {X : Type} (f : X -> R) (l : list X) :
  (forall p, In p l -> f p = 0) -> sum_list (map f l) = 0.
Proof.
  induction l as [| p l IH]; intros H; cbn [map sum_list fold_right];
    [reflexivity |].
  fold (sum_list (map f l)).
  rewrite (H p) by now left. rewrite IH by (intros q Hq; apply H; now right).
  ring.
Qed.

Lemma model_score_self (f : nat -> nat -> R) (n : nat) :
  let data := map (fun i => map (fun j => f i j) (range n)) (range n) in
  for_each (range (length data)) (fun i score =>
    w <- width data ;;
    for_each (range w) (fun j score =>
      d <- get2 data (Z.of_nat i) (Z.of_nat j) ;;
      m <- get2 (map (fun i => map (fun j => f i j) (range (length data)))
                     (range (length data)))
                (Z.of_nat i) (Z.of_nat j) ;;
      Ok (score + sqrt ((d - m) ^ 2)))
    score)
  0
  = Ok 0.
Proof.
  intros data.
  rewrite (@model_score_value f data n n (rect_map_map f n) (Nat.le_refl n)).
  apply f_equal. apply sum_list_zero.
  intros [i j] Hp. apply in_grid in Hp as [Hi Hj]. cbn [fst snd] in *.
  unfold data. rewrite px_map_map by assumption.
  replace (f i j - f i j) with 0 by ring. apply Rabs_R0.
Qed.

(** X14.  A model map scores 0 against itself: [a_gau_score],
    [a_mie_score] and [a_hg_score] evaluated with the parameters of a map
    on that map return exactly 0, for every side length and for an integer
    as for a float [back]. *)
Theorem model_scores_vanish_on_own_map
  (r th inc rot x_m y_m surf surf_0 surf_theta theta_max g : R)
  (back : scalar) (n : nat) :
  (m <- test_map r th inc rot x_m y_m surf back n ;;
   a_gau_score (r, th, inc, rot, x_m, y_m, surf, back) m) = Ok 0
  /\ (m <- test_map_mie r th inc rot x_m y_m surf_0 surf_theta theta_max
                        back n ;;
      a_mie_score (r, th, inc, rot, x_m, y_m, surf_0, surf_theta, theta_max,
                   back) m) = Ok 0
  /\ (m <- hg_map r th inc rot x_m y_m g surf (scalar_val back) n ;;
      a_hg_score (r, th, inc, rot, x_m, y_m, g, surf, scalar_val back) m)
     = Ok 0.
Proof.
  split; [| split].
  - rewrite (bind_ok _ (test_map_cells _ _ _ _ _ _ _ _ _)).
    unfold a_gau_score. rewrite (bind_ok _ (test_map_cells _ _ _ _ _ _ _ _ _)).
    apply (model_score_self
             (fun i j => store_as back
                           (test_map_px r th inc rot x_m y_m surf
                                        (scalar_val back) i j)) n).
  - rewrite (bind_ok _ (test_map_mie_cells _ _ _ _ _ _ _ _ _ _ _)).
    unfold a_mie_score.
    rewrite (bind_ok _ (test_map_mie_cells _ _ _ _ _ _ _ _ _ _ _)).
    apply (model_score_self
             (fun i j => store_as back
                           (test_map_mie_px r th inc rot x_m y_m
                              surf_0 surf_theta theta_max (scalar_val back) i j))
             n).
  - rewrite (bind_ok _ (hg_map_cells _ _ _ _ _ _ _ _ _ _)).
    unfold a_hg_score. rewrite (bind_ok _ (hg_map_cells _ _ _ _ _ _ _ _ _ _)).
    apply (model_score_self
             (hg_map_px r th inc rot x_m y_m g surf (scalar_val back)) n).
Qed.

(** A loop raises only what one of its iterations raises. *)
Lemma for_each_raise_inv {X S : Type} (e : exn) (body : X -> S -> result S)
  (l : list X) :
  (forall x s e', body x s = Raise e' -> e' = e) ->
  forall s e', for_each l body s = Raise e' -> e' = e.
Proof.
  intros H. induction l as [| x l IH]; intros s e' Hrun; cbn [for_each] in Hrun.
  - discriminate.
  - destruct (body x s) as [s' | e''] eqn:E; cbn [bind] in Hrun.
    + eapply IH; eassumption.
    + injection Hrun as <-. eapply H; eassumption.
Qed.

(** A residual score against a model map of side [length data] on an image
    that is wider than high: column [h] of the image has no counterpart in
    the map. *)
Lemma model_score_wide (f : nat -> nat -> R) (data : image) (h w : nat) :
  rect h w data -> (0 < h < w)%nat ->
  for_each (range (length data)) (fun i score =>
    w <- width data ;;
    for_each (range w) (fun j score =>
      d <- get2 data (Z.of_nat i) (Z.of_nat j) ;;
      m <- get2 (map (fun i => map (fun j => f i j) (range (length data)))
                     (range (length data)))
                (Z.of_nat i) (Z.of_nat j) ;;
      Ok (score + sqrt ((d - m) ^ 2)))
    score)
  0
  = Raise IndexError.
Proof.
  intros Hr [Hh Hw]. pose proof Hr as [Hlen _]. rewrite Hlen.
  set (model := map (fun i => map (fun j => f i j) (range h)) (range h)).
  assert (Hinner : forall i j s e',
             (d <- get2 data (Z.of_nat i) (Z.of_nat j) ;;
              m <- get2 model (Z.of_nat i) (Z.of_nat j) ;;
              Ok (s + sqrt ((d - m) ^ 2))) = Raise e' -> e' = IndexError).
  { intros i j s e' H.
    destruct (get2 data (Z.of_nat i) (Z.of_nat j)) as [d |] eqn:Ed;
      cbn [bind] in H.
    - destruct (get2 model (Z.of_nat i) (Z.of_nat j)) as [m |] eqn:Em;
        cbn [bind] in H; [discriminate |].
      injection H as <-. now apply get2_raise in Em.
    - injection H as <-. now apply get2_raise in Ed. }
  apply for_each_raises with (Inv := fun _ => True).
  - trivial.
  - intros i s e' _ H. rewrite (bind_ok _ (rect_width Hr Hh)) in H.
    eapply for_each_raise_inv; [| exact H].
    intros j s' e''. apply Hinner.
  - exists O. split; [apply in_seq; lia |].
    intros s _. exists IndexError.
    rewrite (bind_ok _ (rect_width Hr Hh)).
    apply for_each_raises with (Inv := fun _ => True).
    + trivial.
    + intros j s' e' _. apply Hinner.
    + exists h. split; [apply in_seq; lia |].
      intros s' _. exists IndexError.
      rewrite (bind_ok _ (rect_get2 Hr Hh Hw)).
      assert (Em : get2 model (Z.of_nat 0) (Z.of_nat h) = Raise IndexError).
      { unfold get2.
        rewrite (get1_nat model 0 (v := map (fun j => f O j) (range h))).
        - cbn [bind]. unfold get1, range.
          rewrite length_map, length_seq, np_index_nat_out by lia. reflexivity.
        - unfold model, range. destruct h; [lia | reflexivity]. }
      rewrite Em. reflexivity.
    + trivial.
  - trivial.
Qed.

(** X15.  The model map of the residual scores is square with side
    [len(data)]: on an image with more columns than rows, [a_gau_score],
    [a_mie_score] and [a_hg_score] raise [IndexError]. *)
Theorem model_scores_raise_on_wide_image
  (r th inc rot x_m y_m surf surf_0 surf_theta theta_max g : R)
  (back : scalar) (data : image) (h w : nat) :
  rect h w data -> (0 < h < w)%nat ->
  a_gau_score (r, th, inc, rot, x_m, y_m, surf, back) data = Raise IndexError
  /\ a_mie_score (r, th, inc, rot, x_m, y_m, surf_0, surf_theta, theta_max, back)
                 data = Raise IndexError
  /\ a_hg_score (r, th, inc, rot, x_m, y_m, g, surf, scalar_val back) data
     = Raise IndexError.
Proof.
  intros Hr Hw. split; [| split].
  - unfold a_gau_score. rewrite (bind_ok _ (test_map_cells _ _ _ _ _ _ _ _ _)).
    apply (model_score_wide
             (fun i j => store_as back
                           (test_map_px r th inc rot x_m y_m surf
                                        (scalar_val back) i j)) Hr Hw).
  - unfold a_mie_score.
    rewrite (bind_ok _ (test_map_mie_cells _ _ _ _ _ _ _ _ _ _ _)).
    apply (model_score_wide
             (fun i j => store_as back
                           (test_map_mie_px r th inc rot x_m y_m
                              surf_0 surf_theta theta_max (scalar_val back) i j))
             Hr Hw).
  - unfold a_hg_score. rewrite (bind_ok _ (hg_map_cells _ _ _ _ _ _ _ _ _ _)).
    apply (model_score_wide
             (hg_map_px r th inc rot x_m y_m g surf (scalar_val back)) Hr Hw).
Qed.

(** An instance: a 1 x 2 image, with an integer and with a float
    background. *)
Lemma model_scores_raise_on_wide_image_witness :
  a_gau_score (1, 2, 0, 0, 0, 0, 3, PyInt 4) [[1; 2]] = Raise IndexError
  /\ a_mie_score (1, 2, 0, 0, 0, 0, 3, 5, 30, PyFloat 4) [[1; 2]]
     = Raise IndexError
  /\ a_hg_score (1, 2, 0, 0, 0, 0, 0.5, 3, 4) [[1; 2]] = Raise IndexError.
Proof.
  assert (Hr : rect 1 2 ([[1; 2]] : image)).
  { split; [reflexivity | repeat constructor]. }
  split; [| split].
  - exact (proj1 (@model_scores_raise_on_wide_image 1 2 0 0 0 0 3 3 5 30 0.5
                    (PyInt 4) [[1; 2]] 1 2 Hr
                    (conj Nat.lt_0_1 (Nat.lt_succ_diag_r 1)))).
  - exact (proj1 (proj2 (@model_scores_raise_on_wide_image 1 2 0 0 0 0 3 3 5
                           30 0.5 (PyFloat 4) [[1; 2]] 1 2 Hr
                           (conj Nat.lt_0_1 (Nat.lt_succ_diag_r 1))))).
  - exact (proj2 (proj2 (@model_scores_raise_on_wide_image 1 2 0 0 0 0 3 3 5
                           30 0.5 (PyFloat 4) [[1; 2]] 1 2 Hr
                           (conj Nat.lt_0_1 (Nat.lt_succ_diag_r 1))))).
Defined.

(* ===================================================================== *)
(** ** [a_surf_map] and [a_surf_score]                                     *)
(* ===================================================================== *)

Lemma a_surf_map_unfold (r th inc rot x_m y_m surf : R) (back : scalar)
  (data : image) :
  a_surf_map r th inc rot x_m y_m surf back data
  = (w <- width data ;;
     for_each
       (map (fun p => (snd p, fst p))
            (filter (fun p => a_in_band r th inc rot x_m y_m (fst p) (snd p))
                    (grid (length data) w)))
       (fun q a => set2 a (Z.of_nat (fst q)) (Z.of_nat (snd q))
                     (store_as back surf))
       (np_full (length data) w (scalar_val back))).
Proof.
  unfold a_surf_map. destruct (width data) as [w |]; cbn [bind]; [| reflexivity].
  rewrite for_each_nested, for_each_map. cbn [fst snd].
  apply for_each_cond. intros [i j] a. reflexivity.
Qed.

Lemma a_surf_map_square_spec (r th inc rot x_m y_m surf : R) (back : scalar)
  (data : image) (n : nat) :
  rect n n data -> (0 < n)%nat ->
  exists out,
    a_surf_map r th inc rot x_m y_m surf back data = Ok out
    /\ rect n n out
    /\ forall i j, (i < n)%nat -> (j < n)%nat ->
         px out (j, i)
         = if a_in_band r th inc rot x_m y_m i j then store_as back surf
           else scalar_val back.
Proof.
  intros Hr Hn. rewrite a_surf_map_unfold, (bind_ok _ (rect_width Hr Hn)).
  destruct Hr as [Hlen Hrows]. rewrite Hlen.
  set (band := filter (fun p => a_in_band r th inc rot x_m y_m (fst p) (snd p))
                      (grid n n)).
  destruct (@fill_spec n n (fun _ => store_as back surf)
              (fun q a => set2 a (Z.of_nat (fst q)) (Z.of_nat (snd q))
                            (store_as back surf))
              (map (fun p => (snd p, fst p)) band))
    with (a := np_full n n (scalar_val back))
    as (out & Hrun & Hrout & Hval & Hkeep).
  - intros q Hq. apply in_map_iff in Hq as ([i j] & <- & Hp).
    apply filter_In in Hp as [Hp _]. apply in_grid in Hp. cbn [fst snd] in *. lia.
  - reflexivity.
  - apply rect_np_full.
  - exists out. split; [exact Hrun | split; [exact Hrout |]].
    intros i j Hi Hj.
    assert (Hmem : In (j, i) (map (fun p => (snd p, fst p)) band)
                   <-> a_in_band r th inc rot x_m y_m i j = true).
    { rewrite in_map_iff. split.
      - intros ([i' j'] & E & Hp). cbn [fst snd] in E. injection E as -> ->.
        now apply filter_In in Hp as [_ Hp].
      - intros Ht. exists (i, j). split; [reflexivity |].
        apply filter_In. split; [apply in_grid; cbn; lia | exact Ht]. }
    destruct (a_in_band r th inc rot x_m y_m i j) eqn:Et.
    + pose proof (Hval (j, i) (proj2 Hmem eq_refl)) as Hv. cbn [fst snd] in Hv.
      rewrite (rect_get2 Hrout Hj Hi) in Hv. now injection Hv.
    + assert (Hnin : ~ In (j, i) (map (fun p => (snd p, fst p)) band)).
      { intros Hin. apply Hmem in Hin. discriminate. }
      pose proof (Hkeep (j, i) Hnin) as Hk. cbn [fst snd] in Hk.
      rewrite (rect_get2 Hrout Hj Hi), (get2_np_full (scalar_val back) Hj Hi)
        in Hk.
      now injection Hk.
Qed.

(** X17.  On a square image [a_surf_score] returns the sum over all pixels
    of the absolute difference between the image and the map of
    [a_surf_map]; the score is never negative. *)
Theorem a_surf_score_square (r th inc rot x_m y_m surf : R) (back : scalar)
  (data : image) (n : nat) :
  rect n n data -> (0 < n)%nat ->
  exists out,
    a_surf_map r th inc rot x_m y_m surf back data = Ok out
    /\ a_surf_score (r, th, inc, rot, x_m, y_m, surf, back) data
       = Ok (sum_list (map (fun p => Rabs (px data p - px out p)) (grid n n)))
    /\ 0 <= sum_list (map (fun p => Rabs (px data p - px out p)) (grid n n)).
Proof.
  intros Hr Hn.
  destruct (a_surf_map_square_spec r th inc rot x_m y_m surf back Hr Hn)
    as (out & Hrun & Hrout & _).
  exists out. split; [exact Hrun | split; [| apply sum_list_abs_nonneg]].
  unfold a_surf_score. rewrite (bind_ok _ Hrun).
  apply (@residual_loops data out (px out) n n Hr).
  intros i j Hi Hj. now apply rect_get2 with (h := n) (w := n).
Qed.

(** An instance: a 2 x 2 image. *)
Lemma a_surf_score_square_witness :
  rect 2 2 ([[1; 2]; [3; 4]] : image) /\ (0 < 2)%nat
  /\ exists v,
       a_surf_score (1, 1, 0, 0, 0, 0, 5, PyFloat 0) [[1; 2]; [3; 4]] = Ok v.
Proof.
  split; [apply rect_2x2 | split; [lia |]].
  destruct (@a_surf_score_square 1 1 0 0 0 0 5 (PyFloat 0) [[1; 2]; [3; 4]] 2
              (rect_2x2 1 2 3 4) (Nat.lt_0_succ 1)) as (out & _ & Hrun & _).
  eexists. exact Hrun.
Defined.

(* ===================================================================== *)
(** ** Further properties of the scorers                                   *)
(* ===================================================================== *)

(** X19.  [recip_score_annulus] has no guard: whenever the inner bound
    [r - th/2] is not positive, [score_annulus] takes no pixel, returns 0,
    and the reciprocal divides by zero. *)
Theorem recip_score_annulus_zero_division (g : globals)
  (r th inc t_rot x_m y_m : R) (data : image) :
  qphi g <> [] -> r - th / 2 <= 0 ->
  Testplot.recip_score_annulus g (r, th, inc, t_rot, x_m, y_m) data
  = Raise ZeroDivisionError.
Proof.
  intros Hne Hlo. unfold Testplot.recip_score_annulus.
  rewrite (bind_ok _ (score_annulus_nothing g inc t_rot x_m y_m data Hne Hlo)).
  apply py_div_zero.
Qed.

(** An instance: radius 1 and thickness 2 on the 282 x 282 image [spot 1]. *)
Lemma recip_score_annulus_zero_division_witness :
  qphi (mk_globals (spot 1)) <> [] /\ 1 - 2 / 2 <= 0
  /\ Testplot.recip_score_annulus (mk_globals (spot 1)) (1, 2, 0, 0, 0, 0) (spot 1)
     = Raise ZeroDivisionError.
Proof.
  split; [discriminate | split; [lra |]].
  apply recip_score_annulus_zero_division; [discriminate | lra].
Defined.

(* ===================================================================== *)
(** ** Further properties of the exhaustive searches                       *)
(* ===================================================================== *)

(** On an image of 282 x 282 pixels [a_score] returns, whatever the
    model. *)
Lemma a_score_full_image (r th inc rot x_m y_m : R) (data : image) :
  rect 282 282 data -> exists v, a_score r th inc rot x_m y_m data = Ok v.
Proof.
  intros Hr. eexists.
  apply (@a_score_mean r th inc rot x_m y_m data 282 282 Hr (Nat.lt_0_succ 281)).
  intros p Hp. apply filter_In in Hp as [Hp _]. apply in_grid. exact Hp.
Qed.

Lemma np_int_abs_le (x : R) (k : Z) :
  Rabs x <= IZR k -> (- k <= np_int x <= k)%Z.
Proof.
  intros H. unfold np_int. destruct (Rle_dec 0 x) as [Hx | Hx].
  - rewrite Rabs_right in H by lra.
    pose proof (Zfloor_bound x) as [Hlo Hhi].
    assert (0 <= Zfloor x)%Z by (apply (Zfloor_lub 0); exact Hx).
    assert (IZR (Zfloor x) <= IZR k) by lra.
    apply le_IZR in H1. lia.
  - rewrite Rabs_left in H by lra.
    pose proof (Zfloor_bound (- x)) as [Hlo Hhi].
    assert (0 <= Zfloor (- x))%Z by (apply (Zfloor_lub 0); cbn; lra).
    assert (IZR (Zfloor (- x)) <= IZR k) by lra.
    apply le_IZR in H1. lia.
Qed.

(** The samples of the ellipse stay within the radius. *)
Lemma Ell_bound (r inc : R) (n : nat) (e : R * R) :
  In e (Ell r inc n) -> Rabs (fst e) <= Rabs r /\ Rabs (snd e) <= Rabs r.
Proof.
  unfold Ell. intros H. apply in_map_iff in H as (t & <- & _). cbn [fst snd].
  pose proof (COS_bound t). pose proof (SIN_bound t).
  pose proof (COS_bound (radians inc)).
  pose proof (Rabs_pos r).
  assert (Hc : Rabs (cos t) <= 1) by (apply Rabs_le; lra).
  assert (Hs : Rabs (sin t) <= 1) by (apply Rabs_le; lra).
  assert (Hi : Rabs (cos (radians inc)) <= 1) by (apply Rabs_le; lra).
  pose proof (Rabs_pos (cos t)). pose proof (Rabs_pos (sin t)).
  pose proof (Rabs_pos (cos (radians inc))).
  rewrite !Rabs_mult. split; [nra |].
  assert (Hri : Rabs r * Rabs (cos (radians inc)) <= Rabs r) by nra.
  assert (0 <= Rabs r * Rabs (cos (radians inc))) by nra.
  nra.
Qed.

(** A rotated sample lies within twice the radius of the centre: an
    ellipse of radius at most [rho] around the pixel [(cx, cy)] stays on
    an image that extends [2 * rho] pixels beyond the centre. *)
Lemma ellipse_pixel_in_bounds (r inc rot : R) (rho cx cy : Z) (h w n : nat)
  (e : R * R) :
  In e (Ell r inc n) -> Rabs r <= IZR rho ->
  (2 * rho <= cx /\ cx + 2 * rho < Z.of_nat w)%Z ->
  (2 * rho <= cy /\ cy + 2 * rho < Z.of_nat h)%Z ->
  in_bounds h w (ellipse_pixel rot (IZR cx) (IZR cy) e).
Proof.
  intros He Hr Hx Hy. destruct (Ell_bound _ _ _ _ He) as [Ha Hb].
  unfold ellipse_pixel, in_bounds. cbn [fst snd]. rewrite !np_int_IZR.
  pose proof (COS_bound (radians rot)). pose proof (SIN_bound (radians rot)).
  assert (Hc : Rabs (cos (radians rot)) <= 1) by (apply Rabs_le; lra).
  assert (Hs : Rabs (sin (radians rot)) <= 1) by (apply Rabs_le; lra).
  assert (Hs' : Rabs (- sin (radians rot)) <= 1) by (rewrite Rabs_Ropp; exact Hs).
  pose proof (Rabs_pos (fst e)). pose proof (Rabs_pos (snd e)).
  pose proof (Rabs_pos (cos (radians rot))).
  pose proof (Rabs_pos (sin (radians rot))).
  pose proof (Rabs_pos (- sin (radians rot))).
  assert (Hb0 : Rabs (cos (radians rot) * fst e + - sin (radians rot) * snd e)
               <= IZR (2 * rho)).
  { rewrite mult_IZR.
    eapply Rle_trans; [apply Rabs_triang |]. rewrite !Rabs_mult. nra. }
  assert (Hb1 : Rabs (sin (radians rot) * fst e + cos (radians rot) * snd e)
               <= IZR (2 * rho)).
  { rewrite mult_IZR.
    eapply Rle_trans; [apply Rabs_triang |]. rewrite !Rabs_mult. nra. }
  apply np_int_abs_le in Hb0. apply np_int_abs_le in Hb1. lia.
Qed.

Lemma in_box_5_inv (a1 a2 a3 a4 a5 b1 b2 b3 b4 b5 : Z) (t : list Z) :
  In t (box [a1; a2; a3; a4; a5] [b1; b2; b3; b4; b5]) ->
  exists x1 x2 x3 x4 x5,
    t = [x1; x2; x3; x4; x5]
    /\ (a1 <= x1 < b1 /\ a2 <= x2 < b2 /\ a3 <= x3 < b3
        /\ a4 <= x4 < b4 /\ a5 <= x5 < b5)%Z.
Proof.
  unfold box. rewrite in_cart. cbn [ranges]. intros H.
  inversion H as [| x1 l1 t1 ls1 H1 Ht1]; subst.
  inversion Ht1 as [| x2 l2 t2 ls2 H2 Ht2]; subst.
  inversion Ht2 as [| x3 l3 t3 ls3 H3 Ht3]; subst.
  inversion Ht3 as [| x4 l4 t4 ls4 H4 Ht4]; subst.
  inversion Ht4 as [| x5 l5 t5 ls5 H5 Ht5]; subst.
  inversion Ht5; subst.
  apply in_py_range in H1, H2, H3, H4, H5.
  exists x1, x2, x3, x4, x5. split; [reflexivity | tauto].
Qed.

Lemma rect_ramp (n : nat) : rect n n (ramp n).
Proof. apply rect_map_map. Qed.

(** An instance: eight annuli around the pixels (0,0) and (1,0) of the
    282 x 282 image [spot 1]. *)
Lemma a_best_optimal_witness :
  let mins := [0; 1; 0; 0; 0; 0]%Z in
  let maxs := [2; 3; 1; 1; 2; 1]%Z in
  let score (t : list Z) :=
    match t with
    | [r; th; inc; rot; x_m; y_m] =>
        a_score (IZR r) (IZR th) (IZR inc) (IZR rot) (IZR x_m) (IZR y_m)
                (spot 1)
    | _ => Raise IndexError
    end in
  length (box mins maxs) = 8%nat
  /\ exists r th inc rot x_m y_m v,
       a_best 0 2 1 3 0 1 0 1 0 2 0 1 (spot 1) = Ok (r, th, inc, rot, x_m, y_m)
       /\ In [r; th; inc; rot; x_m; y_m] (box mins maxs)
       /\ score [r; th; inc; rot; x_m; y_m] = Ok v
       /\ forall t v', In t (box mins maxs) -> score t = Ok v' -> v' <= v.
Proof.
  intros mins maxs score. split; [reflexivity |].
  apply (@a_best_optimal 0 2 1 3 0 1 0 1 0 2 0 1 (spot 1)).
  - repeat constructor.
  - intros t Ht.
    change (box [0; 1; 0; 0; 0; 0]%Z [2; 3; 1; 1; 2; 1]%Z)
      with [[0; 1; 0; 0; 0; 0]; [0; 1; 0; 0; 1; 0]; [0; 2; 0; 0; 0; 0];
            [0; 2; 0; 0; 1; 0]; [1; 1; 0; 0; 0; 0]; [1; 1; 0; 0; 1; 0];
            [1; 2; 0; 0; 0; 0]; [1; 2; 0; 0; 1; 0]]%Z in Ht.
    repeat (destruct Ht as [<- | Ht];
            [apply a_score_full_image, rect_spot |]).
    destruct Ht.
Defined.

(** An instance: sixteen ellipses of radius 0 or 1 around the four central
    pixels of the 8 x 8 image [ramp 8]. *)
Lemma e_best_optimal_witness :
  let mins := [0; 0; 0; 3; 3]%Z in
  let maxs := [2; 1; 2; 5; 5]%Z in
  let score (t : list Z) :=
    match t with
    | [r; inc; rot; x_m; y_m] =>
        e_score (IZR r) (IZR inc) (IZR rot) (IZR x_m) (IZR y_m) (ramp 8)
    | _ => Raise IndexError
    end in
  length (box mins maxs) = 16%nat
  /\ exists r inc rot x_m y_m v,
       e_best 0 2 0 1 0 2 3 5 3 5 (ramp 8) = Ok (r, inc, rot, x_m, y_m)
       /\ In [r; inc; rot; x_m; y_m] (box mins maxs)
       /\ score [r; inc; rot; x_m; y_m] = Ok v
       /\ forall t v', In t (box mins maxs) -> score t = Ok v' -> v' <= v.
Proof.
  intros mins maxs score. split; [reflexivity |].
  apply (@e_best_optimal 0 2 0 1 0 2 3 5 3 5 (ramp 8)).
  - repeat constructor.
  - intros t Ht.
    apply in_box_5_inv in Ht as (x1 & x2 & x3 & x4 & x5 & -> & Hx).
    eexists.
    apply (@e_score_sum _ _ _ _ _ (ramp 8) 8 8 (rect_ramp 8) (Nat.lt_0_succ 7)).
    intros e He.
    apply (@ellipse_pixel_in_bounds _ _ _ 1 _ _ 8 8 400 e He).
    + rewrite Rabs_right by (apply Rle_ge, IZR_le; lia). apply IZR_le. lia.
    + cbn. lia.
    + cbn. lia.
Defined.

(** X25.  [best_ellipse] returns a combination of the box whose score is
    the largest of the box, whenever every range is non-empty and
    [score_ellipse] returns on every combination. *)
Theorem best_ellipse_optimal
  (r_min r_max inc_min inc_max t_rot_min t_rot_max
   x_m_min x_m_max y_m_min y_m_max : Z) (data : image) :
  let mins := [r_min; inc_min; t_rot_min; x_m_min; y_m_min] in
  let maxs := [r_max; inc_max; t_rot_max; x_m_max; y_m_max] in
  let score (t : list Z) :=
    match t with
    | [r; inc; t_rot; x_m; y_m] =>
        Testplot.score_ellipse (IZR r) (IZR inc) (IZR t_rot)
                               (IZR x_m) (IZR y_m) data
    | _ => Raise IndexError
    end in
  Forall2 Z.lt mins maxs ->
  (forall t, In t (box mins maxs) -> exists v, score t = Ok v) ->
  exists r inc t_rot x_m y_m v,
    Testplot.best_ellipse r_min r_max inc_min inc_max t_rot_min t_rot_max
                          x_m_min x_m_max y_m_min y_m_max data
      = Ok (r, inc, t_rot, x_m, y_m)
    /\ In [r; inc; t_rot; x_m; y_m] (box mins maxs)
    /\ score [r; inc; t_rot; x_m; y_m] = Ok v
    /\ forall t v', In t (box mins maxs) -> score t = Ok v' -> v' <= v.
Proof.
  intros mins maxs score Hne Hscores.
  destruct (grid_search_core score Hne Hscores)
    as (a' & k & Hrun & Hsh & Hk & _ & Hbest & Hmax).
  unfold Testplot.best_ellipse.
  change [r_max - r_min; inc_max - inc_min; t_rot_max - t_rot_min;
          x_m_max - x_m_min; y_m_max - y_m_min]%Z with (sub_list maxs mins).
  rewrite (np_zeros_box Hne). cbn [bind].
  match goal with
  | |- context [bind (for_each ?l ?f ?s) _] =>
      change (for_each l f s)
        with (nest (ranges mins maxs) []
                (fun t score_list =>
                   this_score <- score t ;;
                   nd_set score_list (sub_list t mins) this_score) s)
  end.
  rewrite Hrun. cbn [bind]. rewrite Hk. cbn [bind]. rewrite Hsh.
  assert (Hcs : exists c0 c1 c2 c3 c4,
             unravel_index k (box_shape mins maxs) = [c0; c1; c2; c3; c4]).
  { unfold box_shape, maxs, mins. cbn [sub_list map unravel_index].
    do 5 eexists. reflexivity. }
  destruct Hcs as (c0 & c1 & c2 & c3 & c4 & Ecs).
  rewrite Ecs in *. unfold mins in Hbest at 1. unfold mins in Hmax at 2.
  cbn [add_list] in Hbest, Hmax.
  destruct (Hscores _ Hbest) as (v & Hv).
  do 5 eexists. exists v.
  split; [reflexivity | split; [exact Hbest | split; [exact Hv |]]].
  intros t v' Ht Hv'. specialize (Hmax t Ht).
  rewrite Hv', Hv in Hmax. exact Hmax.
Qed.

(** An instance: sixteen ellipses of radius 0 or 1 around the four central
    pixels of the 8 x 8 image [ramp 8]. *)
Lemma best_ellipse_optimal_witness :
  let mins := [0; 0; 0; 3; 3]%Z in
  let maxs := [2; 1; 2; 5; 5]%Z in
  let score (t : list Z) :=
    match t with
    | [r; inc; t_rot; x_m; y_m] =>
        Testplot.score_ellipse (IZR r) (IZR inc) (IZR t_rot)
                               (IZR x_m) (IZR y_m) (ramp 8)
    | _ => Raise IndexError
    end in
  length (box mins maxs) = 16%nat
  /\ exists r inc t_rot x_m y_m v,
       Testplot.best_ellipse 0 2 0 1 0 2 3 5 3 5 (ramp 8)
         = Ok (r, inc, t_rot, x_m, y_m)
       /\ In [r; inc; t_rot; x_m; y_m] (box mins maxs)
       /\ score [r; inc; t_rot; x_m; y_m] = Ok v
       /\ forall t v', In t (box mins maxs) -> score t = Ok v' -> v' <= v.
Proof.
  intros mins maxs score. split; [reflexivity |].
  apply (@best_ellipse_optimal 0 2 0 1 0 2 3 5 3 5 (ramp 8)).
  - repeat constructor.
  - intros t Ht.
    apply in_box_5_inv in Ht as (x1 & x2 & x3 & x4 & x5 & -> & Hx).
    eexists.
    apply (@score_ellipse_sum _ _ _ _ _ (ramp 8) 8 8 (rect_ramp 8)
             (Nat.lt_0_succ 7)).
    intros e He.
    apply (@ellipse_pixel_in_bounds _ _ _ 1 _ _ 8 8 400 e He).
    + rewrite Rabs_right by (apply Rle_ge, IZR_le; lia). apply IZR_le. lia.
    + cbn. lia.
    + cbn. lia.
Defined.

(** *** Empty ranges *)

Lemma cart_empty_factor {X : Type} (ls : list (list X)) :
  Exists (fun l => l = []) ls -> cart ls = [].
Proof.
  induction 1 as [l ls -> | l ls _ IH]; cbn [cart]; [reflexivity |].
  rewrite IH. induction l as [| x l IHl]; [reflexivity | exact IHl].
Qed.

Lemma py_range_empty (a b : Z) : (b <= a)%Z -> py_range a b = [].
Proof.
  intros H. unfold py_range. replace (Z.to_nat (b - a)) with O by lia.
  reflexivity.
Qed.

Lemma ranges_empty (mins maxs : list Z) :
  Exists (fun p => (snd p <= fst p)%Z) (combine mins maxs) ->
  Exists (fun l => l = []) (ranges mins maxs).
Proof.
  revert maxs. induction mins as [| a mins IH]; intros [| b maxs] H;
    cbn [combine ranges] in *; try solve [inversion H].
  inversion H as [p l Hp | p l Hl]; subst.
  - left. now apply py_range_empty.
  - right. now apply IH.
Qed.

Lemma nest_empty {S : Type} (mins maxs acc : list Z)
  (body : list Z -> S -> result S) (s : S) :
  Exists (fun p => (snd p <= fst p)%Z) (combine mins maxs) ->
  nest (ranges mins maxs) acc body s = Ok s.
Proof.
  intros H. rewrite nest_cart, (@cart_empty_factor _ _ (@ranges_empty mins maxs H)).
  reflexivity.
Qed.

Lemma np_zeros_empty (mins maxs : list Z) :
  Exists (fun p => (snd p <= fst p)%Z) (combine mins maxs) ->
  np_zeros (sub_list maxs mins) = Raise ValueError
  \/ exists sh, np_zeros (sub_list maxs mins) = Ok (mk_nd sh []).
Proof.
  intros H. unfold np_zeros.
  destruct (forallb (fun d => (0 <=? d)%Z) (sub_list maxs mins)) eqn:E;
    [right | now left].
  eexists. apply f_equal, f_equal.
  replace (prod_shape (map Z.to_nat (sub_list maxs mins))) with O;
    [reflexivity |].
  symmetry. revert maxs H E.
  induction mins as [| a mins IH]; intros [| b maxs] H E;
    cbn [combine sub_list map forallb prod_shape fold_right] in *;
    try solve [inversion H].
  apply andb_prop in E as [Eb E].
  inversion H as [p l Hp | p l Hl]; subst.
  - cbn [fst snd] in Hp. apply Z.leb_le in Eb.
    replace (Z.to_nat (b - a)) with O by lia. reflexivity.
  - fold (prod_shape (map Z.to_nat (sub_list maxs mins))).
    rewrite (IH maxs Hl E). apply Nat.mul_0_r.
Qed.

(** An exhaustive search over a box with an empty range: either
    [np.zeros] rejects a negative dimension, or the score array is empty,
    no loop body runs and [argmax] rejects the empty array. *)
Lemma grid_search_empty {T : Type} (mins maxs : list Z)
  (body : list Z -> ndarray -> result ndarray)
  (cont : ndarray -> nat -> result T) :
  Exists (fun p => (snd p <= fst p)%Z) (combine mins maxs) ->
  (score_list <- np_zeros (sub_list maxs mins) ;;
   score_list <- nest (ranges mins maxs) [] body score_list ;;
   k <- argmax score_list ;;
   cont score_list k) = Raise ValueError.
Proof.
  intros H. destruct (@np_zeros_empty mins maxs H) as [-> | (sh & ->)];
    [reflexivity |].
  cbn [bind]. rewrite (@nest_empty _ mins maxs [] body _ H). reflexivity.
Qed.

Lemma empty_range_6 (a0 b0 a1 b1 a2 b2 a3 b3 a4 b4 a5 b5 : Z) :
  (b0 <= a0 \/ b1 <= a1 \/ b2 <= a2 \/ b3 <= a3 \/ b4 <= a4 \/ b5 <= a5)%Z ->
  Exists (fun p => (snd p <= fst p)%Z)
         (combine [a0; a1; a2; a3; a4; a5] [b0; b1; b2; b3; b4; b5]).
Proof.
  cbn [combine]. intros [H | [H | [H | [H | [H | H]]]]];
    repeat first [ left; exact H | right ].
Qed.

Lemma empty_range_5 (a0 b0 a1 b1 a2 b2 a3 b3 a4 b4 : Z) :
  (b0 <= a0 \/ b1 <= a1 \/ b2 <= a2 \/ b3 <= a3 \/ b4 <= a4)%Z ->
  Exists (fun p => (snd p <= fst p)%Z)
         (combine [a0; a1; a2; a3; a4] [b0; b1; b2; b3; b4]).
Proof.
  cbn [combine]. intros [H | [H | [H | [H | H]]]];
    repeat first [ left; exact H | right ].
Qed.

(** X26.  The six-parameter searches [a_best] and [best_annulus] raise
    [ValueError] as soon as one range is empty, without scoring anything:
    [np.zeros] rejects a negative dimension, and [argmax] rejects the empty
    score array. *)
Theorem annulus_searches_empty_range (g : globals)
  (r_min r_max th_min th_max inc_min inc_max rot_min rot_max
   x_m_min x_m_max y_m_min y_m_max : Z) (data : image) :
  (r_max <= r_min \/ th_max <= th_min \/ inc_max <= inc_min
   \/ rot_max <= rot_min \/ x_m_max <= x_m_min \/ y_m_max <= y_m_min)%Z ->
  a_best r_min r_max th_min th_max inc_min inc_max rot_min rot_max
         x_m_min x_m_max y_m_min y_m_max data = Raise ValueError
  /\ Testplot.best_annulus g r_min r_max th_min th_max inc_min inc_max
       rot_min rot_max x_m_min x_m_max y_m_min y_m_max data
     = Raise ValueError.
Proof.
  intros H. apply empty_range_6 in H. split.
  - exact (@grid_search_empty _
             [r_min; th_min; inc_min; rot_min; x_m_min; y_m_min]
             [r_max; th_max; inc_max; rot_max; x_m_max; y_m_max]
             (fun t score_list =>
                match t with
                | [r; th; inc; rot; x_m; y_m] =>
                    this_score <- a_score (IZR r) (IZR th) (IZR inc) (IZR rot)
                                          (IZR x_m) (IZR y_m) data ;;
                    nd_set score_list
                      [r - r_min; th - th_min; inc - inc_min; rot - rot_min;
                       x_m - x_m_min; y_m - y_m_min]%Z this_score
                | _ => Raise IndexError
                end)
             (fun score_list k =>
                match unravel_index k (nd_shape score_list) with
                | [c0; c1; c2; c3; c4; c5] =>
                    Ok (Z.of_nat c0 + r_min, Z.of_nat c1 + th_min,
                        Z.of_nat c2 + inc_min, Z.of_nat c3 + rot_min,
                        Z.of_nat c4 + x_m_min, Z.of_nat c5 + y_m_min)%Z
                | _ => Raise IndexError
                end) H).
  - exact (@grid_search_empty _
             [r_min; th_min; inc_min; rot_min; x_m_min; y_m_min]
             [r_max; th_max; inc_max; rot_max; x_m_max; y_m_max]
             (fun t score_list =>
                match t with
                | [r; th; inc; rot; x_m; y_m] =>
                    this_score <- Testplot.score_annulus g (IZR r) (IZR th)
                                    (IZR inc) (IZR rot) (IZR x_m) (IZR y_m)
                                    data ;;
                    nd_set score_list
                      [r - r_min; inc - inc_min; th - th_min; rot - rot_min;
                       x_m - x_m_min; y_m - y_m_min]%Z this_score
                | _ => Raise IndexError
                end)
             (fun score_list k =>
                match unravel_index k (nd_shape score_list) with
                | [c0; c1; c2; c3; c4; c5] =>
                    Ok (Z.of_nat c0 + r_min, Z.of_nat c1 + th_min,
                        Z.of_nat c2 + inc_min, Z.of_nat c3 + rot_min,
                        Z.of_nat c4 + x_m_min, Z.of_nat c5 + y_m_min)%Z
                | _ => Raise IndexError
                end) H).
Qed.

(** An instance: an empty radius range, and an inverted thickness range. *)
Lemma annulus_searches_empty_range_witness :
  a_best 3 3 0 1 0 1 0 1 0 1 0 1 [[1]] = Raise ValueError
  /\ Testplot.best_annulus (mk_globals [[1]]) 0 1 5 2 0 1 0 1 0 1 0 1 [[1]]
     = Raise ValueError.
Proof.
  split.
  - apply (@annulus_searches_empty_range (mk_globals [[1]])
             3 3 0 1 0 1 0 1 0 1 0 1 [[1]]).
    left. lia.
  - apply (@annulus_searches_empty_range (mk_globals [[1]])
             0 1 5 2 0 1 0 1 0 1 0 1 [[1]]).
    right. left. lia.
Defined.

(** X27.  The five-parameter searches [e_best] and [best_ellipse] raise
    [ValueError] as soon as one range is empty, without scoring
    anything. *)
Theorem ellipse_searches_empty_range
  (r_min r_max inc_min inc_max rot_min rot_max
   x_m_min x_m_max y_m_min y_m_max : Z) (data : image) :
  (r_max <= r_min \/ inc_max <= inc_min \/ rot_max <= rot_min
   \/ x_m_max <= x_m_min \/ y_m_max <= y_m_min)%Z ->
  e_best r_min r_max inc_min inc_max rot_min rot_max
         x_m_min x_m_max y_m_min y_m_max data = Raise ValueError
  /\ Testplot.best_ellipse r_min r_max inc_min inc_max rot_min rot_max
       x_m_min x_m_max y_m_min y_m_max data = Raise ValueError.
Proof.
  intros H. apply empty_range_5 in H. split.
  - exact (@grid_search_empty _
             [r_min; inc_min; rot_min; x_m_min; y_m_min]
             [r_max; inc_max; rot_max; x_m_max; y_m_max]
             (fun t score_list =>
                match t with
                | [r; inc; rot; x_m; y_m] =>
                    this_score <- e_score (IZR r) (IZR inc) (IZR rot)
                                          (IZR x_m) (IZR y_m) data ;;
                    nd_set score_list
                      [r - r_min; inc - inc_min; rot - rot_min;
                       x_m - x_m_min; y_m - y_m_min]%Z this_score
                | _ => Raise IndexError
                end)
             (fun score_list k =>
                match unravel_index k (nd_shape score_list) with
                | [c0; c1; c2; c3; c4] =>
                    Ok (Z.of_nat c0 + r_min, Z.of_nat c1 + inc_min,
                        Z.of_nat c2 + rot_min, Z.of_nat c3 + x_m_min,
                        Z.of_nat c4 + y_m_min)%Z
                | _ => Raise IndexError
                end) H).
  - exact (@grid_search_empty _
             [r_min; inc_min; rot_min; x_m_min; y_m_min]
             [r_max; inc_max; rot_max; x_m_max; y_m_max]
             (fun t score_list =>
                match t with
                | [r; inc; rot; x_m; y_m] =>
                    this_score <- Testplot.score_ellipse (IZR r) (IZR inc)
                                    (IZR rot) (IZR x_m) (IZR y_m) data ;;
                    nd_set score_list
                      [r - r_min; inc - inc_min; rot - rot_min;
                       x_m - x_m_min; y_m - y_m_min]%Z this_score
                | _ => Raise IndexError
                end)
             (fun score_list k =>
                match unravel_index k (nd_shape score_list) with
                | [c0; c1; c2; c3; c4] =>
                    Ok (Z.of_nat c0 + r_min, Z.of_nat c1 + inc_min,
                        Z.of_nat c2 + rot_min, Z.of_nat c3 + x_m_min,
                        Z.of_nat c4 + y_m_min)%Z
                | _ => Raise IndexError
                end) H).
Qed.

(** An instance: an empty centre range, and an inverted radius range. *)
Lemma ellipse_searches_empty_range_witness :
  e_best 0 1 0 1 0 1 2 2 0 1 [[1]] = Raise ValueError
  /\ Testplot.best_ellipse 7 4 0 1 0 1 0 1 0 1 [[1]] = Raise ValueError.
Proof.
  split.
  - apply (@ellipse_searches_empty_range 0 1 0 1 0 1 2 2 0 1 [[1]]).
    right. right. right. left. lia.
  - apply (@ellipse_searches_empty_range 7 4 0 1 0 1 0 1 0 1 [[1]]).
    left. lia.
Defined.

(* ===================================================================== *)
(** ** [deproject] in floating-point arithmetic                            *)
(* ===================================================================== *)

(** The two loops of [deproject] on a rectangular source, for a resampled
    column [col j] that stays inside the source. *)
Lemma resample_loops (h w new_w : nat) (data : image) (col : nat -> Z) :
  rect h w data ->
  (forall j, (j < new_w)%nat -> (0 <= col j < Z.of_nat w)%Z) ->
  exists out,
    for_each (range h) (fun i new_data =>
      for_each (range new_w) (fun j new_data =>
        v <- get2 data (Z.of_nat i) (col j) ;;
        set2 new_data (Z.of_nat i) (Z.of_nat j) v)
      new_data)
    (np_full h new_w 0) = Ok out
    /\ rect h new_w out
    /\ forall i j, (i < h)%nat -> (j < new_w)%nat ->
         px out (i, j) = px data (i, Z.to_nat (col j)).
Proof.
  intros Hr Hcol.
  rewrite (for_each_nested (range h) (range new_w)
             (fun i j new_data =>
                v <- get2 data (Z.of_nat i) (col j) ;;
                set2 new_data (Z.of_nat i) (Z.of_nat j) v)).
  destruct (@fill_spec h new_w
              (fun p => px data (fst p, Z.to_nat (col (snd p))))
              (fun p new_data =>
                 v <- get2 data (Z.of_nat (fst p)) (col (snd p)) ;;
                 set2 new_data (Z.of_nat (fst p)) (Z.of_nat (snd p)) v)
              (grid h new_w))
    with (a := np_full h new_w 0) as (out & Hrun & Hrout & Hval & _).
  - intros p Hp. now apply in_grid.
  - intros [i j] a Hp. apply in_grid in Hp as [Hi Hj]. cbn [fst snd] in *.
    destruct (Hcol j Hj) as [Hlo Hhi].
    rewrite <- (Z2Nat.id (col j)) at 1 by assumption.
    rewrite (rect_get2 Hr Hi) by lia. reflexivity.
  - apply rect_np_full.
  - exists out. split; [exact Hrun | split; [exact Hrout |]].
    intros i j Hi Hj.
    pose proof (Hval (i, j)) as Hv. cbn [fst snd] in Hv.
    rewrite (rect_get2 Hrout Hi Hj) in Hv.
    assert (Hin : In (i, j) (grid h new_w)) by (apply in_grid; cbn; lia).
    specialize (Hv Hin). now injection Hv.
Qed.

(** A rounding of relative error at most [u] keeps a non-negative number
    non-negative and raises it by the factor [1 + u] at most. *)
Lemma rnd_nonneg {A : arith} (u x : R) :
  0 <= u <= 1 -> rounds_within u x ->
  0 <= x -> 0 <= rnd x <= x * (1 + u).
Proof.
  intros Hu H Hx. unfold rounds_within in H.
  rewrite (Rabs_right x) in H by lra.
  pose proof (Rle_abs (rnd x - x)) as H1.
  pose proof (Rle_abs (- (rnd x - x))) as H2. rewrite Rabs_Ropp in H2.
  split; nra.
Qed.

(** The resampled column of an output column of [deproject] lies inside
    the source, when the computed cosine [c] is not within the rounding
    error of 0. *)
Lemma deproject_column_rounded {A : arith} (u c : R) (w j : nat) :
  0 <= u <= 1 ->
  rounds_within u (INR w / c) ->
  (forall k : nat, INR k * c <= 2 * INR w -> rounds_within u (INR k * c)) ->
  3 * u * INR w < c ->
  (j < Z.to_nat (np_int (INR w [/] c)))%nat ->
  (0 <= np_int (INR j [*] c) < Z.of_nat w)%Z.
Proof.
  intros Hu Herrq Herrp Hc Hj. unfold fdiv in Hj. unfold fmul.
  pose proof (pos_INR w) as Hw. pose proof (pos_INR j) as Hjpos.
  assert (Hc0 : 0 < c) by nra.
  assert (Hq : 0 <= INR w / c).
  { apply Rmult_le_pos; [exact Hw |]. apply Rlt_le.
    now apply Rinv_0_lt_compat. }
  destruct (rnd_nonneg Hu Herrq Hq) as [Hq0 Hq1].
  destruct (np_int_nonneg Hq0) as [Eq _]. rewrite Eq in Hj.
  pose proof (Zfloor_bound (rnd (INR w / c))) as [Hfl _].
  assert (Hj' : (Z.of_nat j + 1 <= Zfloor (rnd (INR w / c)))%Z) by lia.
  apply IZR_le in Hj'. rewrite plus_IZR, <- INR_IZR_INZ in Hj'.
  assert (Hjc : (INR j + 1) * c <= INR w * (1 + u)).
  { assert (H1 : INR j + 1 <= INR w / c * (1 + u)) by lra.
    apply Rmult_le_compat_r with (r := c) in H1; [| lra].
    replace (INR w / c * (1 + u) * c) with (INR w * (1 + u)) in H1
      by (field; lra).
    exact H1. }
  assert (Hp : 0 <= INR j * c) by nra.
  assert (Hsmall : INR j * c <= 2 * INR w) by nra.
  destruct (rnd_nonneg Hu (Herrp j Hsmall) Hp) as [Hp0 Hp1].
  destruct (np_int_nonneg Hp0) as [-> Hge]. split; [exact Hge |].
  pose proof (Zfloor_bound (rnd (INR j * c))) as [Hfp _].
  apply lt_IZR. rewrite <- INR_IZR_INZ.
  assert (Hlt : INR j * c * (1 + u) < INR w).
  { assert (H2 : INR j * c <= INR w * (1 + u) - c) by lra.
    assert (H3 : INR j * c * (1 + u) <= (INR w * (1 + u) - c) * (1 + u))
      by (apply Rmult_le_compat_r; lra).
    assert (H4 : INR w * (2 * u + u * u) <= 3 * u * INR w) by nra.
    nra. }
  lra.
Qed.

(** C7.  In an arithmetic where [radians 0 = 0] and [cos 0 = 1] and that
    holds the column numbers exactly, [deproject] at inclination 0 returns
    a rectangular image with at least one row as it is.  At an inclination
    strictly between 0 and 90 degrees whose computed cosine [c] exceeds
    [3 u w], when the quotient [w / c] and the products [j * c] up to
    [2 w] are rounded with a relative error of at most [u], it returns an
    array with as many rows as the image, every row of width
    [floor (w / c)], the quotient being the rounded one the program
    computes, for [w] the width of the image. *)
Theorem deproject_identity_and_width {A : arith} (u : R) (data : image)
  (h w : nat) :
  rect h w data -> (0 < h)%nat ->
  np_radians 0 = 0 -> np_cos 0 = 1 ->
  (forall n : nat, (n <= w)%nat -> rnd (INR n) = INR n) ->
  0 <= u <= 1 ->
  Float64.deproject data 0 = Ok data
  /\ forall inc, 0 < inc < 90 ->
       3 * u * INR w < np_cos (np_radians inc) ->
       rounds_within u (INR w / np_cos (np_radians inc)) ->
       (forall j : nat, INR j * np_cos (np_radians inc) <= 2 * INR w ->
          rounds_within u (INR j * np_cos (np_radians inc))) ->
       exists out,
         Float64.deproject data inc = Ok out
         /\ length out = length data
         /\ Forall (fun row =>
                      Z.of_nat (length row)
                      = Zfloor (INR w [/] np_cos (np_radians inc)))
                   out.
Proof.
  intros Hr Hh Hrad Hcos Hint Hu.
  pose proof Hr as [Hlen Hrows]. split.
  - unfold Float64.deproject. rewrite (rect_width Hr Hh). cbn [bind]. cbv zeta.
    rewrite Hrad, Hcos. unfold fdiv.
    replace (INR w / 1) with (INR w) by field.
    rewrite (Hint w (Nat.le_refl w)), np_int_INR.
    destruct (Z.ltb_spec (Z.of_nat w) 0) as [Hneg | _]; [lia |].
    rewrite Nat2Z.id, Hlen.
    assert (Hcol : forall j, (j < w)%nat -> np_int (INR j [*] 1) = Z.of_nat j).
    { intros j Hj. unfold fmul. rewrite Rmult_1_r, (Hint j) by lia.
      apply np_int_INR. }
    destruct (@resample_loops h w w data (fun j => np_int (INR j [*] 1)) Hr)
      as (out & Hrun & Hrout & Hpx).
    { intros j Hj. rewrite (Hcol j Hj). lia. }
    rewrite Hrun. apply f_equal.
    apply rect_ext with (h := h) (w := w); [exact Hrout | exact Hr |].
    intros i j Hi Hj. rewrite (Hpx i j Hi Hj), (Hcol j Hj), Nat2Z.id.
    reflexivity.
  - intros inc _ Hc Herrq Herrp.
    set (c := np_cos (np_radians inc)) in *.
    pose proof (pos_INR w) as Hw.
    assert (Hc0 : 0 < c) by nra.
    assert (Hq : 0 <= INR w / c).
    { apply Rmult_le_pos; [exact Hw |]. apply Rlt_le.
      now apply Rinv_0_lt_compat. }
    destruct (rnd_nonneg Hu Herrq Hq) as [Hq0 _].
    destruct (np_int_nonneg Hq0) as [Eq Hfloor].
    unfold Float64.deproject. rewrite (rect_width Hr Hh). cbn [bind]. cbv zeta.
    fold c. change (rnd (INR w / c)) with (INR w [/] c) in Eq, Hfloor.
    rewrite Eq.
    destruct (Z.ltb_spec (Zfloor (INR w [/] c)) 0) as [Hneg | _]; [lia |].
    rewrite Hlen.
    destruct (@resample_loops h w (Z.to_nat (Zfloor (INR w [/] c))) data
                (fun j => np_int (INR j [*] c)) Hr)
      as (out & Hrun & [Hhout Hwout] & _).
    { intros j Hj.
      apply (@deproject_column_rounded A u c w j Hu Herrq Herrp Hc).
      rewrite Eq. exact Hj. }
    exists out. split; [exact Hrun | split; [congruence |]].
    apply Forall_impl with (2 := Hwout). intros row ->. now apply Z2Nat.id.
Qed.

Lemma cos_radians_45 : cos (radians 45) = 1 / sqrt 2.
Proof.
  unfold radians. replace (45 * (PI / 180)) with (PI / 4) by field.
  apply cos_PI4.
Qed.

Lemma sqrt_2_bounds : 1 < sqrt 2 < 3 / 2.
Proof.
  split.
  - rewrite <- sqrt_1 at 1. apply sqrt_lt_1; lra.
  - replace (3 / 2) with (sqrt (3 / 2 * (3 / 2))) by (apply sqrt_square; lra).
    apply sqrt_lt_1; lra.
Qed.

Lemma cos_radians_45_bounds : 2 / 3 < cos (radians 45) < 1.
Proof.
  rewrite cos_radians_45. pose proof sqrt_2_bounds as [H1 H2].
  assert (H0 : 0 < sqrt 2) by lra.
  split.
  - apply Rmult_lt_reg_r with (r := sqrt 2); [exact H0 |].
    replace (1 / sqrt 2 * sqrt 2) with 1 by (field; lra). lra.
  - apply Rmult_lt_reg_r with (r := sqrt 2); [exact H0 |].
    replace (1 / sqrt 2 * sqrt 2) with 1 by (field; lra). lra.
Qed.

(** The width [floor (2 / cos 45)] is 2, and the source column of the
    output column 1 is [floor (cos 45) = 0]. *)
Lemma floor_2_over_cos_45 : Zfloor (INR 2 / cos (radians 45)) = 2%Z.
Proof.
  pose proof cos_radians_45_bounds as [H1 H2].
  apply Zfloor_eq. cbn [INR]. split.
  - apply Rmult_le_reg_r with (r := cos (radians 45)); [lra |].
    replace ((1 + 1) / cos (radians 45) * cos (radians 45)) with 2
      by (field; lra).
    lra.
  - apply Rmult_lt_reg_r with (r := cos (radians 45)); [lra |].
    replace ((1 + 1) / cos (radians 45) * cos (radians 45)) with 2
      by (field; lra).
    lra.
Qed.

Lemma floor_cos_45 : Zfloor (INR 1 * cos (radians 45)) = 0%Z.
Proof.
  pose proof cos_radians_45_bounds as [H1 H2].
  apply Zfloor_eq. cbn [INR]. lra.
Qed.

Lemma exact_rounds (y : R) : rounds_within (A := exact) 0 y.
Proof.
  unfold rounds_within. cbn [rnd exact].
  replace (y - y) with 0 by ring. rewrite Rabs_R0. lra.
Qed.

(** An instance in the arithmetic without rounding: a 2 x 2 image at
    inclination 0, and at 45 degrees, where the width is
    [floor (2 / cos 45) = 2]. *)
Lemma deproject_identity_and_width_witness :
  Float64.deproject (A := exact) [[1; 2]; [3; 4]] 0 = Ok [[1; 2]; [3; 4]]
  /\ exists out,
       Float64.deproject (A := exact) [[1; 2]; [3; 4]] 45 = Ok out
       /\ length out = 2%nat
       /\ Forall (fun row => Z.of_nat (length row) = 2%Z) out.
Proof.
  destruct (@deproject_identity_and_width exact 0 [[1; 2]; [3; 4]] 2 2
              (rect_2x2 1 2 3 4) (Nat.lt_0_succ 1) radians_0 cos_0
              (fun n _ => eq_refl) (conj (Rle_refl 0) Rle_0_1))
    as [H0 Hacute].
  split; [exact H0 |].
  destruct (Hacute 45) as (out & Hrun & Hlen & Hw).
  - lra.
  - pose proof cos_radians_45_bounds. cbn [np_cos np_radians exact]. lra.
  - apply exact_rounds.
  - intros j _. apply exact_rounds.
  - exists out. split; [exact Hrun | split; [exact Hlen |]].
    change (INR 2 [/] np_cos (np_radians 45))
      with (INR 2 / cos (radians 45)) in Hw.
    rewrite floor_2_over_cos_45 in Hw. exact Hw.
Defined.

(** X28.  Whenever the computed cosine [c] of the inclination exceeds
    [3 u w], and the quotient [w / c] and the products [j * c] up to [2 w]
    are rounded with a relative error of at most [u], [deproject]
    resamples each row by nearest neighbour: entry [(i, j)] of the result
    is entry [(i, floor (j * c))] of the image, a column that exists, so
    the call does not raise; the product is the rounded one the program
    computes. *)
Theorem deproject_resamples {A : arith} (u : R) (data : image) (h w : nat)
  (inc : R) :
  rect h w data -> (0 < h)%nat ->
  0 <= u <= 1 ->
  3 * u * INR w < np_cos (np_radians inc) ->
  rounds_within u (INR w / np_cos (np_radians inc)) ->
  (forall j : nat, INR j * np_cos (np_radians inc) <= 2 * INR w ->
     rounds_within u (INR j * np_cos (np_radians inc))) ->
  let new_w := Z.to_nat (Zfloor (INR w [/] np_cos (np_radians inc))) in
  exists out,
    Float64.deproject data inc = Ok out
    /\ rect h new_w out
    /\ forall i j, (i < h)%nat -> (j < new_w)%nat ->
         let src := Z.to_nat (Zfloor (INR j [*] np_cos (np_radians inc))) in
         (src < w)%nat /\ px out (i, j) = px data (i, src).
Proof.
  intros Hr Hh Hu Hc Herrq Herrp new_w.
  set (c := np_cos (np_radians inc)) in *.
  pose proof Hr as [Hlen Hrows].
  pose proof (pos_INR w) as Hw.
  assert (Hc0 : 0 < c) by nra.
  assert (Hq : 0 <= INR w / c).
  { apply Rmult_le_pos; [exact Hw |]. apply Rlt_le.
    now apply Rinv_0_lt_compat. }
  destruct (rnd_nonneg Hu Herrq Hq) as [Hq0 Hq1].
  destruct (np_int_nonneg Hq0) as [Eq Hfloor].
  change (rnd (INR w / c)) with (INR w [/] c) in Eq, Hfloor.
  assert (Hcol : forall j, (j < new_w)%nat ->
             (0 <= np_int (INR j [*] c) < Z.of_nat w)%Z
             /\ np_int (INR j [*] c) = Zfloor (INR j [*] c)).
  { intros j Hj. split.
    - apply (@deproject_column_rounded A u c w j Hu Herrq Herrp Hc).
      rewrite Eq. exact Hj.
    - assert (Hp : 0 <= INR j * c) by (pose proof (pos_INR j); nra).
      assert (Hsmall : INR j * c <= 2 * INR w).
      { pose proof (Zfloor_bound (INR w [/] c)) as [Hfl _].
        assert (Hj' : (Z.of_nat j + 1 <= Zfloor (INR w [/] c))%Z)
          by (unfold new_w in Hj; lia).
        apply IZR_le in Hj'. rewrite plus_IZR, <- INR_IZR_INZ in Hj'.
        unfold fdiv in Hfl, Hj'.
        assert (H1 : INR j <= INR w / c * (1 + u)) by lra.
        apply Rmult_le_compat_r with (r := c) in H1; [| lra].
        replace (INR w / c * (1 + u) * c) with (INR w * (1 + u)) in H1
          by (field; lra).
        nra. }
      destruct (rnd_nonneg Hu (Herrp j Hsmall) Hp) as [Hp0 _].
      exact (proj1 (np_int_nonneg Hp0)). }
  unfold Float64.deproject. rewrite (rect_width Hr Hh). cbn [bind]. cbv zeta.
  fold c. rewrite Eq.
  destruct (Z.ltb_spec (Zfloor (INR w [/] c)) 0) as [Hneg | _]; [lia |].
  rewrite Hlen. fold new_w.
  destruct (@resample_loops h w new_w data (fun j => np_int (INR j [*] c)) Hr)
    as (out & Hrun & Hrout & Hpx).
  { intros j Hj. apply (Hcol j Hj). }
  exists out. split; [exact Hrun | split; [exact Hrout |]].
  intros i j Hi Hj. destruct (Hcol j Hj) as [Hrange Efl].
  rewrite <- Efl. split; [lia |]. exact (Hpx i j Hi Hj).
Qed.

(** An instance in the arithmetic without rounding: at 45 degrees the row
    [1, 2] becomes [1, 1], both output columns reading the source column
    0. *)
Lemma deproject_resamples_witness :
  Float64.deproject (A := exact) [[1; 2]] 45 = Ok [[1; 1]].
Proof.
  assert (Hr : rect 1 2 ([[1; 2]] : image)).
  { split; [reflexivity | repeat constructor]. }
  destruct (@deproject_resamples exact 0 [[1; 2]] 1 2 45 Hr Nat.lt_0_1
              (conj (Rle_refl 0) Rle_0_1))
    as (out & Hrun & Hrout & Hpx).
  { pose proof cos_radians_45_bounds. cbn [np_cos np_radians exact]. lra. }
  { apply exact_rounds. }
  { intros j _. apply exact_rounds. }
  change (INR 2 [/] np_cos (np_radians 45))
    with (INR 2 / cos (radians 45)) in Hrout, Hpx.
  rewrite floor_2_over_cos_45 in Hrout, Hpx.
  change (Z.to_nat 2) with 2%nat in Hrout, Hpx.
  rewrite Hrun. apply f_equal.
  apply rect_ext with (h := 1%nat) (w := 2%nat);
    [exact Hrout | split; [reflexivity | repeat constructor] |].
  intros i j Hi Hj. destruct (Hpx i j Hi Hj) as [_ E]. rewrite E.
  replace i with O by lia.
  destruct j as [| [| j]]; [| | lia].
  - change (INR 0 [*] np_cos (np_radians 45)) with (INR 0 * cos (radians 45)).
    cbn [INR]. rewrite Rmult_0_l, (ZfloorZ 0). reflexivity.
  - change (INR 1 [*] np_cos (np_radians 45)) with (INR 1 * cos (radians 45)).
    rewrite floor_cos_45. reflexivity.
Defined.

(** C7, as stated, fails at 60 degrees.  The width of the claim is
    [floor (2 / cos 60) = 4] for an image of width 2; with the cosine the
    program computes, just above 1/2, the quotient falls below 4 and
    [deproject] returns three columns, reading the source columns 0, 0
    and 1. *)
Lemma deproject_width_at_60 :
  Zfloor (2 / cos (radians 60)) = 4%Z
  /\ Float64.deproject (A := cos_60_rounded) [[1; 2]] 60 = Ok [[1; 1; 2]].
Proof.
  split.
  - rewrite cos_radians_60. replace (2 / (1 / 2)) with 4 by field.
    apply (ZfloorZ 4).
  - assert (He : 0 < / 9007199254740992 < 1 / 1000) by lra.
    assert (Hc : np_cos (arith := cos_60_rounded)
                   (np_radians (arith := cos_60_rounded) 60) = float_cos_60).
    { cbn [np_cos np_radians cos_60_rounded].
      destruct (Req_dec_T (radians 60) (radians 60)); [reflexivity | congruence]. }
    assert (Hr : rect 1 2 ([[1; 2]] : image)).
    { split; [reflexivity | repeat constructor]. }
    assert (Hq : 3 <= 2 / float_cos_60 < 4).
    { unfold float_cos_60. split.
      - apply Rmult_le_reg_r with (r := 1 / 2 + / 9007199254740992); [lra |].
        replace (2 / (1 / 2 + / 9007199254740992)
                 * (1 / 2 + / 9007199254740992)) with 2 by (field; lra).
        lra.
      - apply Rmult_lt_reg_r with (r := 1 / 2 + / 9007199254740992); [lra |].
        replace (2 / (1 / 2 + / 9007199254740992)
                 * (1 / 2 + / 9007199254740992)) with 2 by (field; lra).
        lra. }
    assert (Hw : np_int (2 / float_cos_60) = 3%Z).
    { destruct (@np_int_nonneg (2 / float_cos_60)) as [-> _]; [lra |].
      apply Zfloor_eq. cbn. lra. }
    assert (Hcol : forall j, (j < 3)%nat ->
               np_int (INR j * float_cos_60)
               = match j with 2%nat => 1%Z | _ => 0%Z end).
    { intros j Hj. unfold float_cos_60.
      destruct (@np_int_nonneg (INR j * (1 / 2 + / 9007199254740992)))
        as [-> _].
      - pose proof (pos_INR j). nra.
      - destruct j as [| [| [| j]]]; [| | | lia]; cbn [INR];
          apply Zfloor_eq; cbn; lra. }
    unfold Float64.deproject.
    rewrite (bind_ok _ (rect_width Hr Nat.lt_0_1)). cbv zeta.
    rewrite Hc. unfold fdiv, fmul. cbn [rnd cos_60_rounded].
    change (INR 2) with (1 + 1). replace (1 + 1) with 2 by ring.
    rewrite Hw. cbn [Z.ltb Z.compare length]. change (Z.to_nat 3) with 3%nat.
    destruct (@resample_loops 1 2 3 [[1; 2]]
                (fun j => np_int (INR j * float_cos_60)) Hr)
      as (out & Hrun & Hrout & Hpx).
    { intros j Hj. rewrite (Hcol j Hj). destruct j as [| [| [| j]]]; lia. }
    rewrite Hrun. apply f_equal.
    apply rect_ext with (h := 1%nat) (w := 3%nat);
      [exact Hrout | split; [reflexivity | repeat constructor] |].
    intros i j Hi Hj. rewrite (Hpx i j Hi Hj), (Hcol j Hj).
    replace i with O by lia.
    destruct j as [| [| [| j]]]; [| | | lia]; reflexivity.
Qed.

(* ===================================================================== *)
(** ** The band scorers in floating-point arithmetic                       *)
(* ===================================================================== *)

(** In the arithmetic without rounding the tests of the band scorers are
    those of the idealised embedding. *)
Lemma exact_a_in_band (r th inc rot x_m y_m : R) (i j : nat) :
  Float64.a_in_band (A := exact) r th inc rot x_m y_m i j
  = a_in_band r th inc rot x_m y_m i j.
Proof. reflexivity. Qed.

Lemma exact_score_annulus_test (r th inc t_rot x_m y_m : R) (i j : nat) :
  Float64.score_annulus_test (A := exact) r th inc t_rot x_m y_m i j
  = score_annulus_test r th inc t_rot x_m y_m i j.
Proof. reflexivity. Qed.

Section BandScanWith.

Variable add : R -> R -> R.
Variable test : nat -> nat -> bool.
Variable img : image.
Variables h w : nat.
Hypothesis img_rect : rect h w img.

Let t (p : nat * nat) : bool := test (fst p) (snd p).
Let step (p : nat * nat) := band_step_with add test img (fst p) (snd p).

(** The scan of a duplicate-free list of pixels whose in-band members lie
    inside the image and are not yet marked: every in-band pixel is
    counted once and its intensity accumulated once, in the order of the
    scan. *)
Lemma band_scan_with_spec (l : list (nat * nat)) :
  NoDup l ->
  (forall p, In p l -> t p = true -> (fst p < h)%nat /\ (snd p < w)%nat) ->
  forall (mask : list (list bool)) (n : nat) (s : R),
    rect h w mask ->
    (forall p, In p l -> t p = true ->
       get2 mask (Z.of_nat (fst p)) (Z.of_nat (snd p)) = Ok false) ->
    exists mask',
      for_each l step (mask, n, s)
      = Ok (mask', (n + length (filter t l))%nat,
            fold_left add (map (px img) (filter t l)) s).
Proof.
  induction l as [| p l IH]; intros Hnd Hin mask n s Hm Hfalse.
  - exists mask. cbn. f_equal. f_equal. f_equal. lia.
  - inversion Hnd as [| ? ? Hnotin Hnd']; subst.
    cbn [for_each filter]. unfold step at 1. unfold band_step_with.
    fold (t p). destruct (t p) eqn:Et.
    + destruct (Hin p (or_introl eq_refl) Et) as [Hi Hj].
      rewrite (Hfalse p (or_introl eq_refl) Et). cbn [bind eqb].
      destruct p as [i j]. cbn [fst snd] in *.
      rewrite (rect_get2 img_rect Hi Hj). cbn [bind].
      destruct (rect_set2 true Hm Hi Hj) as (mask2 & Hset & Hm2 & Hother).
      rewrite Hset. cbn [bind].
      destruct (IH Hnd' (fun q Hq => Hin q (or_intror Hq)) mask2 (S n)
                  (add s (px img (i, j))) Hm2) as (mask' & Hrun).
      { intros q Hq Hqt. rewrite Hother.
        - apply Hfalse; [now right | assumption].
        - intros E. apply Hnotin. destruct q. cbn [fst snd] in E.
          now rewrite <- E. }
      exists mask'. fold step. rewrite Hrun. cbn [length map fold_left].
      f_equal. f_equal. f_equal. lia.
    + cbn [bind].
      destruct (IH Hnd' (fun q Hq => Hin q (or_intror Hq)) mask n s Hm)
        as (mask' & Hrun).
      { intros q Hq Hqt. apply Hfalse; [now right | assumption]. }
      exists mask'. exact Hrun.
Qed.

End BandScanWith.

Lemma band_scan_with_empty (add : R -> R -> R) (test : nat -> nat -> bool)
  (img : image) (l : list (nat * nat)) (st : list (list bool) * nat * R) :
  (forall p, In p l -> test (fst p) (snd p) = false) ->
  for_each l (fun p => band_step_with add test img (fst p) (snd p)) st = Ok st.
Proof.
  intros H. apply for_each_skip. intros p Hp.
  unfold band_step_with. destruct st as [[mask n] s]. now rewrite (H p Hp).
Qed.

Lemma float_py_div_ok {A : arith} (a b : R) :
  b <> 0 -> Float64.py_div a b = Ok (a [/] b).
Proof.
  intros H. unfold Float64.py_div. destruct (Req_dec_T b 0); [contradiction |].
  reflexivity.
Qed.

Lemma float_a_score_unfold {A : arith} (r th inc rot x_m y_m : R)
  (data : image) :
  Float64.a_score r th inc rot x_m y_m data
  = (w <- width data ;;
     '(_, mask_no, score) <-
       for_each (grid 282 282)
         (fun p => band_step_with fadd
                     (Float64.a_in_band r (clamp_th th) inc rot x_m y_m) data
                     (fst p) (snd p))
         (np_full (length data) w false, O, 0) ;;
     Float64.py_div score
       (INR (if Nat.eqb mask_no 0 then 1%nat else mask_no))).
Proof.
  unfold Float64.a_score, grid.
  destruct (width data) as [w |]; cbn [bind]; [| reflexivity].
  rewrite <- for_each_nested. reflexivity.
Qed.

Lemma float_score_annulus_unfold {A : arith} (g : globals)
  (r th inc t_rot x_m y_m : R) (data : image) :
  Float64.score_annulus g r th inc t_rot x_m y_m data
  = (w <- width (qphi g) ;;
     '(_, mask_no, score) <-
       for_each (grid 282 282)
         (fun p => band_step_with fadd
                     (Float64.score_annulus_test r th inc t_rot x_m y_m)
                     (qphi g) (fst p) (snd p))
         (np_full (length (qphi g)) w false, O, 0) ;;
     Float64.py_div score
       (INR (if Nat.eqb mask_no 0 then 1%nat else mask_no))).
Proof.
  unfold Float64.score_annulus, grid.
  destruct (width (qphi g)) as [w |]; cbn [bind]; [| reflexivity].
  rewrite <- for_each_nested. reflexivity.
Qed.

(** The scan of the 282 x 282 grid by a band scorer, on an image that
    contains the pixels passing the test. *)
Lemma band_score_with {A : arith} (test : nat -> nat -> bool) (img : image)
  (h w : nat) :
  rect h w img -> (0 < h)%nat ->
  let band := filter (fun p => test (fst p) (snd p)) (grid 282 282) in
  (forall p, In p band -> (fst p < h)%nat /\ (snd p < w)%nat) ->
  (w' <- width img ;;
   '(_, mask_no, score) <-
     for_each (grid 282 282)
       (fun p => band_step_with fadd test img (fst p) (snd p))
       (np_full (length img) w' false, O, 0) ;;
   Float64.py_div score (INR (if Nat.eqb mask_no 0 then 1%nat else mask_no)))
  = Ok (fsum (map (px img) band)
        [/] INR (if Nat.eqb (length band) 0 then 1%nat else length band)).
Proof.
  intros Hr Hh band Hin.
  rewrite (rect_width Hr Hh). cbn [bind].
  destruct (@band_scan_with_spec fadd test img h w Hr (grid 282 282)
              (NoDup_grid 282 282)) with
    (mask := np_full (length img) w false) (n := O) (s := 0)
    as (mask' & Hrun).
  - intros p Hp Ht. apply Hin. apply filter_In. now split.
  - destruct Hr as [-> _]. apply rect_np_full.
  - intros p Hp Ht. destruct Hr as [-> _].
    apply get2_np_full; apply Hin; apply filter_In; now split.
  - rewrite Hrun. cbn [bind]. fold band. rewrite Nat.add_0_l. unfold fsum.
    apply float_py_div_ok, INR_count_nonzero.
Qed.

(** X29.  On a rectangular image that contains every pixel of the
    282 x 282 grid passing the band test, [a_score] returns the mean
    intensity over exactly those pixels, in every arithmetic: the band is
    [r - t/2 < z < r + t/2] with [t] the thickness after the clamp and [z]
    and the bounds as the program computes them, the intensities are
    accumulated in the order of the scan, and an empty band divides by
    1. *)
Theorem a_score_is_band_mean {A : arith} (r th inc rot x_m y_m : R)
  (data : image) (h w : nat) :
  rect h w data -> (0 < h)%nat ->
  let band :=
    filter (fun p => Float64.a_in_band r (clamp_th th) inc rot x_m y_m
                       (fst p) (snd p))
           (grid 282 282) in
  (forall p, In p band -> (fst p < h)%nat /\ (snd p < w)%nat) ->
  Float64.a_score r th inc rot x_m y_m data
  = Ok (fsum (map (px data) band)
        [/] INR (if Nat.eqb (length band) 0 then 1%nat else length band)).
Proof.
  intros Hr Hh band Hin. rewrite float_a_score_unfold.
  exact (@band_score_with A
           (Float64.a_in_band r (clamp_th th) inc rot x_m y_m) data h w
           Hr Hh Hin).
Qed.

(** X30.  [score_annulus] returns the mean of the module-level [qphi]
    over the pixels of the 282 x 282 grid that pass its test
    [z < r - th/2 and z < r + th/2], in every arithmetic, whenever [qphi]
    is rectangular and contains them; the [data] argument does not enter
    the result. *)
Theorem score_annulus_is_mean_of_global {A : arith} (g : globals)
  (r th inc t_rot x_m y_m : R) (data : image) (h w : nat) :
  rect h w (qphi g) -> (0 < h)%nat ->
  let band :=
    filter (fun p => Float64.score_annulus_test r th inc t_rot x_m y_m
                       (fst p) (snd p))
           (grid 282 282) in
  (forall p, In p band -> (fst p < h)%nat /\ (snd p < w)%nat) ->
  Float64.score_annulus g r th inc t_rot x_m y_m data
  = Ok (fsum (map (px (qphi g)) band)
        [/] INR (if Nat.eqb (length band) 0 then 1%nat else length band)).
Proof.
  intros Hr Hh band Hin. rewrite float_score_annulus_unfold.
  exact (@band_score_with A
           (Float64.score_annulus_test r th inc t_rot x_m y_m) (qphi g) h w
           Hr Hh Hin).
Qed.

(** An instance in the arithmetic without rounding: the band of radius 0
    and thickness 1 around pixel (0,0) of the 282 x 282 image [spot 7]
    holds that pixel only, and the mean is its intensity. *)
Lemma a_score_is_band_mean_witness :
  Float64.a_score (A := exact) 0 1 0 0 0 0 (spot 7) = Ok 7.
Proof.
  assert (Hband :
            filter (fun p => Float64.a_in_band (A := exact) 0 (clamp_th 1)
                               0 0 0 0 (fst p) (snd p))
                   (grid 282 282) = [(O, O)]).
  { apply filter_grid_origin.
    - cbn [fst snd]. rewrite exact_a_in_band, clamp_th_ge_1 by lra.
      unfold a_in_band. rewrite a_z_axis_origin. cbn [nan_gt nan_lt].
      rewrite !Rltb_true by lra. reflexivity.
    - intros [i j] _ Hne. cbn [fst snd].
      rewrite exact_a_in_band, clamp_th_ge_1 by lra. unfold a_in_band.
      destruct (@a_z_axis_off_origin i j Hne) as (v & -> & Hv).
      cbn [nan_gt nan_lt].
      rewrite (Rltb_false (a := v)) by lra. apply andb_false_r. }
  rewrite (@a_score_is_band_mean exact 0 1 0 0 0 0 (spot 7) 282 282
             (rect_spot 7) (Nat.lt_0_succ 281)).
  - rewrite Hband. cbn [map length Nat.eqb INR]. rewrite px_spot_origin.
    apply f_equal. unfold fsum, fadd, fdiv. cbn [fold_left rnd exact]. field.
  - rewrite Hband. intros p [<- | []]. cbn [fst snd]. lia.
Defined.

(** An instance in the arithmetic without rounding: with [r = 1] and
    [th = 1] the test [z < 0.5 and z < 1.5] takes pixel (0,0) only, and the
    score is the value of [qphi] there, whatever [data] is. *)
Lemma score_annulus_is_mean_of_global_witness :
  Float64.score_annulus (A := exact) (mk_globals (spot 7)) 1 1 0 0 0 0 []
  = Ok 7.
Proof.
  assert (Hband :
            filter (fun p => Float64.score_annulus_test (A := exact) 1 1
                               0 0 0 0 (fst p) (snd p))
                   (grid 282 282) = [(O, O)]).
  { apply filter_grid_origin.
    - cbn [fst snd]. rewrite exact_score_annulus_test.
      unfold score_annulus_test.
      rewrite score_annulus_z_origin, !Rltb_true by lra. reflexivity.
    - intros [i j] _ Hne. cbn [fst snd]. rewrite exact_score_annulus_test.
      unfold score_annulus_test.
      pose proof (@score_annulus_z_off_origin 0 i j cos_radians_0_bounds Hne).
      rewrite Rltb_false by lra. reflexivity. }
  rewrite (@score_annulus_is_mean_of_global exact (mk_globals (spot 7))
             1 1 0 0 0 0 [] 282 282 (rect_spot 7) (Nat.lt_0_succ 281)).
  - rewrite Hband. cbn [map length Nat.eqb INR qphi]. rewrite px_spot_origin.
    apply f_equal. unfold fsum, fadd, fdiv. cbn [fold_left rnd exact]. field.
  - rewrite Hband. intros p [<- | []]. cbn [fst snd]. lia.
Defined.

Lemma float_a_score_no_band {A : arith} (r th inc rot x_m y_m : R)
  (data : image) :
  data <> [] -> rnd 0 = 0 ->
  (forall i j, (i < 282)%nat -> (j < 282)%nat ->
     Float64.a_in_band r (clamp_th th) inc rot x_m y_m i j = false) ->
  Float64.a_score r th inc rot x_m y_m data = Ok 0.
Proof.
  intros Hne H0 Hnone. rewrite float_a_score_unfold.
  destruct data as [| row rest]; [congruence |].
  change (width (row :: rest)) with (Ok (A := nat) (length row)).
  rewrite (bind_ok _ eq_refl), band_scan_with_empty.
  - rewrite (bind_ok _ eq_refl). cbv beta iota. cbn [Nat.eqb INR].
    rewrite float_py_div_ok by lra. apply f_equal. unfold fdiv.
    replace (0 / 1) with 0 by field. exact H0.
  - intros p Hp. apply in_grid in Hp. now apply Hnone.
Qed.

(** X18.  When no pixel of the scanned grid passes the band test of the
    clamped thickness, as the program computes it, the score of [a_score]
    is 0; [a_r_score] substitutes the float 0.001 and returns its
    reciprocal, 1000 up to rounding.  Of the arithmetic this needs that 0
    is a float and that 0.001 does not round to 0. *)
Theorem a_r_score_empty_band {A : arith} (r th inc rot x_m y_m : R)
  (data : image) :
  data <> [] -> rnd 0 = 0 -> rnd 0.001 <> 0 ->
  (forall i j, (i < 282)%nat -> (j < 282)%nat ->
     Float64.a_in_band r (clamp_th th) inc rot x_m y_m i j = false) ->
  Float64.a_score r th inc rot x_m y_m data = Ok 0
  /\ Float64.a_r_score (r, th, inc, rot, x_m, y_m) data
     = Ok (1 [/] rnd 0.001).
Proof.
  intros Hne H0 H1 Hnone.
  pose proof (float_a_score_no_band r th inc rot x_m y_m Hne H0 Hnone) as Hs.
  split; [exact Hs |].
  unfold Float64.a_r_score. rewrite (bind_ok _ Hs).
  destruct (Req_dec_T 0 0) as [_ | Hn]; [| contradiction].
  apply float_py_div_ok. exact H1.
Qed.

(** An instance in the arithmetic without rounding: the ring of radius
    1000 misses the scanned grid, and the reciprocal score is 1000. *)
Lemma a_r_score_empty_band_witness :
  Float64.a_score (A := exact) 1000 4 0 0 0 0 (spot 1) = Ok 0
  /\ Float64.a_r_score (A := exact) (1000, 4, 0, 0, 0, 0) (spot 1) = Ok 1000.
Proof.
  destruct (@a_r_score_empty_band exact 1000 4 0 0 0 0 (spot 1)) as [Hs Hr].
  - discriminate.
  - reflexivity.
  - cbn [rnd exact]. lra.
  - intros i j Hi Hj. rewrite exact_a_in_band.
    now apply far_ring_misses_grid.
  - split; [exact Hs |]. rewrite Hr. apply f_equal.
    unfold fdiv. cbn [rnd exact]. lra.
Defined.

(* ===================================================================== *)
(** ** [cut] and [a_surf_map] in floating-point arithmetic                 *)
(* ===================================================================== *)

(** A loop that writes [v] at the positions of a square array selected by
    a test. *)
Lemma paint_spec (t : nat * nat -> bool) (v : R) (a : image) (n : nat) :
  rect n n a ->
  exists out,
    for_each (filter t (grid n n))
      (fun p a => set2 a (Z.of_nat (fst p)) (Z.of_nat (snd p)) v) a = Ok out
    /\ rect n n out
    /\ forall i j, (i < n)%nat -> (j < n)%nat ->
         px out (i, j) = if t (i, j) then v else px a (i, j).
Proof.
  intros Hr.
  destruct (@fill_spec n n (fun _ => v)
              (fun p a => set2 a (Z.of_nat (fst p)) (Z.of_nat (snd p)) v)
              (filter t (grid n n)))
    with (a := a) as (out & Hrun & Hrout & Hval & Hkeep).
  - intros p Hp. apply filter_In in Hp as [Hp _]. now apply in_grid.
  - reflexivity.
  - exact Hr.
  - exists out. split; [exact Hrun | split; [exact Hrout |]].
    intros i j Hi Hj.
    assert (Hg : In (i, j) (grid n n)) by (apply in_grid; cbn; lia).
    destruct (t (i, j)) eqn:Et.
    + pose proof (Hval (i, j)) as Hv. cbn [fst snd] in Hv.
      rewrite (rect_get2 Hrout Hi Hj) in Hv.
      assert (Hin : In (i, j) (filter t (grid n n)))
        by (apply filter_In; now split).
      specialize (Hv Hin). now injection Hv.
    + pose proof (Hkeep (i, j)) as Hk. cbn [fst snd] in Hk.
      rewrite (rect_get2 Hrout Hi Hj), (rect_get2 Hr Hi Hj) in Hk.
      assert (Hnin : ~ In (i, j) (filter t (grid n n))).
      { intros Hin. apply filter_In in Hin as [_ Hin]. congruence. }
      specialize (Hk Hnin). now injection Hk.
Qed.

(** The same loop writing at the transposed positions. *)
Lemma paint_transposed_spec (t : nat * nat -> bool) (v : R) (a : image)
  (n : nat) :
  rect n n a ->
  exists out,
    for_each (map (fun p => (snd p, fst p)) (filter t (grid n n)))
      (fun q a => set2 a (Z.of_nat (fst q)) (Z.of_nat (snd q)) v) a = Ok out
    /\ rect n n out
    /\ forall i j, (i < n)%nat -> (j < n)%nat ->
         px out (j, i) = if t (i, j) then v else px a (j, i).
Proof.
  intros Hr. set (band := filter t (grid n n)).
  destruct (@fill_spec n n (fun _ => v)
              (fun q a => set2 a (Z.of_nat (fst q)) (Z.of_nat (snd q)) v)
              (map (fun p => (snd p, fst p)) band))
    with (a := a) as (out & Hrun & Hrout & Hval & Hkeep).
  - intros q Hq. apply in_map_iff in Hq as ([i j] & <- & Hp).
    apply filter_In in Hp as [Hp _]. apply in_grid in Hp. cbn [fst snd] in *. lia.
  - reflexivity.
  - exact Hr.
  - exists out. split; [exact Hrun | split; [exact Hrout |]].
    intros i j Hi Hj.
    assert (Hmem : In (j, i) (map (fun p => (snd p, fst p)) band)
                   <-> t (i, j) = true).
    { rewrite in_map_iff. split.
      - intros ([i' j'] & E & Hp). cbn [fst snd] in E. injection E as -> ->.
        now apply filter_In in Hp as [_ Hp].
      - intros Ht. exists (i, j). split; [reflexivity |].
        apply filter_In. split; [apply in_grid; cbn; lia | exact Ht]. }
    destruct (t (i, j)) eqn:Et.
    + pose proof (Hval (j, i) (proj2 Hmem eq_refl)) as Hv. cbn [fst snd] in Hv.
      rewrite (rect_get2 Hrout Hj Hi) in Hv. now injection Hv.
    + assert (Hnin : ~ In (j, i) (map (fun p => (snd p, fst p)) band)).
      { intros Hin. apply Hmem in Hin. discriminate. }
      pose proof (Hkeep (j, i) Hnin) as Hk. cbn [fst snd] in Hk.
      rewrite (rect_get2 Hrout Hj Hi), (rect_get2 Hr Hj Hi) in Hk.
      now injection Hk.
Qed.

Lemma float_cut_unfold {A : arith} (r inc rot x_m y_m val : R) (data : image) :
  Float64.cut r inc rot x_m y_m val data
  = (w <- width data ;;
     for_each (filter (Float64.cut_inside r inc rot x_m y_m)
                      (grid w (length data)))
       (fun p a => set2 a (Z.of_nat (fst p)) (Z.of_nat (snd p)) val) data).
Proof.
  unfold Float64.cut. destruct (width data) as [w |]; cbn [bind]; [| reflexivity].
  rewrite for_each_nested. apply for_each_cond.
  intros [i j] a. unfold Float64.cut_inside. cbn [fst snd].
  destruct (Float64.rotate (INR i) (INR j) x_m y_m rot). reflexivity.
Qed.

(** X7.  On a square image [cut] returns an image of the same shape in
    which exactly the pixels that pass the test [R < r], as the program
    computes [R], hold [val], and all others keep their value; this holds
    in every arithmetic. *)
Theorem cut_square {A : arith} (r inc rot x_m y_m val : R) (data : image)
  (n : nat) :
  rect n n data -> (0 < n)%nat ->
  exists out,
    Float64.cut r inc rot x_m y_m val data = Ok out
    /\ rect n n out
    /\ forall i j, (i < n)%nat -> (j < n)%nat ->
         px out (i, j)
         = if Float64.cut_inside r inc rot x_m y_m (i, j) then val
           else px data (i, j).
Proof.
  intros Hr Hn. rewrite float_cut_unfold, (rect_width Hr Hn). cbn [bind].
  pose proof Hr as [Hlen _]. rewrite Hlen.
  exact (paint_spec (Float64.cut_inside r inc rot x_m y_m) val Hr).
Qed.

(** In the arithmetic without rounding the test of [cut] is that of the
    idealised embedding. *)
Lemma exact_cut_inside (r inc rot x_m y_m : R) (p : nat * nat) :
  Float64.cut_inside (A := exact) r inc rot x_m y_m p
  = cut_inside r inc rot x_m y_m p.
Proof.
  unfold Float64.cut_inside, cut_inside, test_map_R.
  change (Float64.rotate (A := exact) (INR (fst p)) (INR (snd p)) x_m y_m rot)
    with (rotate (INR (fst p)) (INR (snd p)) x_m y_m rot).
  destruct (rotate (INR (fst p)) (INR (snd p)) x_m y_m rot) as [x y].
  unfold Float64.np_sqrt, fadd, fdiv. cbn [rnd np_square np_cos np_radians exact].
  destruct (Rle_dec 0 ((x / cos (radians inc)) ^ 2 + y ^ 2)) as [_ | H];
    [reflexivity |].
  exfalso. apply H.
  pose proof (pow2_ge_0 (x / cos (radians inc))). pose proof (pow2_ge_0 y). lra.
Qed.

(** An instance in the arithmetic without rounding: the disc of radius 1
    around pixel (0,0) of a 2 x 2 image holds that pixel only. *)
Lemma cut_square_witness :
  Float64.cut (A := exact) 1 0 0 0 0 9 [[1; 2]; [3; 4]] = Ok [[9; 2]; [3; 4]].
Proof.
  destruct (@cut_square exact 1 0 0 0 0 9 [[1; 2]; [3; 4]] 2
              (rect_2x2 1 2 3 4) (Nat.lt_0_succ 1))
    as (out & Hrun & Hr & Hpx).
  rewrite Hrun. apply f_equal.
  apply rect_ext with (h := 2%nat) (w := 2%nat); [exact Hr | apply rect_2x2 |].
  intros i j Hi Hj.
  rewrite (Hpx i j Hi Hj), exact_cut_inside, cut_inside_unit_disc.
  destruct i as [| [| i]], j as [| [| j]]; try lia; reflexivity.
Defined.

Lemma float_a_surf_map_unfold {A : arith} (r th inc rot x_m y_m surf : R)
  (back : scalar) (data : image) :
  Float64.a_surf_map r th inc rot x_m y_m surf back data
  = (w <- width data ;;
     for_each
       (map (fun p => (snd p, fst p))
            (filter (fun p => Float64.a_in_band r th inc rot x_m y_m
                                (fst p) (snd p))
                    (grid (length data) w)))
       (fun q a => set2 a (Z.of_nat (fst q)) (Z.of_nat (snd q))
                     (store_as back surf))
       (np_full (length data) w (scalar_val back))).
Proof.
  unfold Float64.a_surf_map.
  destruct (width data) as [w |]; cbn [bind]; [| reflexivity].
  rewrite for_each_nested, for_each_map. cbn [fst snd].
  apply for_each_cond. intros [i j] a. reflexivity.
Qed.

Lemma px_np_full (v : R) (n i j : nat) :
  (i < n)%nat -> (j < n)%nat -> px (np_full n n v) (i, j) = v.
Proof.
  intros Hi Hj. pose proof (get2_np_full v Hi Hj) as H.
  rewrite (rect_get2 (rect_np_full n n v) Hi Hj) in H. now injection H.
Qed.

(** X16.  On a square image [a_surf_map] returns a map of the same shape
    that holds [surf] at position [[j, i]] exactly when pixel [(i, j)]
    passes the test [r - th/2 < z < r + th/2] as the program computes it
    (with [th] as given, no clamp), and [back] elsewhere: the band is
    stored transposed.  The map has the type of [back]: for an integer
    [back] the stored [surf] is truncated. *)
Theorem a_surf_map_square {A : arith} (r th inc rot x_m y_m surf : R)
  (back : scalar) (data : image) (n : nat) :
  rect n n data -> (0 < n)%nat ->
  exists out,
    Float64.a_surf_map r th inc rot x_m y_m surf back data = Ok out
    /\ rect n n out
    /\ forall i j, (i < n)%nat -> (j < n)%nat ->
         px out (j, i)
         = if Float64.a_in_band r th inc rot x_m y_m i j
           then store_as back surf else scalar_val back.
Proof.
  intros Hr Hn.
  rewrite float_a_surf_map_unfold, (bind_ok _ (rect_width Hr Hn)).
  pose proof Hr as [Hlen _]. rewrite Hlen.
  destruct (paint_transposed_spec
              (fun p => Float64.a_in_band r th inc rot x_m y_m (fst p) (snd p))
              (store_as back surf) (rect_np_full n n (scalar_val back)))
    as (out & Hrun & Hrout & Hpx).
  exists out. split; [exact Hrun | split; [exact Hrout |]].
  intros i j Hi Hj. rewrite (Hpx i j Hi Hj). cbn [fst snd].
  rewrite px_np_full by assumption. reflexivity.
Qed.

(** The radius [z] of a pixel for an unrotated, face-on model centred on
    pixel (0,1). *)
Lemma a_z_axis_centre_0_1 (i j : nat) :
  a_z (INR i) (INR j) 0 0 0 1 = Some (sqrt (INR i ^ 2 + (INR j - 1) ^ 2)).
Proof.
  unfold a_z, rotate. rewrite radians_0, cos_0, sin_0.
  unfold np_sqrt.
  replace ((INR i * 1 - INR j * 0 - 0 * 1 + 1 * 0) ^ 2
           + (INR j * 1 + INR i * 0 - 1 * 1 - 0 * 0) ^ 2 / 1)
    with (INR i ^ 2 + (INR j - 1) ^ 2) by field.
  destruct (Rle_dec 0 (INR i ^ 2 + (INR j - 1) ^ 2)) as [_ | H];
    [reflexivity |].
  exfalso. apply H.
  pose proof (pow2_ge_0 (INR i)). pose proof (pow2_ge_0 (INR j - 1)). lra.
Qed.

(** An instance in the arithmetic without rounding: on a 2 x 2 image the
    band of radius 0 and thickness 1 around pixel (0,1) holds that pixel
    only; the integer map holds the truncated [surf] at the transposed
    position [1, 0]. *)
Lemma a_surf_map_square_witness :
  Float64.a_surf_map (A := exact) 0 1 0 0 0 1 5.5 (PyInt 0) [[1; 2]; [3; 4]]
  = Ok [[0; 0]; [5; 0]].
Proof.
  destruct (@a_surf_map_square exact 0 1 0 0 0 1 5.5 (PyInt 0)
              [[1; 2]; [3; 4]] 2 (rect_2x2 1 2 3 4) (Nat.lt_0_succ 1))
    as (out & Hrun & Hr & Hpx).
  rewrite Hrun. apply f_equal.
  apply rect_ext with (h := 2%nat) (w := 2%nat); [exact Hr | apply rect_2x2 |].
  assert (Hband : forall i j, (i < 2)%nat -> (j < 2)%nat ->
             Float64.a_in_band (A := exact) 0 1 0 0 0 1 i j
             = if pixel_eqb (i, j) (O, 1%nat) then true else false).
  { intros i j Hi Hj. rewrite exact_a_in_band. unfold a_in_band.
    rewrite a_z_axis_centre_0_1. cbn [nan_gt nan_lt].
    destruct i as [| [| i]], j as [| [| j]]; try lia; cbn [INR pixel_eqb fst snd Nat.eqb andb].
    - replace (0 ^ 2 + (0 - 1) ^ 2) with 1 by ring. rewrite sqrt_1.
      rewrite (Rltb_false (a := 1) (b := 0 + 1 / 2)) by lra.
      apply andb_false_r.
    - replace (0 ^ 2 + (1 - 1) ^ 2) with 0 by ring. rewrite sqrt_0.
      rewrite !Rltb_true by lra. reflexivity.
    - assert (1 <= sqrt (1 ^ 2 + (0 - 1) ^ 2)).
      { rewrite <- sqrt_1 at 1. apply sqrt_le_1_alt. lra. }
      rewrite (Rltb_false (b := 0 + 1 / 2)) by lra. apply andb_false_r.
    - replace (1 ^ 2 + (1 - 1) ^ 2) with 1 by ring. rewrite sqrt_1.
      rewrite (Rltb_false (a := 1) (b := 0 + 1 / 2)) by lra.
      apply andb_false_r. }
  intros i j Hi Hj.
  pose proof (Hpx j i Hj Hi) as E. rewrite E, (Hband j i Hj Hi).
  cbn [store_as scalar_val]. rewrite np_int_5_5.
  destruct i as [| [| i]], j as [| [| j]]; try lia; reflexivity.
Defined.

(* ===================================================================== *)
(** ** The ellipse scorers in floating-point arithmetic                    *)
(* ===================================================================== *)

Section SampleScan.

Variable E : Type.
Variable pix : E -> Z * Z.
Variable add : R -> R -> R.
Variable data : image.
Variables h w : nat.
Hypothesis data_rect : rect h w data.

(** The loop of [e_score] over samples that index the image validly, with
    the addition of the arithmetic: the mask stays at 0 and every sample
    adds the intensity of its pixel, in the order of the samples. *)
Lemma e_score_loop_with (es : list E) :
  (forall e, In e es -> in_bounds h w (pix e)) ->
  forall (n : nat) (s : R),
    for_each es (fun e '(mask_no, score) =>
      let '(sq_y, sq_x) := pix e in
      m <- get2 (np_full h w 0%Z) sq_y sq_x ;;
      let mask_no := if (m =? 0)%Z then S mask_no else mask_no in
      v <- get2 data sq_y sq_x ;;
      Ok (mask_no, add score v)) (n, s)
    = Ok ((n + length es)%nat,
          fold_left add
            (map (fun e => px data (norm_pixel h w (pix e))) es) s).
Proof.
  intros Hb. induction es as [| e es IH]; intros n s.
  - cbn. f_equal. f_equal. lia.
  - assert (Hbe : in_bounds h w (pix e)) by (apply Hb; now left).
    destruct (norm_pixel_bound Hbe) as [Hi Hj].
    cbn [for_each map fold_left].
    pose proof (get2_norm (rect_np_full h w 0%Z) Hbe) as Hgm.
    pose proof (get2_norm data_rect Hbe) as Hgd.
    set (p := norm_pixel h w (pix e)) in *.
    destruct (pix e) as [sq_y sq_x].
    cbn [fst snd] in Hgm, Hgd.
    rewrite Hgm, (get2_np_full 0%Z Hi Hj). cbn [bind Z.eqb].
    rewrite Hgd.
    replace (get2 data (Z.of_nat (fst p)) (Z.of_nat (snd p)))
      with (Ok (px data p))
      by (symmetry; destruct p; now apply rect_get2 with (h := h) (w := w)).
    cbn [bind].
    rewrite IH by (intros e' He'; apply Hb; now right).
    cbn [length]. f_equal. f_equal. lia.
Qed.

(** The loop of [score_ellipse] from a mask that marks exactly the pixels
    [seen], with the addition of the arithmetic: the pixels visited for
    the first time are added once each, in the order of their first
    visit. *)
Lemma score_ellipse_loop_with (es : list E) :
  (forall e, In e es -> in_bounds h w (pix e)) ->
  forall (seen : list (nat * nat)) (mask : list (list bool)) (n : nat) (s : R),
    rect h w mask ->
    (forall q, (fst q < h)%nat -> (snd q < w)%nat ->
       get2 mask (Z.of_nat (fst q)) (Z.of_nat (snd q)) = Ok (seen_in seen q)) ->
    let firsts := first_visits seen (map (fun e => norm_pixel h w (pix e)) es) in
    exists mask',
      for_each es (fun e '(mask, mask_no, score) =>
        let '(sq_y, sq_x) := pix e in
        m <- get2 mask sq_y sq_x ;;
        if eqb m false then
          v <- get2 data sq_y sq_x ;;
          mask <- set2 mask sq_y sq_x true ;;
          Ok (mask, S mask_no, add score v)
        else Ok (mask, mask_no, score)) (mask, n, s)
      = Ok (mask', (n + length firsts)%nat,
            fold_left add (map (px data) firsts) s).
Proof.
  induction es as [| e es IH]; intros Hb seen mask n s Hm Hinv firsts.
  - exists mask. cbn. f_equal. f_equal. f_equal. lia.
  - assert (Hbe : in_bounds h w (pix e)) by (apply Hb; now left).
    destruct (norm_pixel_bound Hbe) as [Hi Hj].
    subst firsts. cbn [for_each map first_visits].
    set (p := norm_pixel h w (pix e)) in *.
    pose proof (get2_norm Hm Hbe) as Hgm. fold p in Hgm.
    pose proof (get2_norm data_rect Hbe) as Hgd. fold p in Hgd.
    pose proof (set2_norm true Hm Hbe) as Hsm. fold p in Hsm.
    destruct (pix e) as [sq_y sq_x]. cbn [fst snd] in Hgm, Hgd, Hsm.
    rewrite Hgm, (Hinv p Hi Hj).
    destruct (seen_in seen p) eqn:Eseen; cbn [bind eqb].
    + apply IH; [intros e' He'; apply Hb; now right | assumption | assumption].
    + rewrite Hgd, Hsm.
      replace (get2 data (Z.of_nat (fst p)) (Z.of_nat (snd p)))
        with (Ok (px data p))
        by (symmetry; destruct p; now apply rect_get2 with (h := h) (w := w)).
      cbn [bind].
      destruct (rect_set2 true Hm Hi Hj) as (mask2 & Hset & Hm2 & Hother).
      rewrite Hset. cbn [bind].
      destruct (IH (fun e' He' => Hb e' (or_intror He')) (p :: seen) mask2
                  (S n) (add s (px data p)) Hm2) as (mask' & Hrun).
      { intros q Hqi Hqj. rewrite seen_in_cons.
        destruct (pixel_eqb q p) eqn:Eq.
        - apply pixel_eqb_eq in Eq. subst q. cbn [orb].
          exact (@set2_get2_same _ h w mask mask2 (fst p) (snd p) true
                   Hm Hi Hj Hset).
        - cbn [orb]. rewrite Hother; [now apply Hinv |].
          intros E'. assert (q = p) by (destruct q, p; cbn in *; congruence).
          subst q. rewrite (proj2 (pixel_eqb_eq p p) eq_refl) in Eq.
          discriminate. }
      exists mask'. rewrite Hrun. cbn [length map fold_left].
      f_equal. f_equal. f_equal. lia.
Qed.

End SampleScan.

(** The loop of [e_mask]: every sample increments the entry of its pixel. *)
Lemma e_mask_loop_with (E : Type) (pix : E -> Z * Z) (h w : nat)
  (es : list E) :
  (forall e, In e es -> in_bounds h w (pix e)) ->
  forall (mask : list (list Z)) (cnt : nat * nat -> Z) (n : nat),
    rect h w mask ->
    (forall q, (fst q < h)%nat -> (snd q < w)%nat ->
       get2 mask (Z.of_nat (fst q)) (Z.of_nat (snd q)) = Ok (cnt q)) ->
    exists mask' n',
      for_each es (fun e '(mask, mask_no) =>
        let '(sq_y, sq_x) := pix e in
        m <- get2 mask sq_y sq_x ;;
        mask <- set2 mask sq_y sq_x (m + 1)%Z ;;
        Ok (mask, S mask_no)) (mask, n)
      = Ok (mask', n')
      /\ rect h w mask'
      /\ forall q, (fst q < h)%nat -> (snd q < w)%nat ->
           get2 mask' (Z.of_nat (fst q)) (Z.of_nat (snd q))
           = Ok (cnt q
                 + Z.of_nat (count_occ pixel_eq_dec
                               (map (fun e => norm_pixel h w (pix e)) es)
                               q))%Z.
Proof.
  intros Hb. induction es as [| e es IH]; intros mask cnt n Hm Hinv.
  - exists mask, n. cbn [for_each map count_occ].
    split; [reflexivity | split; [exact Hm |]].
    intros q Hi Hj. rewrite (Hinv q Hi Hj). f_equal. lia.
  - assert (Hbe : in_bounds h w (pix e)) by (apply Hb; now left).
    destruct (norm_pixel_bound Hbe) as [Hi Hj].
    cbn [for_each map].
    pose proof (get2_norm Hm Hbe) as Hgm.
    set (p := norm_pixel h w (pix e)) in *.
    pose proof (fun v => set2_norm v Hm Hbe) as Hsm. fold p in Hsm.
    destruct (pix e) as [sq_y sq_x].
    cbn [fst snd] in Hgm, Hsm.
    rewrite Hgm, (Hinv p Hi Hj). cbn [bind]. rewrite Hsm.
    destruct (rect_set2 (cnt p + 1)%Z Hm Hi Hj) as (mask2 & Hset & Hm2 & Hother).
    rewrite Hset. cbn [bind].
    destruct (IH (fun e' He' => Hb e' (or_intror He')) mask2
                (fun q => if pixel_eq_dec p q then (cnt q + 1)%Z else cnt q)
                (S n) Hm2) as (mask' & n' & Hrun & Hm' & Hcnt).
    { intros q Hqi Hqj. destruct (pixel_eq_dec p q) as [<- | Hne].
      - exact (@set2_get2_same _ h w mask mask2 (fst p) (snd p) (cnt p + 1)%Z
                 Hm Hi Hj Hset).
      - rewrite Hother; [now apply Hinv |].
        intros E'. apply Hne. destruct p, q. cbn [fst snd] in E'. congruence. }
    exists mask', n'. split; [exact Hrun | split; [exact Hm' |]].
    intros q Hqi Hqj. rewrite (Hcnt q Hqi Hqj). f_equal.
    cbn [count_occ]. destruct (pixel_eq_dec p q); lia.
Qed.

(** X11.  On a rectangular image that all 400 samples index validly,
    [e_score] returns the sum, accumulated in the order of the samples,
    over the samples and not over the distinct pixels: a pixel hit by
    several samples is added once per sample.  The pixel of a sample is
    the one the program computes; this holds in every arithmetic. *)
Theorem e_score_sums_samples {A : arith} (r inc rot x_m y_m : R)
  (data : image) (h w : nat) :
  rect h w data -> (0 < h)%nat ->
  (forall e, In e (Float64.Ell r inc 400) ->
     in_bounds h w (Float64.ellipse_pixel rot x_m y_m e)) ->
  Float64.e_score r inc rot x_m y_m data
  = Ok (fsum (map (fun e => px data (norm_pixel h w
                                       (Float64.ellipse_pixel rot x_m y_m e)))
                  (Float64.Ell r inc 400))).
Proof.
  intros Hr Hh Hb. unfold Float64.e_score.
  rewrite (bind_ok _ (rect_width Hr Hh)). cbv zeta.
  pose proof Hr as [Hlen _]. rewrite Hlen.
  rewrite (@e_score_loop_with _ (Float64.ellipse_pixel rot x_m y_m) fadd
             data h w Hr (Float64.Ell r inc 400) Hb O 0).
  reflexivity.
Qed.

(** X12.  On a rectangular image that all 10000 samples index validly,
    [e_mask] returns an array of the shape of the image whose entry at a
    pixel is the number of samples that the program places on that pixel;
    this holds in every arithmetic. *)
Theorem e_mask_counts {A : arith} (r inc rot x_m y_m : R) (data : image)
  (h w : nat) :
  rect h w data -> (0 < h)%nat ->
  (forall e, In e (Float64.Ell r inc (100 * 100)) ->
     in_bounds h w (Float64.ellipse_pixel rot x_m y_m e)) ->
  exists mask,
    Float64.e_mask r inc rot x_m y_m data = Ok mask
    /\ rect h w mask
    /\ forall i j, (i < h)%nat -> (j < w)%nat ->
         get2 mask (Z.of_nat i) (Z.of_nat j)
         = Ok (Z.of_nat (count_occ pixel_eq_dec
                           (map (fun e => norm_pixel h w
                                            (Float64.ellipse_pixel rot x_m y_m e))
                                (Float64.Ell r inc (100 * 100)))
                           (i, j))).
Proof.
  intros Hr Hh Hb. unfold Float64.e_mask.
  rewrite (bind_ok _ (rect_width Hr Hh)). cbv beta zeta.
  pose proof Hr as [Hlen _]. rewrite Hlen.
  destruct (@e_mask_loop_with _ (Float64.ellipse_pixel rot x_m y_m) h w
              (Float64.Ell r inc (100 * 100)) Hb
              (np_full h w 0%Z) (fun _ => 0%Z) O (rect_np_full h w 0%Z))
    as (mask' & n' & Hrun & Hm' & Hcnt).
  { intros q Hi Hj. now apply get2_np_full. }
  rewrite (bind_ok _ Hrun). exists mask'.
  split; [reflexivity | split; [exact Hm' |]].
  intros i j Hi Hj. pose proof (Hcnt (i, j) Hi Hj) as H.
  cbn [fst snd] in H. rewrite H, Z.add_0_l. reflexivity.
Qed.

(** X20.  On a rectangular image that all 400 samples index validly,
    [score_ellipse] of [testplot.py] returns the sum of the intensities of
    the distinct pixels the program places the samples on, each taken
    once, accumulated in the order of the first visits; this holds in
    every arithmetic. *)
Theorem score_ellipse_counts_once {A : arith} (r inc t_rot x_m y_m : R)
  (data : image) (h w : nat) :
  rect h w data -> (0 < h)%nat ->
  (forall e, In e (Float64.Ell r inc 400) ->
     in_bounds h w (Float64.ellipse_pixel t_rot x_m y_m e)) ->
  Float64.score_ellipse r inc t_rot x_m y_m data
  = Ok (fsum (map (px data) (Float64.visited r inc t_rot x_m y_m h w)))
  /\ NoDup (Float64.visited r inc t_rot x_m y_m h w)
  /\ forall p, In p (Float64.visited r inc t_rot x_m y_m h w)
       <-> exists e, In e (Float64.Ell r inc 400)
             /\ norm_pixel h w (Float64.ellipse_pixel t_rot x_m y_m e) = p.
Proof.
  intros Hr Hh Hb. split; [| split].
  - unfold Float64.score_ellipse.
    rewrite (bind_ok _ (rect_width Hr Hh)). cbv zeta.
    destruct (@score_ellipse_loop_with _ (Float64.ellipse_pixel t_rot x_m y_m)
                fadd data h w Hr (Float64.Ell r inc 400) Hb []
                (np_full (length data) w false) O 0)
      as (mask' & Hrun).
    + destruct Hr as [-> _]. apply rect_np_full.
    + intros q Hi Hj. destruct Hr as [-> _]. now apply get2_np_full.
    + rewrite (bind_ok _ Hrun). unfold Float64.visited, fsum. reflexivity.
  - unfold Float64.visited. apply first_visits_spec.
  - intros p. unfold Float64.visited.
    destruct (first_visits_spec
                (map (fun e => norm_pixel h w
                                 (Float64.ellipse_pixel t_rot x_m y_m e))
                     (Float64.Ell r inc 400)) []) as [_ Hin].
    rewrite Hin, in_map_iff. split.
    + intros [(e & He & Hine) _]. exists e. now split.
    + intros (e & Hine & He). split; [exists e; now split | intros []].
Qed.

(** *** An ellipse of radius 1 in the arithmetic without rounding          *)

Lemma np_int_small (x : R) : -1 < x < 1 -> np_int x = 0%Z.
Proof.
  intros [Hlo Hhi]. unfold np_int. destruct (Rle_dec 0 x) as [Hx | Hx].
  - apply Zfloor_eq. cbn. lra.
  - rewrite (Zfloor_eq 0 (- x)); [reflexivity | cbn; lra].
Qed.

(** Strictly between 0 and a full turn, and off the half turn, the cosine
    lies strictly between -1 and 1. *)
Lemma cos_inside (t : R) : 0 < t < 2 * PI -> t <> PI -> -1 < cos t < 1.
Proof.
  intros [H0 H2] Hpi. replace t with (2 * (t / 2)) by field. split.
  - rewrite cos_2a_cos.
    assert (Hc : cos (t / 2) <> 0).
    { destruct (Rlt_dec t PI) as [Hlt | Hge].
      - apply Rgt_not_eq. apply cos_gt_0; lra.
      - apply Rlt_not_eq. apply cos_lt_0; lra. }
    assert (0 < cos (t / 2) * cos (t / 2)) by nra. lra.
  - rewrite cos_2a_sin.
    assert (Hs : 0 < sin (t / 2)) by (apply sin_gt_0; lra).
    assert (0 < sin (t / 2) * sin (t / 2)) by nra. lra.
Qed.

(** The inner parameter values of an even number of samples over a full
    turn miss the half turn. *)
Lemma inner_sample_inside (m k : nat) :
  (0 < k)%nat -> (k < 2 * m + 1)%nat ->
  let t := INR k * ((2 * PI - 0) / INR (2 * m + 1)) + 0 in
  0 < t < 2 * PI /\ t <> PI.
Proof.
  intros Hk0 Hk t.
  assert (HN : INR (2 * m + 1) = 2 * INR m + 1)
    by (rewrite plus_INR, mult_INR; cbn; ring).
  assert (Hm : 0 <= INR m) by apply pos_INR.
  assert (Hk0' : 1 <= INR k) by (apply (le_INR 1); lia).
  assert (Hk' : INR k + 1 <= 2 * INR m + 1).
  { rewrite <- HN. rewrite <- (S_INR k). apply le_INR. lia. }
  pose proof PI_RGT_0 as Hpi.
  set (q := PI / (2 * INR m + 1)).
  assert (Hq : 0 < q) by (apply Rdiv_lt_0_compat; lra).
  assert (Hpq : PI = (2 * INR m + 1) * q) by (unfold q; field; lra).
  assert (Ht : t = 2 * INR k * q) by (unfold t, q; rewrite HN; field; lra).
  assert (Hkq : 0 < INR k * q) by (apply Rmult_lt_0_compat; lra).
  assert (Hrest : 0 <= (2 * INR m + 1 - (INR k + 1)) * q)
    by (apply Rmult_le_pos; lra).
  rewrite Ht, Hpq. split; [split; lra |].
  destruct (le_lt_dec k m) as [Hle | Hgt].
  - apply le_INR in Hle.
    assert (0 <= (INR m - INR k) * q) by (apply Rmult_le_pos; lra). lra.
  - pose proof Hgt as Hgt0. apply lt_INR in Hgt.
    assert (0 <= (INR k - INR m - 1) * q).
    { apply Rmult_le_pos; [| lra].
      apply (le_INR (S m) k) in Hgt0. rewrite S_INR in Hgt0. lra. }
    lra.
Qed.

(** The pixel of a sample of the ellipse of radius 1 and inclination 60
    around the pixel (3,3), unrotated. *)
Lemma unit_sample_pixel (t : R) :
  Float64.ellipse_pixel (A := exact) 0 3 3
    (1 * cos t, 1 * cos (radians 60) * sin t)
  = (3 + np_int (sin t / 2), 3 + np_int (cos t))%Z.
Proof.
  unfold Float64.ellipse_pixel.
  cbn [np_cos np_sin np_radians np_dot exact fst snd].
  rewrite radians_0, cos_0, sin_0, cos_radians_60, (np_int_IZR 3).
  f_equal; f_equal; f_equal; field.
Qed.

Lemma map_constant {A B : Type} (f : A -> B) (c : B) (l : list A) :
  (forall x, In x l -> f x = c) -> map f l = repeat c (length l).
Proof.
  induction l as [| a l IH]; intros H; [reflexivity |].
  cbn [map length repeat]. rewrite (H a) by now left.
  f_equal. apply IH. intros x Hx. apply H. now right.
Qed.

(** The pixels of the samples: the first and the last sample fall on
    (3,4), all others on (3,3). *)
Lemma unit_ellipse_pixels (m : nat) :
  map (fun e => norm_pixel 8 8 (Float64.ellipse_pixel (A := exact) 0 3 3 e))
      (Float64.Ell (A := exact) 1 60 (2 * m + 2))
  = (3, 4)%nat :: repeat (3, 3)%nat (2 * m) ++ [(3, 4)%nat].
Proof.
  unfold Float64.Ell, Float64.linspace. rewrite !map_map.
  unfold fadd, fsub, fmul, fdiv.
  cbn [rnd np_cos np_sin np_radians np_pi exact].
  replace (2 * m + 2)%nat with (S (S (2 * m))) by lia.
  replace (S (S (2 * m)) - 1)%nat with (2 * m + 1)%nat by lia.
  change (seq 0 (S (S (2 * m)))) with (O :: seq 1 (S (2 * m))).
  rewrite seq_S. cbn [map]. rewrite map_app. cbn [map]. f_equal; [| f_equal].
  - cbn [Nat.eqb]. rewrite unit_sample_pixel. cbn [INR].
    replace (0 * ((2 * PI - 0) / INR (2 * m + 1)) + 0) with 0 by
      (unfold Rdiv; ring).
    rewrite sin_0, cos_0. replace (0 / 2) with 0 by field.
    rewrite np_int_0, (np_int_IZR 1). reflexivity.
  - rewrite <- (length_seq (2 * m) 1) at 2. apply map_constant.
    intros k Hk. apply in_seq in Hk.
    replace (Nat.eqb (S k) (S (S (2 * m)))) with false
      by (symmetry; apply Nat.eqb_neq; lia).
    rewrite unit_sample_pixel.
    destruct (@inner_sample_inside m k) as [Hin Hne]; [lia | lia |].
    pose proof (cos_inside Hin Hne) as Hc.
    pose proof (SIN_bound (INR k * ((2 * PI - 0) / INR (2 * m + 1)) + 0)).
    rewrite (np_int_small Hc), np_int_small by lra. reflexivity.
  - replace (Nat.eqb (S (1 + 2 * m)) (S (S (2 * m)))) with true
      by (symmetry; apply Nat.eqb_eq; lia).
    rewrite unit_sample_pixel.
    rewrite sin_2PI, cos_2PI. replace (0 / 2) with 0 by field.
    rewrite np_int_0, (np_int_IZR 1). reflexivity.
Qed.

(** The samples of the ellipse stay within the radius, in the arithmetic
    without rounding. *)
Lemma exact_Ell_bound (r inc : R) (n : nat) (e : R * R) :
  In e (Float64.Ell (A := exact) r inc n) ->
  Rabs (fst e) <= Rabs r /\ Rabs (snd e) <= Rabs r.
Proof.
  unfold Float64.Ell. intros H. apply in_map_iff in H as (t & <- & _).
  unfold fmul. cbn [fst snd rnd np_cos np_sin np_radians exact].
  pose proof (COS_bound t). pose proof (SIN_bound t).
  pose proof (COS_bound (radians inc)).
  pose proof (Rabs_pos r).
  assert (Hc : Rabs (cos t) <= 1) by (apply Rabs_le; lra).
  assert (Hs : Rabs (sin t) <= 1) by (apply Rabs_le; lra).
  assert (Hi : Rabs (cos (radians inc)) <= 1) by (apply Rabs_le; lra).
  pose proof (Rabs_pos (cos t)). pose proof (Rabs_pos (sin t)).
  pose proof (Rabs_pos (cos (radians inc))).
  rewrite !Rabs_mult. split; [nra |].
  assert (Hri : Rabs r * Rabs (cos (radians inc)) <= Rabs r) by nra.
  assert (0 <= Rabs r * Rabs (cos (radians inc))) by nra.
  nra.
Qed.

(** A rotated sample lies within twice the radius of the centre. *)
Lemma exact_ellipse_pixel_in_bounds (r inc rot : R) (rho cx cy : Z)
  (h w n : nat) (e : R * R) :
  In e (Float64.Ell (A := exact) r inc n) -> Rabs r <= IZR rho ->
  (2 * rho <= cx /\ cx + 2 * rho < Z.of_nat w)%Z ->
  (2 * rho <= cy /\ cy + 2 * rho < Z.of_nat h)%Z ->
  in_bounds h w (Float64.ellipse_pixel (A := exact) rot (IZR cx) (IZR cy) e).
Proof.
  intros He Hr Hx Hy. destruct (exact_Ell_bound _ _ _ _ He) as [Ha Hb].
  unfold Float64.ellipse_pixel, in_bounds.
  cbn [fst snd np_cos np_sin np_radians np_dot exact]. rewrite !np_int_IZR.
  pose proof (COS_bound (radians rot)). pose proof (SIN_bound (radians rot)).
  assert (Hc : Rabs (cos (radians rot)) <= 1) by (apply Rabs_le; lra).
  assert (Hs : Rabs (sin (radians rot)) <= 1) by (apply Rabs_le; lra).
  assert (Hs' : Rabs (- sin (radians rot)) <= 1) by (rewrite Rabs_Ropp; exact Hs).
  pose proof (Rabs_pos (fst e)). pose proof (Rabs_pos (snd e)).
  pose proof (Rabs_pos (cos (radians rot))).
  pose proof (Rabs_pos (sin (radians rot))).
  pose proof (Rabs_pos (- sin (radians rot))).
  assert (Hb0 : Rabs (cos (radians rot) * fst e + - sin (radians rot) * snd e)
               <= IZR (2 * rho)).
  { rewrite mult_IZR.
    eapply Rle_trans; [apply Rabs_triang |]. rewrite !Rabs_mult. nra. }
  assert (Hb1 : Rabs (sin (radians rot) * fst e + cos (radians rot) * snd e)
               <= IZR (2 * rho)).
  { rewrite mult_IZR.
    eapply Rle_trans; [apply Rabs_triang |]. rewrite !Rabs_mult. nra. }
  apply np_int_abs_le in Hb0. apply np_int_abs_le in Hb1. lia.
Qed.

Lemma unit_ellipse_in_bounds (n : nat) (e : R * R) :
  In e (Float64.Ell (A := exact) 1 60 n) ->
  in_bounds 8 8 (Float64.ellipse_pixel (A := exact) 0 3 3 e).
Proof.
  intros He.
  apply (@exact_ellipse_pixel_in_bounds 1 60 0 1 3 3 8 8 n e He).
  - rewrite Rabs_R1. lra.
  - lia.
  - lia.
Qed.

Lemma px_ramp (n i j : nat) :
  (i < n)%nat -> (j < n)%nat -> px (ramp n) (i, j) = INR (n * i + j).
Proof. intros Hi Hj. unfold ramp. now rewrite px_map_map. Qed.

Lemma fold_left_Rplus_repeat (c : R) (k : nat) (s : R) :
  fold_left Rplus (repeat c k) s = s + INR k * c.
Proof.
  revert s. induction k as [| k IH]; intros s.
  - cbn. ring.
  - cbn [repeat fold_left]. rewrite IH, S_INR. ring.
Qed.

(** An instance in the arithmetic without rounding, on the 8 x 8 image
    whose pixel [(i, j)] holds [8 i + j]: of the 400 samples of the ellipse
    of radius 1 and inclination 60 around (3,3) the first and the last fall
    on pixel (3,4) and the other 398 on pixel (3,3), and the score is
    [2 * 28 + 398 * 27]. *)
Lemma e_score_sums_samples_witness :
  Float64.e_score (A := exact) 1 60 0 3 3 (ramp 8) = Ok 10802.
Proof.
  rewrite (@e_score_sums_samples exact 1 60 0 3 3 (ramp 8) 8 8
             (rect_ramp 8) (Nat.lt_0_succ 7) (@unit_ellipse_in_bounds 400)).
  apply f_equal.
  rewrite <- (map_map
                (fun e => norm_pixel 8 8
                            (Float64.ellipse_pixel (A := exact) 0 3 3 e))
                (px (ramp 8))).
  change (Float64.Ell (A := exact) 1 60 400)
    with (Float64.Ell (A := exact) 1 60 (2 * 199 + 2)).
  rewrite (unit_ellipse_pixels 199).
  cbn [map]. rewrite map_app, map_repeat. cbn [map].
  rewrite !px_ramp by lia.
  unfold fsum. change (@fadd exact) with Rplus.
  cbn [fold_left]. rewrite fold_left_app, fold_left_Rplus_repeat.
  cbn [fold_left].
  change (2 * 199)%nat with 398%nat.
  rewrite (INR_IZR_INZ 398), (INR_IZR_INZ (8 * 3 + 4)), (INR_IZR_INZ (8 * 3 + 3)).
  cbn [Z.of_nat Nat.mul Nat.add Pos.of_succ_nat Pos.succ]. lra.
Defined.

(** An instance in the arithmetic without rounding, on the same image and
    ellipse: [score_ellipse] adds the two visited pixels (3,4) and (3,3)
    once each. *)
Lemma score_ellipse_counts_once_witness :
  Float64.score_ellipse (A := exact) 1 60 0 3 3 (ramp 8) = Ok 55.
Proof.
  rewrite (proj1 (@score_ellipse_counts_once exact 1 60 0 3 3 (ramp 8) 8 8
                    (rect_ramp 8) (Nat.lt_0_succ 7)
                    (@unit_ellipse_in_bounds 400))).
  apply f_equal. unfold Float64.visited.
  change (Float64.Ell (A := exact) 1 60 400)
    with (Float64.Ell (A := exact) 1 60 (2 * 199 + 2)).
  rewrite (unit_ellipse_pixels 199).
  assert (Hv : first_visits [] ((3, 4)%nat :: repeat (3, 3)%nat (2 * 199)
                                 ++ [(3, 4)%nat])
               = [(3, 4)%nat; (3, 3)%nat]) by (vm_compute; reflexivity).
  rewrite Hv. cbn [map]. rewrite !px_ramp by lia.
  unfold fsum. change (@fadd exact) with Rplus. cbn [fold_left].
  rewrite (INR_IZR_INZ (8 * 3 + 4)), (INR_IZR_INZ (8 * 3 + 3)).
  cbn [Z.of_nat Nat.mul Nat.add Pos.of_succ_nat Pos.succ]. lra.
Defined.

Lemma count_occ_two_pixels (k : nat) (q : nat * nat) :
  count_occ pixel_eq_dec
    ((3, 4)%nat :: repeat (3, 3)%nat k ++ [(3, 4)%nat]) q
  = ((if pixel_eq_dec (3, 4)%nat q then 2 else 0)
     + (if pixel_eq_dec (3, 3)%nat q then k else 0))%nat.
Proof.
  cbn [count_occ]. rewrite count_occ_app. cbn [count_occ].
  destruct (pixel_eq_dec (3, 4)%nat q) as [<- | H34].
  - rewrite count_occ_repeat_neq by discriminate.
    destruct (pixel_eq_dec (3, 3)%nat (3, 4)%nat); [discriminate | lia].
  - destruct (pixel_eq_dec (3, 3)%nat q) as [<- | H33].
    + rewrite count_occ_repeat_eq by reflexivity. lia.
    + rewrite count_occ_repeat_neq by congruence. reflexivity.
Qed.

(** An instance in the arithmetic without rounding, on the same image and
    ellipse with the 10000 samples of [e_mask]: the first and the last
    sample fall on pixel (3,4), the other 9998 on pixel (3,3), and every
    other entry of the mask stays 0. *)
Lemma e_mask_counts_witness :
  exists mask,
    Float64.e_mask (A := exact) 1 60 0 3 3 (ramp 8) = Ok mask
    /\ rect 8 8 mask
    /\ get2 mask 3 4 = Ok 2%Z
    /\ get2 mask 3 3 = Ok (2 * 4999)%Z
    /\ forall i j, (i < 8)%nat -> (j < 8)%nat ->
         (i, j) <> (3, 4)%nat -> (i, j) <> (3, 3)%nat ->
         get2 mask (Z.of_nat i) (Z.of_nat j) = Ok 0%Z.
Proof.
  destruct (@e_mask_counts exact 1 60 0 3 3 (ramp 8) 8 8
              (rect_ramp 8) (Nat.lt_0_succ 7)
              (@unit_ellipse_in_bounds (100 * 100)))
    as (mask & Hrun & Hm & Hcnt).
  exists mask. split; [exact Hrun | split; [exact Hm |]].
  assert (Hpix :
            map (fun e => norm_pixel 8 8
                            (Float64.ellipse_pixel (A := exact) 0 3 3 e))
                (Float64.Ell (A := exact) 1 60 (100 * 100))
            = (3, 4)%nat :: repeat (3, 3)%nat (2 * 4999) ++ [(3, 4)%nat]).
  { rewrite <- (unit_ellipse_pixels 4999). do 2 f_equal. }
  rewrite Hpix in Hcnt.
  split; [| split].
  - change (get2 mask 3 4) with (get2 mask (Z.of_nat 3) (Z.of_nat 4)).
    rewrite (Hcnt 3%nat 4%nat) by lia. rewrite count_occ_two_pixels.
    destruct (pixel_eq_dec (3, 4)%nat (3, 4)%nat); [| congruence].
    destruct (pixel_eq_dec (3, 3)%nat (3, 4)%nat); [discriminate |].
    reflexivity.
  - change (get2 mask 3 3) with (get2 mask (Z.of_nat 3) (Z.of_nat 3)).
    rewrite (Hcnt 3%nat 3%nat) by lia. rewrite count_occ_two_pixels.
    destruct (pixel_eq_dec (3, 4)%nat (3, 3)%nat); [discriminate |].
    destruct (pixel_eq_dec (3, 3)%nat (3, 3)%nat); [| congruence].
    apply f_equal. rewrite Nat.add_0_l, Nat2Z.inj_mul. reflexivity.
  - intros i j Hi Hj H34 H33.
    rewrite (Hcnt i j Hi Hj), count_occ_two_pixels.
    destruct (pixel_eq_dec (3, 4)%nat (i, j)); [congruence |].
    destruct (pixel_eq_dec (3, 3)%nat (i, j)); [congruence |].
    reflexivity.
Defined.
